(** * replace_atoms: a shallow embedding of [replace_atoms.py]

    The program reads a GROMACS [.gro] coordinate file from a stream of
    lines, relabels a random sample of the atoms whose residue name
    matches, moves the relabelled atoms in front of the first candidate,
    renumbers residues and atoms, and writes the file again.

    The development has three parts:
    - the module [Py]: what the program uses of the Python 2 runtime,
      that is exceptions, byte strings, [int()], [float()], [str.format]
      and [==];
    - the program, function by function and under the names it has in
      [replace_atoms.py], with the vocabulary the statements need;
    - the properties of these functions. *)

From Stdlib Require Import ZArith List Bool Arith Lia.
From Stdlib Require Import Strings.String Strings.Ascii.
From Stdlib Require Import Sorting.Permutation Sorting.Sorted.
From Stdlib Require Import Floats.SpecFloat.
Import ListNotations.

Set Implicit Arguments.

(* ================================================================== *)
(** * The Python runtime, as far as the program uses it               *)
(* ================================================================== *)

Module Py.

(** ** Exceptions

    The exceptions that can leave the functions of the program.  A
    [ValueError] carries the message of the interpreter, which tells the
    one raised by [random.sample] from the one raised by [min]. *)

Inductive exn : Type :=
| StopIteration
| FormatError
| IndexError
| KeyError
| ValueError (msg : string).

Inductive result (A : Type) : Type :=
| Ok (v : A)
| Raise (e : exn).

Arguments Ok {A} v.
Arguments Raise {A} e.

Definition bind {A B : Type} (r : result A) (k : A -> result B) : result B :=
  match r with
  | Ok v => k v
  | Raise e => Raise e
  end.

Notation "x <- r ;; k" := (bind r (fun x => k))
  (at level 61, r at next level, right associativity).
Notation "' p <- r ;; k" := (bind r (fun p => k))
  (at level 61, p pattern, r at next level, right associativity).

(** ** Byte strings

    A Python 2 [str] is a sequence of bytes: [string] of the standard
    library.  [s[b:e]] with non-negative bounds is [substring], which
    truncates at the end of the string as slicing does. *)

Local Open Scope string_scope.

Definition slice (s : string) (b e : nat) : string := substring b (e - b) s.

(** The line terminator, ["\n"]. *)
Definition nl : string := String "010" EmptyString.

(** [str.strip()] with no argument removes the six ASCII white space
    characters: space, [\t], [\n], [\v], [\f], [\r]. *)
Definition isspace (c : ascii) : bool :=
  let n := nat_of_ascii c in
  (n =? 32)%nat || ((9 <=? n)%nat && (n <=? 13)%nat).

Fixpoint lstrip (s : string) : string :=
  match s with
  | EmptyString => EmptyString
  | String c s' => if isspace c then lstrip s' else s
  end.

(** [rstrip]: what is left of [c :: s'] is empty when [c] is white space
    and nothing is left of [s']. *)
Fixpoint rstrip (s : string) : string :=
  match s with
  | EmptyString => EmptyString
  | String c s' =>
      match rstrip s' with
      | EmptyString => if isspace c then EmptyString else String c EmptyString
      | r => String c r
      end
  end.

Definition strip (s : string) : string := rstrip (lstrip s).

Fixpoint spaces (n : nat) : string :=
  match n with
  | O => EmptyString
  | S n' => String " " (spaces n')
  end.

(** [format(s, '>w')] and [format(s, '<w')]: pad with spaces up to the
    width, never truncate. *)
Definition rjust (w : nat) (s : string) : string := spaces (w - length s) ++ s.
Definition ljust (w : nat) (s : string) : string := s ++ spaces (w - length s).

(** ** Integers: [str(n)] and [int(s)] *)

Definition digit_char (d : Z) : ascii := ascii_of_nat (48 + Z.to_nat d).

Definition digit_value (c : ascii) : option Z :=
  let n := nat_of_ascii c in
  if (48 <=? n)%nat && (n <=? 57)%nat then Some (Z.of_nat (n - 48)) else None.

(** The decimal digits of [n >= 0] in front of [acc]; [fuel] bounds the
    number of digits. *)
Fixpoint digits_acc (fuel : nat) (n : Z) (acc : string) : string :=
  match fuel with
  | O => acc
  | S fuel' =>
      let acc' := String (digit_char (n mod 10)) acc in
      if (n <? 10)%Z then acc' else digits_acc fuel' (n / 10) acc'
  end.

Definition str_of_nonneg (n : Z) : string :=
  digits_acc (S (Z.to_nat (Z.log2 n))) n EmptyString.

(** [str(n)], and [format(n, 'd')]. *)
Definition str_of_int (n : Z) : string :=
  if (n <? 0)%Z then String "-" (str_of_nonneg (- n)) else str_of_nonneg n.

(** The value of a string of decimal digits read after the digits of
    value [acc]; [None] when a character is not a digit. *)
Fixpoint digits_value (acc : Z) (s : string) : option Z :=
  match s with
  | EmptyString => Some acc
  | String c s' =>
      match digit_value c with
      | Some d => digits_value (10 * acc + d) s'
      | None => None
      end
  end.

(** [int(s)] on a [str], base 10 (CPython 2.7, [PyInt_FromString] over
    [PyOS_strtol]): white space, an optional sign, white space again
    (Python 2 accepts [int("- 1")]), at least one digit, white space, and
    the end of the string.  [None] stands for [ValueError].  This is
    [int] on a text whose digits fit a C [long], as the five characters of
    a column do; past that CPython goes through [PyLong_FromString]. *)
Definition int_of_str (s : string) : option Z :=
  match strip s with
  | EmptyString => None
  | String c r =>
      let '(neg, body) :=
        if Ascii.eqb c "-" then (true, lstrip r)
        else if Ascii.eqb c "+" then (false, lstrip r)
        else (false, String c r) in
      match body with
      | EmptyString => None
      | _ => option_map (fun v => if neg then (- v)%Z else v) (digits_value 0 body)
      end
  end.

(** ** Floats: [float(s)] and [format(x, '8.3f')]

    A Python [float] is an IEEE 754 binary64 number: [spec_float], a sign
    with a mantissa below [2^53] and an exponent between [-1074] and
    [971], the two zeros, the two infinities, or a NaN. *)

Definition float : Type := spec_float.

(** The integer nearest to [n / d] for [d > 0], ties to the even one. *)
Definition round_half_even (n d : Z) : Z :=
  let q := (n / d)%Z in
  match (2 * (n mod d) ?= d)%Z with
  | Lt => q
  | Gt => (q + 1)%Z
  | Eq => if Z.even q then q else (q + 1)%Z
  end.

(** [floor (log2 (n / d))] for positive [n] and [d]. *)
Definition log2_ratio (n d : Z) : Z :=
  let c := (Z.log2 n - Z.log2 d)%Z in
  let above :=
    if (0 <=? c)%Z then (d * 2 ^ c <=? n)%Z else (d <=? n * 2 ^ (- c))%Z in
  if above then c else (c - 1)%Z.

(** The binary64 number nearest to [n / d] ([n >= 0], [d > 0]), ties to
    even, with gradual underflow and overflow to infinity: the result of
    a correctly rounded [strtod], as CPython 2.7 uses. *)
Definition binary64_of_ratio (neg : bool) (n d : Z) : float :=
  if (n =? 0)%Z then S754_zero neg
  else
    let e := Z.max (log2_ratio n d - 52) (- 1074) in
    let m :=
      if (0 <=? e)%Z then round_half_even n (d * 2 ^ e)
      else round_half_even (n * 2 ^ (- e)) d in
    let '(m, e) := if (m =? 2 ^ 53)%Z then (2 ^ 52, e + 1)%Z else (m, e) in
    if (m =? 0)%Z then S754_zero neg
    else if (971 <? e)%Z then S754_infinity neg
    else S754_finite neg (Z.to_pos m) e.

Definition is_digit (c : ascii) : bool :=
  match digit_value c with Some _ => true | None => false end.

(** The longest prefix of decimal digits, and what follows it. *)
Fixpoint span_digits (s : string) : string * string :=
  match s with
  | EmptyString => (EmptyString, EmptyString)
  | String c s' =>
      if is_digit c then
        let '(ds, rest) := span_digits s' in (String c ds, rest)
      else (EmptyString, s)
  end.

Definition lower (c : ascii) : ascii :=
  let n := nat_of_ascii c in
  if (65 <=? n)%nat && (n <=? 90)%nat then ascii_of_nat (n + 32) else c.

Fixpoint lowercase (s : string) : string :=
  match s with
  | EmptyString => EmptyString
  | String c s' => String (lower c) (lowercase s')
  end.

(** The exponent part of a decimal literal: nothing, or [e] or [E], an
    optional sign and at least one digit. *)
Definition exponent_of_str (s : string) : option Z :=
  match s with
  | EmptyString => Some 0%Z
  | String c r =>
      if Ascii.eqb (lower c) "e" then
        let '(neg, ds) :=
          match r with
          | String "-" r' => (true, r')
          | String "+" r' => (false, r')
          | _ => (false, r)
          end in
        match ds with
        | EmptyString => None
        | _ => option_map (fun v => if neg then (- v)%Z else v) (digits_value 0 ds)
        end
      else None
  end.

(** An unsigned decimal literal [ddd.ddd(e[+-]dd)], with a digit on at
    least one side of the point, as the fraction it denotes. *)
Definition ratio_of_decimal (s : string) : option (Z * Z) :=
  let '(ip, r1) := span_digits s in
  let '(fp, r2) :=
    match r1 with
    | String "." r => span_digits r
    | _ => (EmptyString, r1)
    end in
  match (length ip + length fp)%nat with
  | O => None
  | _ =>
      match digits_value 0 (ip ++ fp), exponent_of_str r2 with
      | Some m, Some ex =>
          let e10 := (ex - Z.of_nat (length fp))%Z in
          Some (if (0 <=? e10)%Z then (m * 10 ^ e10, 1)%Z else (m, 10 ^ (- e10))%Z)
      | _, _ => None
      end
  end.

(** [float(s)] on a [str] (CPython 2.7, [PyFloat_FromString]): white
    space around, an optional sign, then [inf], [infinity] or [nan] in
    any case, or a decimal literal.  [None] stands for [ValueError]. *)
Definition float_of_str (s : string) : option float :=
  let t := strip s in
  let '(neg, body) :=
    match t with
    | String c r =>
        if Ascii.eqb c "-" then (true, r)
        else if Ascii.eqb c "+" then (false, r)
        else (false, t)
    | EmptyString => (false, t)
    end in
  let word := lowercase body in
  if String.eqb word "inf" || String.eqb word "infinity" then Some (S754_infinity neg)
  else if String.eqb word "nan" then Some S754_nan
  else option_map (fun '(n, d) => binary64_of_ratio neg n d) (ratio_of_decimal body).

(** The three digits of [f], [0 <= f < 1000]. *)
Definition three_digits (f : Z) : string :=
  String (digit_char (f / 100))
    (String (digit_char (f / 10 mod 10))
       (String (digit_char (f mod 10)) EmptyString)).

(** A sign and a number of thousandths, written with three decimals. *)
Definition fixed3 (neg : bool) (t : Z) : string :=
  (if neg then "-" else "") ++ str_of_nonneg (t / 1000) ++ "." ++ three_digits (t mod 1000).

(** [m * 2^e] in thousandths, rounded to the nearest, ties to even. *)
Definition thousandths (m e : Z) : Z :=
  if (0 <=? e)%Z then (m * 2 ^ e * 1000)%Z
  else round_half_even (m * 1000) (2 ^ (- e)).

(** [format(x, '.3f')]: the exact value of the float rounded to three
    decimals.  This is the text of a float below [1e50] in absolute value,
    as is every float whose text fits the eight columns of a coordinate;
    from [1e50] on CPython 2.7 formats as with ['g'], and that text is not
    modelled. *)
Definition format_3f (x : float) : string :=
  match x with
  | S754_nan => "nan"
  | S754_infinity neg => if neg then "-inf" else "inf"
  | S754_zero neg => fixed3 neg 0
  | S754_finite neg m e => fixed3 neg (thousandths (Zpos m) e)
  end.

(** ** Values and [==]

    The values stored under the keys of an atom, and Python's equality
    on them: numbers compare by value across [int] and [float], a string
    equals only a string. *)

Inductive value : Type :=
| VInt (n : Z)
| VStr (s : string)
| VFloat (x : float).

Definition int_eq_float (n : Z) (x : float) : bool :=
  match x with
  | S754_zero _ => (n =? 0)%Z
  | S754_finite neg m e =>
      let v := if neg then Zneg m else Zpos m in
      if (0 <=? e)%Z then (n =? v * 2 ^ e)%Z else (n * 2 ^ (- e) =? v)%Z
  | _ => false
  end.

Definition py_eq (a b : value) : bool :=
  match a, b with
  | VInt n, VInt m => (n =? m)%Z
  | VStr s, VStr t => String.eqb s t
  | VFloat x, VFloat y => SFeqb x y
  | VInt n, VFloat x | VFloat x, VInt n => int_eq_float n x
  | _, _ => false
  end.

End Py.

Import Py.
Local Open Scope string_scope.

(* ================================================================== *)
(** * The program                                                     *)
(* ================================================================== *)

(** ** Atoms

    [read_gro] stores an atom as a dictionary with the seven keys of
    [GRO_FIELDS], each with a value of the type the table gives: a record. *)

Module Atom.
Record t : Type := make {
  resid : Z;
  resname : string;
  atom_name : string;
  atomid : Z;
  x : float;
  y : float;
  z : float
}.
End Atom.

Definition atom : Type := Atom.t.

(** [atom[key]]; a key that is not in the dictionary raises [KeyError]. *)
Definition getitem (a : atom) (key : string) : result value :=
  if String.eqb key "resid" then Ok (VInt (Atom.resid a))
  else if String.eqb key "resname" then Ok (VStr (Atom.resname a))
  else if String.eqb key "atom_name" then Ok (VStr (Atom.atom_name a))
  else if String.eqb key "atomid" then Ok (VInt (Atom.atomid a))
  else if String.eqb key "x" then Ok (VFloat (Atom.x a))
  else if String.eqb key "y" then Ok (VFloat (Atom.y a))
  else if String.eqb key "z" then Ok (VFloat (Atom.z a))
  else Raise KeyError.

(** ** The file format *)

Inductive conv : Type := to_int | to_str | to_float.

(** [convert(text)]; [None] is the [ValueError] of [int] and [float]. *)
Definition convert (c : conv) (text : string) : option value :=
  match c with
  | to_int => option_map VInt (int_of_str text)
  | to_str => Some (VStr text)
  | to_float => option_map VFloat (float_of_str text)
  end.

Definition GRO_FIELDS : list (string * ((nat * nat) * conv)) :=
  [ ("resid",     ((0, 5), to_int));
    ("resname",   ((5, 10), to_str));
    ("atom_name", ((10, 15), to_str));
    ("atomid",    ((15, 20), to_int));
    ("x",         ((20, 28), to_float));
    ("y",         ((28, 36), to_float));
    ("z",         ((36, 44), to_float)) ]%nat.

Fixpoint lookup {A : Type} (key : string) (table : list (string * A)) : option A :=
  match table with
  | [] => None
  | (k, v) :: rest => if String.eqb k key then Some v else lookup key rest
  end.

(** One item of the dictionary that [read_gro] builds from a line:
    [convert(prev_line[begin:end].strip())]. *)
Definition field (line key : string) : option value :=
  match lookup key GRO_FIELDS with
  | Some ((b, e), c) => convert c (strip (slice line b e))
  | None => None
  end.

(** The dictionary built from one line, [None] when a conversion raises
    [ValueError]. *)
Definition decode (line : string) : option atom :=
  match field line "resid", field line "resname", field line "atom_name",
        field line "atomid", field line "x", field line "y", field line "z" with
  | Some (VInt r), Some (VStr rn), Some (VStr an), Some (VInt ai),
    Some (VFloat cx), Some (VFloat cy), Some (VFloat cz) =>
      Some (Atom.make r rn an ai cx cy cz)
  | _, _, _, _, _, _, _ => None
  end.

(** ** Reading *)

Definition is_empty_line (line : string) : bool :=
  match strip line with
  | EmptyString => true
  | _ => false
  end.

Fixpoint stop_at_empty_line (iterator : list string) : list string :=
  match iterator with
  | [] => []
  | line :: rest =>
      if is_empty_line line then [] else line :: stop_at_empty_line rest
  end.

(** The loop of [read_gro] over the lines that [stop_at_empty_line]
    yields: decode the previous line, keep the current one. *)
Fixpoint read_atoms (atoms : list atom) (prev_line : string) (lines : list string)
  : result (list atom * string) :=
  match lines with
  | [] => Ok (atoms, prev_line)
  | line :: rest =>
      match decode prev_line with
      | Some a => read_atoms (atoms ++ [a]) line rest
      | None => Raise FormatError
      end
  end.

(** [next(lines)]. *)
Definition next (lines : list string) : result (string * list string) :=
  match lines with
  | [] => Raise StopIteration
  | line :: rest => Ok (line, rest)
  end.

Definition read_gro (lines : list string) : result (string * list atom * string) :=
  '(title, lines) <- next lines ;;
  '(_, lines) <- next lines ;;
  '(prev_line, lines) <- next lines ;;
  '(atoms, box) <- read_atoms [] prev_line (stop_at_empty_line lines) ;;
  Ok (title, atoms, box).

(** ** Writing *)

(** [format(x, '8.3f')]. *)
Definition format_8_3f (v : float) : string := rjust 8 (format_3f v).

(** The line of one atom:
    ['{resid:>5}{resname:<5}{atom_name:>5}{atomid:>5}{x:8.3f}{y:8.3f}{z:8.3f}\n']. *)
Definition encode (a : atom) : string :=
  rjust 5 (str_of_int (Atom.resid a)) ++ ljust 5 (Atom.resname a)
  ++ rjust 5 (Atom.atom_name a) ++ rjust 5 (str_of_int (Atom.atomid a))
  ++ format_8_3f (Atom.x a) ++ format_8_3f (Atom.y a) ++ format_8_3f (Atom.z a)
  ++ nl.

Definition write_gro (title : string) (atoms : list atom) (box : string) : list string :=
  title :: (str_of_int (Z.of_nat (List.length atoms)) ++ nl)
        :: map encode atoms ++ [box].

(** ** Selecting, sampling, altering *)

(** The generator of [select], enumerating from [i]. *)
Fixpoint select_from (i : nat) (atoms : list atom) (key : string) (v : value)
  : result (list nat) :=
  match atoms with
  | [] => Ok []
  | a :: rest =>
      w <- getitem a key ;;
      more <- select_from (S i) rest key v ;;
      Ok (if py_eq w v then i :: more else more)
  end.

Definition select (atoms : list atom) (key : string) (v : value) : result (list nat) :=
  select_from 0 atoms key v.

(** The randomness of a run is the draw of [random.sample]: [k]
    pairwise distinct positions of a population of [n] elements, in the
    order they are drawn. *)
Definition valid_draw (n : nat) (k : Z) (draw : list nat) : Prop :=
  Z.of_nat (List.length draw) = k /\ NoDup draw /\ Forall (fun j => j < n) draw.

Definition pick {A : Type} (population : list A) (j : nat) : list A :=
  match nth_error population j with
  | Some c => [c]
  | None => []
  end.

(** [random.sample(population, k)]: [ValueError] unless
    [0 <= k <= len(population)], otherwise the elements at the positions
    drawn, in that order. *)
Definition sample {A : Type} (population : list A) (k : Z) (draw : list nat)
  : result (list A) :=
  if (0 <=? k)%Z && (k <=? Z.of_nat (List.length population))%Z
  then Ok (flat_map (pick population) draw)
  else Raise (ValueError "sample larger than population").

(** [atoms[i] = a]: the list with its element [i] replaced. *)
Fixpoint setitem {A : Type} (l : list A) (i : nat) (a : A) : list A :=
  match l, i with
  | [], _ => []
  | _ :: rest, O => a :: rest
  | b :: rest, S i' => b :: setitem rest i' a
  end.

Definition relabel (a : atom) (resname atom_name : string) : atom :=
  Atom.make (Atom.resid a) resname atom_name (Atom.atomid a)
            (Atom.x a) (Atom.y a) (Atom.z a).

(** [alter_atoms] changes the list in place and returns nothing: the
    list after the call, and the exception that ended the loop, if any
    ([atoms[i]] raises [IndexError] past the end). *)
Fixpoint alter_atoms (atoms : list atom) (indices : list nat)
    (resname atom_name : string) : list atom * option exn :=
  match indices with
  | [] => (atoms, None)
  | i :: rest =>
      match nth_error atoms i with
      | Some a => alter_atoms (setitem atoms i (relabel a resname atom_name))
                              rest resname atom_name
      | None => (atoms, Some IndexError)
      end
  end.

(** ** Reordering and renumbering *)

Definition xrange (lo hi : nat) : list nat := seq lo (hi - lo).

(** [i in insertions]. *)
Definition contains (insertions : list nat) (i : nat) : bool :=
  existsb (Nat.eqb i) insertions.

Definition reorder (length : nat) (insertions : list nat) (index : nat) : list nat :=
  flat_map (fun i => if negb (contains insertions i) then [i] else []) (xrange 0 index)
  ++ flat_map (fun i => [i]) insertions
  ++ flat_map (fun i => if negb (contains insertions i) then [i] else []) (xrange index length).

Fixpoint iter_order (atoms : list atom) (indices : list nat) : result (list atom) :=
  match indices with
  | [] => Ok []
  | i :: rest =>
      match nth_error atoms i with
      | Some a => more <- iter_order atoms rest ;; Ok (a :: more)
      | None => Raise IndexError
      end
  end.

Definition renumbered (a : atom) (resid atomid : Z) : atom :=
  Atom.make (resid mod 100000) (Atom.resname a) (Atom.atom_name a)
            (atomid mod 100000) (Atom.x a) (Atom.y a) (Atom.z a).

(** The loop of [renumber], from the values of [resid], [prev_resid] and
    [atomid] before an iteration. *)
Fixpoint renumber_loop (resid prev_resid atomid : Z) (atoms : list atom) : list atom :=
  match atoms with
  | [] => []
  | a :: rest =>
      let '(resid, prev_resid) :=
        if negb (Atom.resid a =? prev_resid)%Z
        then ((resid + 1)%Z, Atom.resid a)
        else (resid, prev_resid) in
      renumbered a resid atomid :: renumber_loop resid prev_resid (atomid + 1) rest
  end.

Definition renumber (atoms : list atom) : list atom := renumber_loop 0 0 1 atoms.

(** [renumber] builds no atom: it assigns to two keys of each dictionary
    that [iter_order] hands over, and yields that dictionary.  These are
    the objects of the list [atoms]; with [store] their state, by position
    in [atoms], [renumber_in_place] is their state after the loop has run
    over the objects at [refs].  [renumber_loop] above is the same loop on
    a sequence of objects that are all different, which is what
    [replace_atom] passes (see [renumber_in_place_distinct] and
    [replace_atom_distinct_objects]). *)
Fixpoint renumber_in_place (resid prev_resid atomid : Z) (store : list atom)
    (refs : list nat) : list atom :=
  match refs with
  | [] => store
  | i :: rest =>
      match nth_error store i with
      | Some a =>
          let '(resid, prev_resid) :=
            if negb (Atom.resid a =? prev_resid)%Z
            then ((resid + 1)%Z, Atom.resid a)
            else (resid, prev_resid) in
          renumber_in_place resid prev_resid (atomid + 1)
            (setitem store i (renumbered a resid atomid)) rest
      | None => store
      end
  end.

(** ** [random.sample], loop by loop

    [Lib/random.py] of CPython 2.7.  After its test on [k],
    [random.sample] runs one of two loops, chosen by a test on the sizes
    ([n <= setsize], where [setsize] is computed from [k] in floating
    point).  Both take their randomness as integers [_int(random() * m)],
    each at least 0 and below its [m]: [js] is the list of these integers,
    in the order they are drawn.  A loop that is given too few integers,
    or one that is out of range, has no result here. *)

(** [pool = list(population)], then for [i] in [xrange(k)]:
    [j = _int(random() * (n-i))], [result[i] = pool[j]],
    [pool[j] = pool[n-i-1]].  [m] is [n - i]. *)
Fixpoint sample_pool {A : Type} (pool : list A) (m k : nat) (js : list nat)
  : option (list A) :=
  match k with
  | O => Some []
  | S k' =>
      match js with
      | [] => None
      | j :: js' =>
          match nth_error pool j, nth_error pool (m - 1) with
          | Some c, Some last =>
              option_map (cons c) (sample_pool (setitem pool j last) (m - 1) k' js')
          | _, _ => None
          end
      end
  end.

(** [selected = set()], then for [i] in [xrange(k)]:
    [j = _int(random() * n)], drawn again while [j in selected], then
    [selected_add(j)], [result[i] = population[j]]. *)
Fixpoint sample_set {A : Type} (population : list A) (k : nat) (selected js : list nat)
    {struct js} : option (list A) :=
  match k with
  | O => Some []
  | S k' =>
      match js with
      | [] => None
      | j :: js' =>
          if contains selected j then sample_set population k selected js'
          else
            match nth_error population j with
            | Some c => option_map (cons c) (sample_set population k' (j :: selected) js')
            | None => None
            end
      end
  end.

(** [random.sample(population, k)] on a list; [pool_loop] is the outcome
    of the test on the sizes. *)
Definition random_sample {A : Type} (population : list A) (k : Z) (pool_loop : bool)
    (js : list nat) : option (result (list A)) :=
  let n := List.length population in
  if (0 <=? k)%Z && (k <=? Z.of_nat n)%Z
  then option_map (@Ok (list A))
         (if pool_loop then sample_pool population n (Z.to_nat k) js
          else sample_set population (Z.to_nat k) [] js)
  else Some (Raise (ValueError "sample larger than population")).

(** What [random()] guarantees of the integers drawn: in the first loop
    there are [k] of them, the one of iteration [i] below [n - i]; in the
    second, each is below [n]. *)
Definition valid_choices (n k : nat) (pool_loop : bool) (js : list nat) : Prop :=
  if pool_loop
  then List.length js = k /\ forall i j, nth_error js i = Some j -> j < n - i
  else Forall (fun j => j < n) js.

(** ** The transformation *)

(** [min(candidates)]. *)
Definition py_min (l : list nat) : result nat :=
  match l with
  | [] => Raise (ValueError "min() arg is an empty sequence")
  | c :: rest => Ok (fold_left Nat.min rest c)
  end.

(** [replace_atom] returns a generator; the result here is the list of
    what it yields, as [cli_main] consumes it, or the exception raised on
    the way (by the call itself up to [min], by the generators while they
    are consumed).  [draw] is the draw of [random.sample]. *)
Definition replace_atom (atoms : list atom) (key : string) (v : value)
    (resname atom_name : string) (nsub : Z) (draw : list nat) : result (list atom) :=
  candidates <- select atoms key v ;;
  selection <- sample candidates nsub draw ;;
  match alter_atoms atoms selection resname atom_name with
  | (_, Some e) => Raise e
  | (atoms, None) =>
      index <- py_min candidates ;;
      let new_order := reorder (List.length atoms) selection index in
      ordered <- iter_order atoms new_order ;;
      Ok (renumber ordered)
  end.

(** The command line, after [argparse]. *)
Record args : Type := {
  natoms : Z;
  oresname : string;
  nresname : string;
  natname : string
}.

(** [cli_main]: from the lines of the standard input to the lines
    printed. *)
Definition cli_main (a : args) (stdin : list string) (draw : list nat)
  : result (list string) :=
  '(title, atoms, box) <- read_gro stdin ;;
  modified_atoms <- replace_atom atoms "resname" (VStr (oresname a))
                      (nresname a) (natname a) (natoms a) draw ;;
  Ok (write_gro title modified_atoms box).

(** ** The walk of [renumber], as the specification words it

    The specification describes [renumber] by a residue counter and a
    tracker of the previous source resid, both starting at 0: when the
    resid of the current atom differs from the tracker, the counter
    increments and the tracker takes that resid.  [walk rs] is the pair
    (counter, tracker) after atoms of source resids [rs]. *)

Definition track (st : Z * Z) (r : Z) : Z * Z :=
  if (r =? snd st)%Z then st else ((fst st + 1)%Z, r).

Definition walk_from (st : Z * Z) (rs : list Z) : Z * Z := fold_left track rs st.

Definition walk (rs : list Z) : Z * Z := walk_from (0%Z, 0%Z) rs.

(** What [alter_atoms] never touches in an atom. *)
Definition same_but_names (a b : atom) : Prop :=
  Atom.resid b = Atom.resid a /\ Atom.atomid b = Atom.atomid a
  /\ Atom.x b = Atom.x a /\ Atom.y b = Atom.y a /\ Atom.z b = Atom.z a.

(** [s] consists of white space only. *)
Fixpoint all_space (s : string) : bool :=
  match s with
  | EmptyString => true
  | String c s' => isspace c && all_space s'
  end.

(** ** The canonical fixed-width form of an atom line

    What the columns of a line in canonical form hold: an integer
    right-aligned in five columns, a residue name left-aligned in five, an
    atom name right-aligned in five, an integer right-aligned in five, and
    three numbers with three decimals, each right-aligned in eight; then
    the line terminator.  A name has no white space at its ends, and a
    number with three decimals is a sign and a count of thousandths. *)

Definition stripped (s : string) : Prop := strip s = s.

Record decimal3 : Type := { negative : bool; thousandth : Z }.

Definition decimal3_text (d : decimal3) : string := fixed3 (negative d) (thousandth d).

Definition fits_decimal3 (d : decimal3) : Prop :=
  (0 <= thousandth d)%Z /\ String.length (decimal3_text d) <= 8.

Record columns : Type := {
  col_resid : Z;
  col_resname : string;
  col_atom_name : string;
  col_atomid : Z;
  col_x : decimal3;
  col_y : decimal3;
  col_z : decimal3
}.

Definition canonical_line (c : columns) : string :=
  (rjust 5 (str_of_int (col_resid c)) ++ ljust 5 (col_resname c)
   ++ rjust 5 (col_atom_name c) ++ rjust 5 (str_of_int (col_atomid c))
   ++ rjust 8 (decimal3_text (col_x c)) ++ rjust 8 (decimal3_text (col_y c))
   ++ rjust 8 (decimal3_text (col_z c)) ++ nl)%string.

Definition canonical (c : columns) : Prop :=
  String.length (str_of_int (col_resid c)) <= 5
  /\ String.length (col_resname c) <= 5 /\ stripped (col_resname c)
  /\ String.length (col_atom_name c) <= 5 /\ stripped (col_atom_name c)
  /\ String.length (str_of_int (col_atomid c)) <= 5
  /\ fits_decimal3 (col_x c) /\ fits_decimal3 (col_y c) /\ fits_decimal3 (col_z c).

(** No character of [s] is white space; every character is a digit. *)
Fixpoint no_space (s : string) : bool :=
  match s with
  | EmptyString => true
  | String c s' => negb (isspace c) && no_space s'
  end.

Fixpoint all_digits (s : string) : bool :=
  match s with
  | EmptyString => true
  | String c s' => is_digit c && all_digits s'
  end.

(** The atom that a line in canonical form holds: the integers and the
    names of its columns, and for each coordinate the binary64 number
    nearest to the decimal of its column. *)
Definition nearest (d : decimal3) : float :=
  binary64_of_ratio (negative d) (thousandth d) 1000.

Definition decoded (c : columns) : atom :=
  Atom.make (col_resid c) (col_resname c) (col_atom_name c) (col_atomid c)
            (nearest (col_x c)) (nearest (col_y c)) (nearest (col_z c)).

(** An atom that [write_gro] writes within the columns of the format:
    no field is wider than its column, and the names have no white space
    at their ends. *)
Definition encodable (a : atom) : Prop :=
  String.length (str_of_int (Atom.resid a)) <= 5
  /\ String.length (Atom.resname a) <= 5 /\ stripped (Atom.resname a)
  /\ String.length (Atom.atom_name a) <= 5 /\ stripped (Atom.atom_name a)
  /\ String.length (str_of_int (Atom.atomid a)) <= 5
  /\ String.length (format_3f (Atom.x a)) <= 8
  /\ String.length (format_3f (Atom.y a)) <= 8
  /\ String.length (format_3f (Atom.z a)) <= 8.

(** Where an atom is. *)
Definition position (a : atom) : float * float * float :=
  (Atom.x a, Atom.y a, Atom.z a).

(** The value of a finite float in units of [2^-1074], the least positive
    number of binary64; and its sign. *)
Definition scaled (f : float) : option Z :=
  match f with
  | S754_zero _ => Some 0%Z
  | S754_finite s m e => Some ((if s then -1 else 1) * (Zpos m * 2 ^ (e + 1074)))%Z
  | _ => None
  end.

Definition sign_bit (f : float) : option bool :=
  match f with
  | S754_zero s | S754_infinity s | S754_finite s _ _ => Some s
  | S754_nan => None
  end.

(** The finite numbers of binary64. *)
Definition binary64 (f : float) : Prop :=
  match f with
  | S754_zero _ => True
  | S754_finite _ m e => (Zpos m < 2 ^ 53)%Z /\ (- 1074 <= e <= 971)%Z
  | _ => False
  end.

(** [f] is a finite number of binary64 with the sign of the decimal [d],
    and no finite number of binary64 is closer to [d]: the distances are
    compared in units of [2^-1074 / 1000]. *)
Definition nearest_binary64 (d : decimal3) (f : float) : Prop :=
  binary64 f /\ sign_bit f = Some (negative d)
  /\ exists u, scaled f = Some u
       /\ forall f' u', binary64 f' -> scaled f' = Some u' ->
            (Z.abs (1000 * u - (if negative d then -1 else 1) * thousandth d * 2 ^ 1074)
             <= Z.abs (1000 * u' - (if negative d then -1 else 1) * thousandth d * 2 ^ 1074))%Z.

(** ** A small system for the examples: one water molecule *)

Definition origin : float := S754_zero false.

Definition sol (name : string) (id : Z) : atom :=
  Atom.make 1 "SOL" name id origin origin origin.

Definition water : list atom := [sol "OW" 1; sol "HW1" 2; sol "HW2" 3].

(** The file of that molecule. *)
Definition water_gro : list string :=
  [ ("water" ++ nl)%string;
    ("3" ++ nl)%string;
    ("    1SOL     OW    1   0.000   0.000   0.000" ++ nl)%string;
    ("    1SOL    HW1    2   0.000   0.000   0.000" ++ nl)%string;
    ("    1SOL    HW2    3   0.000   0.000   0.000" ++ nl)%string;
    ("   1.86206   1.86206   1.86206" ++ nl)%string ].

Definition one_ion : args :=
  {| natoms := 1; oresname := "SOL"; nresname := "ION"; natname := "NA" |}.


(** [atom] is the ion that the end-to-end scenario asks for. *)
Definition is_ion_na (a : atom) : bool :=
  String.eqb (Atom.resname a) "ION" && String.eqb (Atom.atom_name a) "NA".

(* ================================================================== *)
(** * Properties                                                      *)
(* ================================================================== *)

Local Open Scope list_scope.

(** ** Reorder *)

Section Reorder.

Variable insertions : list nat.

Let keep (i : nat) : bool := negb (contains insertions i).

Lemma contains_In (i : nat) : contains insertions i = true <-> In i insertions.
Proof.
  unfold contains. rewrite existsb_exists. split.
  - intros [j [Hj Heq]]. apply Nat.eqb_eq in Heq. now subst.
  - intros Hi. exists i. split; [assumption | apply Nat.eqb_refl].
Qed.

Lemma keep_true (i : nat) : keep i = true <-> ~ In i insertions.
Proof.
  unfold keep. rewrite negb_true_iff, <- contains_In.
  destruct (contains insertions i); split; congruence.
Qed.

(** A loop that yields the items that pass a test is a filter. *)
Lemma yield_if_filter (p : nat -> bool) (l : list nat) :
  flat_map (fun i => if p i then [i] else []) l = filter p l.
Proof.
  induction l as [|i l IH]; simpl; [reflexivity|].
  rewrite IH. now destruct (p i).
Qed.

Lemma yield_all (l : list nat) : flat_map (fun i => [i]) l = l.
Proof. induction l as [|i l IH]; simpl; congruence. Qed.

Lemma reorder_filter (length index : nat) :
  reorder length insertions index
  = filter keep (xrange 0 index) ++ insertions ++ filter keep (xrange index length).
Proof. unfold reorder. now rewrite !yield_if_filter, yield_all. Qed.

Lemma In_xrange (lo hi i : nat) : In i (xrange lo hi) <-> lo <= i < hi.
Proof. unfold xrange. rewrite in_seq. lia. Qed.

Lemma xrange_sorted (lo hi : nat) : StronglySorted lt (xrange lo hi).
Proof.
  unfold xrange. generalize (hi - lo) as k. intros k. revert lo.
  induction k as [|k IH]; intros lo; simpl; constructor.
  - apply IH.
  - apply Forall_forall. intros j Hj. apply in_seq in Hj. lia.
Qed.

Lemma filter_sorted (p : nat -> bool) (l : list nat) :
  StronglySorted lt l -> StronglySorted lt (filter p l).
Proof.
  induction 1 as [|i l Hs IH Hall]; simpl; [constructor|].
  destruct (p i); [|assumption].
  constructor; [assumption|].
  rewrite Forall_forall in *. intros j Hj.
  apply filter_In in Hj. now apply Hall.
Qed.

Lemma sorted_NoDup (l : list nat) : StronglySorted lt l -> NoDup l.
Proof.
  induction 1 as [|i l Hs IH Hall]; constructor; [|assumption].
  intros Hin. rewrite Forall_forall in Hall. specialize (Hall i Hin). lia.
Qed.

Lemma In_kept (lo hi i : nat) :
  In i (filter keep (xrange lo hi)) <-> lo <= i < hi /\ ~ In i insertions.
Proof. now rewrite filter_In, In_xrange, keep_true. Qed.

End Reorder.

(** Nothing is yielded twice when nothing is inserted twice. *)
Lemma reorder_NoDup (n : nat) (moved : list nat) (anchor : nat) :
  NoDup moved -> NoDup (reorder n moved anchor).
Proof.
  intros Hnd. rewrite reorder_filter. apply NoDup_app.
  - apply sorted_NoDup, filter_sorted, xrange_sorted.
  - apply NoDup_app.
    + assumption.
    + apply sorted_NoDup, filter_sorted, xrange_sorted.
    + intros i Hi Hi'. apply In_kept in Hi'. tauto.
  - intros i Hi Hi'. apply In_kept in Hi. apply in_app_or in Hi'.
    destruct Hi' as [Hi'|Hi']; [tauto|]. apply In_kept in Hi'. lia.
Qed.

(** What is yielded: every index below [n], when the moved ones are. *)
Lemma reorder_In (n : nat) (moved : list nat) (anchor : nat) :
  Forall (fun i => i < n) moved -> anchor <= n ->
  forall i, In i (reorder n moved anchor) <-> i < n.
Proof.
  intros Hlt Hanchor i. rewrite Forall_forall in Hlt.
  rewrite reorder_filter, !in_app_iff, !In_kept. split.
  - intros [H|[H|H]]; try lia. now apply Hlt.
  - intros Hi. destruct (in_dec Nat.eq_dec i moved) as [Hm|Hm]; [tauto|].
    destruct (Nat.lt_ge_cases i anchor); [left | right; right]; split; trivial; lia.
Qed.

(** C1. For distinct [moved] indices below [n] and an anchor at most [n],
    [reorder n moved anchor] is: the indices below the anchor that are not
    moved, ascending; then [moved] as given; then the indices from the
    anchor on that are not moved, ascending.  It is a permutation of
    [0..n-1], and the identity when nothing is moved. *)
Theorem reorder_spec (n : nat) (moved : list nat) (anchor : nat) :
  NoDup moved ->
  Forall (fun i => i < n) moved ->
  anchor <= n ->
  (exists below above : list nat,
      reorder n moved anchor = below ++ moved ++ above
      /\ StronglySorted lt below
      /\ (forall i, In i below <-> i < anchor /\ ~ In i moved)
      /\ StronglySorted lt above
      /\ (forall i, In i above <-> anchor <= i < n /\ ~ In i moved))
  /\ Permutation (reorder n moved anchor) (seq 0 n)
  /\ NoDup (reorder n moved anchor)
  /\ (moved = [] -> reorder n moved anchor = seq 0 n).
Proof.
  intros Hnd Hlt Hanchor.
  rewrite Forall_forall in Hlt.
  pose proof (reorder_filter moved n anchor) as Heq.
  set (keep := fun i => negb (contains moved i)) in *.
  assert (Hbelow : forall i, In i (filter keep (xrange 0 anchor)) <-> i < anchor /\ ~ In i moved).
  { intros i. unfold keep. rewrite In_kept. intuition lia. }
  assert (Habove : forall i, In i (filter keep (xrange anchor n)) <-> anchor <= i < n /\ ~ In i moved).
  { intros i. unfold keep. now rewrite In_kept. }
  assert (Hnodup : NoDup (reorder n moved anchor)) by (now apply reorder_NoDup).
  split; [|split; [|split]].
  - exists (filter keep (xrange 0 anchor)), (filter keep (xrange anchor n)).
    refine (conj Heq (conj _ (conj Hbelow (conj _ Habove))));
      apply filter_sorted, xrange_sorted.
  - apply NoDup_Permutation; [assumption | apply seq_NoDup |].
    intros i. rewrite in_seq, reorder_In by (rewrite ?Forall_forall; assumption). lia.
  - assumption.
  - intros ->. rewrite Heq.
    assert (Hall : forall l, filter keep l = l).
    { intros l. induction l as [|i l IH]; simpl; [reflexivity|].
      now rewrite IH. }
    rewrite !Hall. simpl. unfold xrange.
    replace n with (anchor + (n - anchor)) at 2 by lia.
    rewrite Nat.sub_0_r. symmetry. apply seq_app.
Qed.

Lemma reorder_spec_witness :
  (exists below above : list nat,
      reorder 6 [4; 2] 3 = below ++ [4; 2] ++ above
      /\ StronglySorted lt below
      /\ (forall i, In i below <-> i < 3 /\ ~ In i [4; 2])
      /\ StronglySorted lt above
      /\ (forall i, In i above <-> 3 <= i < 6 /\ ~ In i [4; 2]))
  /\ Permutation (reorder 6 [4; 2] 3) (seq 0 6)
  /\ NoDup (reorder 6 [4; 2] 3)
  /\ ([4; 2] = [] -> reorder 6 [4; 2] 3 = seq 0 6).
Proof.
  apply (@reorder_spec 6 [4; 2] 3).
  - repeat constructor; simpl; intuition lia.
  - repeat constructor.
  - lia.
Defined.

(** ** Renumber *)

Section Renumber.

Local Open Scope Z_scope.

Lemma track_snd (st : Z * Z) (r : Z) : snd (track st r) = r.
Proof.
  unfold track. destruct (Z.eqb_spec r (snd st)) as [->|]; reflexivity.
Qed.

Lemma track_fst (st : Z * Z) (r : Z) :
  fst (track st r) = if r =? snd st then fst st else fst st + 1.
Proof. unfold track. now destruct (r =? snd st). Qed.

Lemma walk_from_snoc (st : Z * Z) (rs : list Z) (r : Z) :
  walk_from st (rs ++ [r]) = track (walk_from st rs) r.
Proof. unfold walk_from. now rewrite fold_left_app. Qed.

Lemma firstn_S_snoc {A : Type} (l : list A) (k : nat) (a : A) :
  nth_error l k = Some a -> firstn (S k) l = firstn k l ++ [a].
Proof.
  revert k. induction l as [|b l IH]; intros [|k] H; simpl in *; try discriminate.
  - now injection H as ->.
  - f_equal. now apply IH.
Qed.

Lemma renumber_loop_length (atoms : list atom) :
  forall resid prev_resid atomid,
    List.length (renumber_loop resid prev_resid atomid atoms) = List.length atoms.
Proof.
  induction atoms as [|a atoms IH]; intros resid prev_resid atomid; simpl; [reflexivity|].
  destruct (negb (Atom.resid a =? prev_resid)); simpl; now rewrite IH.
Qed.

(** The atom yielded at position [k] carries the counter reached after
    the atoms up to [k], and the position counted from [atomid]. *)
Lemma renumber_loop_nth (atoms : list atom) :
  forall resid prev_resid atomid k a,
    nth_error atoms k = Some a ->
    nth_error (renumber_loop resid prev_resid atomid atoms) k
    = Some (renumbered a
              (fst (walk_from (resid, prev_resid)
                      (firstn (S k) (map Atom.resid atoms))))
              (atomid + Z.of_nat k)).
Proof.
  induction atoms as [|b atoms IH]; intros resid prev_resid atomid k a Hk.
  - destruct k; discriminate.
  - destruct k as [|k].
    + injection Hk as ->. cbn [renumber_loop map firstn walk_from fold_left].
      unfold track at 1. cbn [fst snd].
      destruct (Z.eqb_spec (Atom.resid a) prev_resid) as [E|E]; cbn [negb nth_error];
        now rewrite Z.add_0_r.
    + cbn [nth_error] in Hk.
      cbn [renumber_loop map].
      change (firstn (S (S k)) (Atom.resid b :: map Atom.resid atoms))
        with (Atom.resid b :: firstn (S k) (map Atom.resid atoms)).
      cbn [walk_from fold_left]. unfold track at 2. cbn [fst snd].
      destruct (Z.eqb_spec (Atom.resid b) prev_resid) as [E|E]; cbn [negb nth_error];
        rewrite (IH _ _ _ _ _ Hk); do 2 f_equal; lia.
Qed.

Lemma walk_zeros (rs : list Z) :
  Forall (fun r => r = 0) rs -> walk rs = (0, 0).
Proof.
  unfold walk, walk_from. induction 1 as [|r rs -> _ IH]; simpl; [reflexivity|].
  exact IH.
Qed.

(** The counter modulo 100000 changes exactly when the counter does. *)
Lemma mod_succ (c : Z) :
  (c + 1) mod 100000 = c mod 100000 + 1
  \/ (c mod 100000 = 99999 /\ (c + 1) mod 100000 = 0).
Proof.
  pose proof (Z.mod_pos_bound c 100000 eq_refl) as Hc.
  pose proof (Z.mod_pos_bound (c + 1) 100000 eq_refl) as Hc1.
  pose proof (Z.div_mod c 100000 ltac:(lia)) as Ec.
  pose proof (Z.div_mod (c + 1) 100000 ltac:(lia)) as Ec1.
  lia.
Qed.

End Renumber.

(** C2. [renumber] yields as many atoms as it is given.  The atom at
    traversal position [k] keeps its names and coordinates, gets as
    [resid] the residue counter reached after the atoms up to it, modulo
    100000, and as [atomid] its 1-based position modulo 100000.  Between
    two consecutive atoms the new [resid] stays, or grows by one, or wraps
    from 99999 to 0; and it changes exactly when the source [resid] does. *)
Theorem renumber_spec (atoms : list atom) :
  let out := renumber atoms in
  let rs := map Atom.resid atoms in
  List.length out = List.length atoms
  /\ (forall k a, nth_error atoms k = Some a ->
        exists b, nth_error out k = Some b
          /\ Atom.resid b = (fst (walk (firstn (S k) rs)) mod 100000)%Z
          /\ Atom.atomid b = (Z.of_nat (S k) mod 100000)%Z
          /\ Atom.resname b = Atom.resname a
          /\ Atom.atom_name b = Atom.atom_name a
          /\ Atom.x b = Atom.x a /\ Atom.y b = Atom.y a /\ Atom.z b = Atom.z a)
  /\ (forall k a a' b b',
        nth_error atoms k = Some a -> nth_error atoms (S k) = Some a' ->
        nth_error out k = Some b -> nth_error out (S k) = Some b' ->
        (Atom.resid b' = Atom.resid b
         \/ Atom.resid b' = (Atom.resid b + 1)%Z
         \/ (Atom.resid b = 99999%Z /\ Atom.resid b' = 0%Z))
        /\ (Atom.resid b <> Atom.resid b' <-> Atom.resid a <> Atom.resid a')).
Proof.
  intros out rs. subst out rs. unfold renumber, walk.
  split; [apply renumber_loop_length|]. split.
  - intros k a Hk. rewrite (@renumber_loop_nth atoms 0%Z 0%Z 1%Z k a Hk).
    eexists. split; [reflexivity|].
    cbn [renumbered Atom.resid Atom.atomid Atom.resname Atom.atom_name
         Atom.x Atom.y Atom.z].
    repeat split. f_equal. lia.
  - intros k a a' b b' Hk Hk' Hb Hb'.
    assert (Hk1 : nth_error (map Atom.resid atoms) k = Some (Atom.resid a))
      by now apply map_nth_error.
    assert (Hk2 : nth_error (map Atom.resid atoms) (S k) = Some (Atom.resid a'))
      by now apply map_nth_error.
    rewrite (@renumber_loop_nth atoms 0%Z 0%Z 1%Z k a Hk) in Hb.
    rewrite (@renumber_loop_nth atoms 0%Z 0%Z 1%Z (S k) a' Hk') in Hb'.
    rewrite (@firstn_S_snoc _ _ _ _ Hk2), walk_from_snoc in Hb'.
    rewrite (@firstn_S_snoc _ _ _ _ Hk1), walk_from_snoc in Hb, Hb'.
    assert (Eb : (Atom.resid b
                 = fst (track (walk_from (0, 0) (firstn k (map Atom.resid atoms)))
                          (Atom.resid a)) mod 100000)%Z)
      by (replace b with (renumbered a
             (fst (track (walk_from (0%Z, 0%Z) (firstn k (map Atom.resid atoms)))
                         (Atom.resid a))) (1 + Z.of_nat k)%Z) by congruence;
          reflexivity).
    assert (Eb' : (Atom.resid b'
                 = fst (track (track (walk_from (0, 0) (firstn k (map Atom.resid atoms)))
                          (Atom.resid a)) (Atom.resid a')) mod 100000)%Z)
      by (replace b' with (renumbered a'
             (fst (track (track (walk_from (0%Z, 0%Z) (firstn k (map Atom.resid atoms)))
                         (Atom.resid a)) (Atom.resid a'))) (1 + Z.of_nat (S k))%Z)
            by congruence;
          reflexivity).
    rewrite Eb, Eb'. clear Hb Hb' Eb Eb'.
    set (st := walk_from (0%Z, 0%Z) (firstn k (map Atom.resid atoms))).
    rewrite (track_fst (track st (Atom.resid a)) (Atom.resid a')), track_snd.
    set (c := fst (track st (Atom.resid a))).
    pose proof (mod_succ c) as Hmod.
    pose proof (Z.mod_pos_bound c 100000 eq_refl) as Hc.
    destruct (Z.eqb_spec (Atom.resid a') (Atom.resid a)) as [E|E]; split; lia.
Qed.

(** C10. When the first atom has source resid 0, the counter is not
    incremented for it, nor for the atoms of resid 0 that follow it: the
    whole leading run gets resid 0, so the numbering starts at 0. *)
Theorem renumber_leading_zero (a : atom) (run rest : list atom) :
  Atom.resid a = 0%Z ->
  Forall (fun b => Atom.resid b = 0%Z) run ->
  fst (walk (map Atom.resid (a :: run))) = 0%Z
  /\ map Atom.resid (firstn (S (List.length run)) (renumber (a :: run ++ rest)))
     = repeat 0%Z (S (List.length run)).
Proof.
  intros Ha Hrun.
  assert (Hzeros : Forall (fun r => r = 0%Z) (map Atom.resid (a :: run))).
  { cbn [map]. constructor; [assumption|]. apply Forall_map. exact Hrun. }
  split; [now rewrite (walk_zeros Hzeros)|].
  unfold renumber. change (a :: run ++ rest) with ((a :: run) ++ rest).
  change (S (List.length run)) with (List.length (a :: run)).
  clear Ha Hrun. revert Hzeros.
  generalize (a :: run) as zeros. generalize 1%Z as atomid.
  intros atomid zeros. revert atomid.
  induction zeros as [|b zeros IH]; intros atomid Hz; [reflexivity|].
  inversion Hz as [|r rs Hb Hz']; subst.
  cbn [app renumber_loop List.length firstn map repeat].
  rewrite Hb. cbn [Z.eqb negb firstn map renumbered Atom.resid].
  f_equal. now apply IH.
Qed.

Lemma renumber_leading_zero_witness :
  fst (walk (map Atom.resid
               [Atom.make 0 "SOL" "OW" 7 (S754_zero false) (S754_zero false) (S754_zero false);
                Atom.make 0 "SOL" "HW1" 8 (S754_zero false) (S754_zero false) (S754_zero false)]))
  = 0%Z
  /\ map Atom.resid
       (firstn 2
          (renumber
             (Atom.make 0 "SOL" "OW" 7 (S754_zero false) (S754_zero false) (S754_zero false)
              :: [Atom.make 0 "SOL" "HW1" 8 (S754_zero false) (S754_zero false) (S754_zero false)]
              ++ [Atom.make 5 "ION" "NA" 9 (S754_zero false) (S754_zero false) (S754_zero false)])))
     = repeat 0%Z 2.
Proof.
  apply (@renumber_leading_zero
           (Atom.make 0 "SOL" "OW" 7 (S754_zero false) (S754_zero false) (S754_zero false))
           [Atom.make 0 "SOL" "HW1" 8 (S754_zero false) (S754_zero false) (S754_zero false)]
           [Atom.make 5 "ION" "NA" 9 (S754_zero false) (S754_zero false) (S754_zero false)]).
  - reflexivity.
  - repeat constructor.
Defined.

(** ** The mutator *)

Section Alter.

Variables resname atom_name : string.

Lemma setitem_length {A : Type} (l : list A) (i : nat) (a : A) :
  List.length (setitem l i a) = List.length l.
Proof.
  revert i. induction l as [|b l IH]; intros [|i]; simpl; try reflexivity.
  now rewrite IH.
Qed.

Lemma setitem_same {A : Type} (l : list A) (i : nat) (a b : A) :
  nth_error l i = Some b -> nth_error (setitem l i a) i = Some a.
Proof.
  revert i. induction l as [|c l IH]; intros [|i] H; simpl in *; try discriminate.
  - reflexivity.
  - now apply IH.
Qed.

Lemma setitem_other {A : Type} (l : list A) (i j : nat) (a : A) :
  i <> j -> nth_error (setitem l i a) j = nth_error l j.
Proof.
  revert i j. induction l as [|c l IH]; intros [|i] [|j] H; simpl; try reflexivity.
  - contradiction.
  - apply IH. congruence.
Qed.

Lemma alter_atoms_inv (indices : list nat) :
  forall atoms,
    let r := alter_atoms atoms indices resname atom_name in
    List.length (fst r) = List.length atoms
    /\ (forall j b, nth_error atoms j = Some b ->
          exists b', nth_error (fst r) j = Some b'
            /\ same_but_names b b'
            /\ (~ In j indices -> b' = b)
            /\ (snd r = None -> In j indices ->
                Atom.resname b' = resname /\ Atom.atom_name b' = atom_name))
    /\ (snd r = None <-> Forall (fun i => i < List.length atoms) indices).
Proof.
  induction indices as [|i rest IH]; intros atoms; cbn zeta.
  - cbn [alter_atoms fst snd]. split; [reflexivity|]. split.
    + intros j b Hj. exists b. unfold same_but_names. simpl. tauto.
    + split; constructor.
  - cbn [alter_atoms]. destruct (nth_error atoms i) as [a|] eqn:Hi.
    + specialize (IH (setitem atoms i (relabel a resname atom_name))).
      cbn zeta in IH. destruct IH as (Hlen & Hframe & Herr).
      rewrite setitem_length in Hlen, Herr.
      split; [assumption|]. split.
      * intros j b Hj. destruct (Nat.eq_dec i j) as [<-|Hne].
        -- rewrite Hi in Hj. injection Hj as <-.
           destruct (Hframe i (relabel a resname atom_name)) as (b' & Hb' & Hsame & Hout & Hin).
           { eapply setitem_same; eassumption. }
           exists b'. split; [assumption|]. split; [exact Hsame|]. split.
           ++ intros Hnot. exfalso. apply Hnot. now left.
           ++ intros Hnone _. destruct (in_dec Nat.eq_dec i rest) as [Hr|Hr].
              ** now apply Hin.
              ** rewrite (Hout Hr). now split.
        -- destruct (Hframe j b) as (b' & Hb' & Hsame & Hout & Hin).
           { now rewrite setitem_other. }
           exists b'. split; [assumption|]. split; [assumption|]. split.
           ++ intros Hnot. apply Hout. intros Hr. apply Hnot. now right.
           ++ intros Hnone [Heq|Hr]; [contradiction|]. now apply Hin.
      * rewrite Herr. split.
        -- intros H. constructor; [|assumption].
           apply nth_error_Some. congruence.
        -- intros H. now inversion H.
    + cbn [fst snd]. split; [reflexivity|]. split.
      * intros j b Hj. exists b. split; [assumption|]. split.
        -- unfold same_but_names. tauto.
        -- split; [reflexivity | discriminate].
      * split; [discriminate|]. intros H. inversion H as [|? ? Hlt _]; subst.
        apply nth_error_None in Hi. lia.
Qed.

End Alter.

(** C8. [alter_atoms] keeps the length of the list and, in every atom,
    [resid], [atomid] and the coordinates; an atom whose index is not
    among [indices] is unchanged; the loop ends without exception exactly
    when every index is within the list, and then the atoms at [indices]
    carry the new [resname] and [atom_name]. *)
Theorem alter_atoms_frame (atoms : list atom) (indices : list nat)
    (resname atom_name : string) :
  let r := alter_atoms atoms indices resname atom_name in
  List.length (fst r) = List.length atoms
  /\ (forall j b, nth_error atoms j = Some b ->
        exists b', nth_error (fst r) j = Some b'
          /\ Atom.resid b' = Atom.resid b /\ Atom.atomid b' = Atom.atomid b
          /\ Atom.x b' = Atom.x b /\ Atom.y b' = Atom.y b /\ Atom.z b' = Atom.z b
          /\ (~ In j indices -> b' = b)
          /\ (snd r = None -> In j indices ->
              Atom.resname b' = resname /\ Atom.atom_name b' = atom_name))
  /\ (snd r = None <-> Forall (fun i => i < List.length atoms) indices).
Proof.
  intros r. subst r.
  destruct (alter_atoms_inv resname atom_name indices atoms) as (Hlen & Hframe & Herr).
  split; [assumption|]. split; [|assumption].
  intros j b Hj. destruct (Hframe j b Hj) as (b' & Hb' & Hsame & Hout & Hin).
  exists b'. unfold same_but_names in Hsame. tauto.
Qed.

(** ** The selector and the sampler *)

Section Select.

Variables (key : string) (v : value).

(** [select] yields indices of the list, in ascending order. *)
Lemma select_from_sorted (atoms : list atom) :
  forall i cs,
    select_from i atoms key v = Ok cs ->
    StronglySorted lt cs
    /\ Forall (fun c => i <= c < i + List.length atoms) cs.
Proof.
  induction atoms as [|a atoms IH]; intros i cs H; cbn [select_from] in H.
  - injection H as <-. split; constructor.
  - destruct (getitem a key) as [w|e]; cbn [bind] in H; [|discriminate].
    destruct (select_from (S i) atoms key v) as [more|e] eqn:Hmore;
      cbn [bind] in H; [|discriminate].
    destruct (IH _ _ Hmore) as [Hs Hr].
    assert (Hr' : Forall (fun c => i <= c < i + List.length (a :: atoms)) more).
    { eapply Forall_impl; [|exact Hr]. cbn [List.length]. intros c Hc. cbv beta in Hc. lia. }
    destruct (py_eq w v); injection H as <-.
    + split.
      * constructor; [assumption|]. eapply Forall_impl; [|exact Hr].
        intros c Hc. cbv beta in Hc. lia.
      * constructor; [cbn [List.length]; lia | assumption].
    + now split.
Qed.

(** An index is selected exactly when [atom[key] == value] holds there. *)
Lemma select_from_In (atoms : list atom) :
  forall i cs,
    select_from i atoms key v = Ok cs ->
    forall c, In c cs <->
      exists a w, i <= c /\ nth_error atoms (c - i) = Some a
                  /\ getitem a key = Ok w /\ py_eq w v = true.
Proof.
  induction atoms as [|a atoms IH]; intros i cs H c; cbn [select_from] in H.
  - injection H as <-. split; [contradiction|].
    intros (b & w & _ & Hb & _). now destruct (c - i).
  - destruct (getitem a key) as [w|e] eqn:Hw; cbn [bind] in H; [|discriminate].
    destruct (select_from (S i) atoms key v) as [more|e] eqn:Hmore;
      cbn [bind] in H; [|discriminate].
    specialize (IH _ _ Hmore c).
    assert (Hshift : (exists b u, i <= c /\ nth_error (a :: atoms) (c - i) = Some b
                                  /\ getitem b key = Ok u /\ py_eq u v = true)
                     <-> (c = i /\ py_eq w v = true) \/ In c more).
    { rewrite IH. split.
      - intros (b & u & Hle & Hb & Hu & Heq).
        destruct (Nat.eq_dec c i) as [->|Hne].
        + left. rewrite Nat.sub_diag in Hb. injection Hb as <-.
          split; [reflexivity | congruence].
        + right. exists b, u. replace (c - i) with (S (c - S i)) in Hb by lia.
          repeat split; trivial. lia.
      - intros [[-> Heq]|(b & u & Hle & Hb & Hu & Heq)].
        + exists a, w. rewrite Nat.sub_diag. repeat split; trivial.
        + exists b, u. replace (c - i) with (S (c - S i)) by lia.
          repeat split; trivial. lia. }
    rewrite Hshift.
    destruct (py_eq w v); injection H as <-; cbn [In]; intuition congruence.
Qed.

End Select.

Section Sample.

Variable A : Type.
Variable population : list A.

Lemma In_picks (draw : list nat) (c : A) :
  In c (flat_map (pick population) draw)
  <-> exists j, In j draw /\ nth_error population j = Some c.
Proof.
  rewrite in_flat_map. split; intros (j & Hj & Hc); exists j; split; trivial.
  - unfold pick in Hc. destruct (nth_error population j) as [d|]; [|contradiction].
    destruct Hc as [->|[]]. reflexivity.
  - unfold pick. rewrite Hc. now left.
Qed.

Lemma picks_length (draw : list nat) :
  Forall (fun j => j < List.length population) draw ->
  List.length (flat_map (pick population) draw) = List.length draw.
Proof.
  induction 1 as [|j draw Hj _ IH]; [reflexivity|].
  cbn [flat_map]. rewrite length_app, IH. unfold pick.
  destruct (nth_error population j) eqn:E; [reflexivity|].
  apply nth_error_None in E. lia.
Qed.

Lemma picks_NoDup (draw : list nat) :
  NoDup population -> NoDup draw -> NoDup (flat_map (pick population) draw).
Proof.
  intros Hpop. induction 1 as [|j draw Hj Hnd IH]; [constructor|].
  cbn [flat_map]. unfold pick at 1.
  destruct (nth_error population j) as [c|] eqn:E; [|exact IH].
  cbn [app]. constructor; [|exact IH].
  rewrite In_picks. intros (j' & Hj' & E').
  assert (j = j'); [|congruence].
  apply (proj1 (NoDup_nth_error population) Hpop).
  - apply nth_error_Some. congruence.
  - congruence.
Qed.

(** Every draw of as many positions as the population has covers it. *)
Lemma full_draw_covers (draw : list nat) :
  valid_draw (List.length population) (Z.of_nat (List.length population)) draw ->
  forall j, j < List.length population -> In j draw.
Proof.
  intros (Hlen & Hnd & Hlt) j Hj.
  apply Nat2Z.inj in Hlen.
  assert (Hincl : incl draw (seq 0 (List.length population))).
  { intros i Hi. apply in_seq. rewrite Forall_forall in Hlt. specialize (Hlt i Hi). lia. }
  apply (NoDup_length_incl Hnd) in Hincl.
  - apply Hincl. apply in_seq. lia.
  - rewrite length_seq. lia.
Qed.

Lemma first_positions_valid (k : Z) :
  (0 <= k <= Z.of_nat (List.length population))%Z ->
  valid_draw (List.length population) k (seq 0 (Z.to_nat k)).
Proof.
  intros Hk. repeat split.
  - rewrite length_seq. lia.
  - apply seq_NoDup.
  - apply Forall_forall. intros j Hj. apply in_seq in Hj. lia.
Qed.

End Sample.

Lemma valid_draw_bound (n : nat) (k : Z) (draw : list nat) :
  valid_draw n k draw -> (0 <= k <= Z.of_nat n)%Z.
Proof.
  intros (Hlen & Hnd & Hlt).
  assert (Hincl : incl draw (seq 0 n)).
  { intros i Hi. apply in_seq. rewrite Forall_forall in Hlt. specialize (Hlt i Hi). lia. }
  apply (NoDup_incl_length Hnd) in Hincl. rewrite length_seq in Hincl. lia.
Qed.

Lemma sample_ok {A : Type} (population : list A) (k : Z) (draw : list nat) :
  (0 <= k <= Z.of_nat (List.length population))%Z ->
  sample population k draw = Ok (flat_map (pick population) draw).
Proof.
  intros Hk. unfold sample.
  destruct (Z.leb_spec 0 k); [|lia].
  destruct (Z.leb_spec k (Z.of_nat (List.length population))); [|lia].
  reflexivity.
Qed.

Lemma sample_too_many {A : Type} (population : list A) (k : Z) (draw : list nat) :
  (Z.of_nat (List.length population) < k)%Z ->
  sample population k draw = Raise (ValueError "sample larger than population").
Proof.
  intros Hk. unfold sample.
  destruct (Z.leb_spec k (Z.of_nat (List.length population))); [lia|].
  now rewrite andb_false_r.
Qed.

(** ** Objects and values

    [renumber] assigns to the objects it is given.  On objects that are
    all different this is [renumber] on their values, and [replace_atom]
    hands over each object of [atoms] once. *)

Section Objects.

Lemma iter_order_setitem (refs : list nat) :
  forall store i a,
    ~ In i refs -> iter_order (setitem store i a) refs = iter_order store refs.
Proof.
  induction refs as [|j refs IH]; intros store i a Hi; [reflexivity|].
  cbn [iter_order]. rewrite setitem_other by (intros ->; apply Hi; now left).
  rewrite IH by (intros H; apply Hi; now right). reflexivity.
Qed.

Lemma renumber_in_place_other (refs : list nat) :
  forall resid prev_resid atomid store i,
    ~ In i refs ->
    nth_error (renumber_in_place resid prev_resid atomid store refs) i
    = nth_error store i.
Proof.
  induction refs as [|j refs IH]; intros resid prev_resid atomid store i Hi; [reflexivity|].
  cbn [renumber_in_place]. destruct (nth_error store j) as [a|]; [|reflexivity].
  destruct (negb (Atom.resid a =? prev_resid)%Z);
    (rewrite IH by (intros H; apply Hi; now right));
    apply setitem_other; intros ->; apply Hi; now left.
Qed.

(** Reading the objects after the loop, in the order they were yielded,
    gives what [renumber_loop] computes from their values before it. *)
Lemma renumber_in_place_distinct (refs : list nat) :
  NoDup refs ->
  forall resid prev_resid atomid store values,
    iter_order store refs = Ok values ->
    iter_order (renumber_in_place resid prev_resid atomid store refs) refs
    = Ok (renumber_loop resid prev_resid atomid values).
Proof.
  induction 1 as [|i refs Hi Hnd IH]; intros resid prev_resid atomid store values Hv.
  - injection Hv as <-. reflexivity.
  - cbn [iter_order] in Hv. destruct (nth_error store i) as [a|] eqn:Ha; [|discriminate].
    destruct (iter_order store refs) as [more|] eqn:Hmore; cbn [bind] in Hv; [|discriminate].
    injection Hv as <-.
    cbn [renumber_in_place renumber_loop]. rewrite Ha.
    destruct (negb (Atom.resid a =? prev_resid)%Z); cbn [iter_order];
      rewrite renumber_in_place_other by assumption;
      rewrite (setitem_same _ _ _ Ha);
      (erewrite IH by (rewrite iter_order_setitem by assumption; exact Hmore));
      reflexivity.
Qed.

(** An object met twice is read, the second time, with the resid that
    the first visit wrote: one atom of resid 5, yielded twice, ends with
    resid 2 and not 1. *)
Lemma renumber_in_place_twice :
  map Atom.resid
    (renumber_in_place 0 0 1 [Atom.make 5 "SOL" "OW" 1 origin origin origin] [0; 0])
  = [2%Z].
Proof. reflexivity. Qed.

(** The order that [replace_atom] computes names no object twice. *)
Lemma replace_atom_distinct_objects (atoms : list atom) (key : string) (v : value)
    (candidates selection : list nat) (k : Z) (draw : list nat) (n index : nat) :
  select atoms key v = Ok candidates ->
  valid_draw (List.length candidates) k draw ->
  sample candidates k draw = Ok selection ->
  NoDup (reorder n selection index).
Proof.
  intros Hsel Hdraw Hsample. apply reorder_NoDup.
  rewrite (sample_ok candidates draw (valid_draw_bound Hdraw)) in Hsample.
  injection Hsample as <-.
  destruct Hdraw as (_ & Hnd & _).
  apply picks_NoDup; [|assumption].
  apply sorted_NoDup. eapply select_from_sorted. exact Hsel.
Qed.

End Objects.

(** ** The transformation *)

Lemma picks_nil {A : Type} (draw : list nat) : flat_map (@pick A []) draw = [].
Proof.
  induction draw as [|j draw IH]; [reflexivity|].
  cbn [flat_map]. rewrite IH. unfold pick. now destruct j.
Qed.

Lemma select_from_none (key : string) (v : value) (atoms : list atom) :
  (forall a, In a atoms -> exists w, getitem a key = Ok w /\ py_eq w v = false) ->
  forall i, select_from i atoms key v = Ok [].
Proof.
  induction atoms as [|a atoms IH]; intros H i; [reflexivity|].
  cbn [select_from]. destruct (H a (or_introl eq_refl)) as (w & -> & Hw).
  cbn [bind]. rewrite IH by (intros b Hb; apply H; now right).
  cbn [bind]. now rewrite Hw.
Qed.

Lemma iter_order_ok (atoms : list atom) (refs : list nat) :
  Forall (fun i => i < List.length atoms) refs ->
  exists values, iter_order atoms refs = Ok values
                 /\ List.length values = List.length refs.
Proof.
  induction 1 as [|i refs Hi _ (values & IH & Hlen)]; [now exists []|].
  cbn [iter_order]. destruct (nth_error atoms i) as [a|] eqn:E.
  - rewrite IH. cbn [bind]. exists (a :: values). cbn [List.length]. now rewrite Hlen.
  - apply nth_error_None in E. lia.
Qed.

Lemma fold_min_In (rest : list nat) :
  forall c, In (fold_left Nat.min rest c) (c :: rest).
Proof.
  induction rest as [|d rest IH]; intros c; cbn [fold_left]; [now left|].
  destruct (IH (Nat.min c d)) as [E|H]; [|right; now right].
  rewrite <- E. destruct (Nat.min_spec c d) as [[_ ->]|[_ ->]].
  - now left.
  - right. now left.
Qed.

(** With at least one candidate and a count the candidates allow,
    [replace_atom] raises nothing and yields every atom once. *)
Lemma replace_atom_ok (atoms : list atom) (key : string) (v : value)
    (candidates : list nat) (resname atom_name : string) (k : Z) (draw : list nat) :
  select atoms key v = Ok candidates ->
  candidates <> [] ->
  valid_draw (List.length candidates) k draw ->
  exists out, replace_atom atoms key v resname atom_name k draw = Ok out
              /\ List.length out = List.length atoms.
Proof.
  intros Hsel Hne Hdraw.
  destruct (select_from_sorted _ _ _ _ Hsel) as [Hsorted Hrange].
  rewrite Forall_forall in Hrange.
  unfold replace_atom. rewrite Hsel. cbn [bind].
  rewrite (sample_ok candidates draw (valid_draw_bound Hdraw)). cbn [bind].
  set (selection := flat_map (pick candidates) draw).
  assert (Hin : forall c, In c selection -> c < List.length atoms).
  { intros c Hc. apply In_picks in Hc. destruct Hc as (j & _ & Hj).
    apply nth_error_In in Hj. specialize (Hrange c Hj). lia. }
  destruct (alter_atoms_inv resname atom_name selection atoms) as (Hlen & _ & Herr).
  destruct (alter_atoms atoms selection resname atom_name) as [altered e].
  cbn [fst snd] in Hlen, Herr.
  assert (He : e = None) by (apply Herr, Forall_forall; exact Hin).
  subst e.
  destruct candidates as [|c rest]; [contradiction|]. cbn [py_min bind].
  set (index := fold_left Nat.min rest c).
  assert (Hindex : index <= List.length altered).
  { pose proof (Hrange index (fold_min_In rest c)). lia. }
  assert (Hmoved : Forall (fun i => i < List.length altered) selection).
  { apply Forall_forall. intros i Hi. rewrite Hlen. now apply Hin. }
  assert (Hperm : Permutation (reorder (List.length altered) selection index)
                              (seq 0 (List.length altered))).
  { apply NoDup_Permutation; [|apply seq_NoDup|].
    - eapply replace_atom_distinct_objects; [exact Hsel | exact Hdraw |].
      now apply sample_ok, (valid_draw_bound Hdraw).
    - intros i. rewrite in_seq, reorder_In by assumption. lia. }
  destruct (@iter_order_ok altered (reorder (List.length altered) selection index))
    as (ordered & Hord & Hlo).
  { apply Forall_forall. intros i Hi. now apply (reorder_In Hmoved Hindex). }
  rewrite Hord. cbn [bind]. eexists. split; [reflexivity|].
  unfold renumber. rewrite renumber_loop_length, Hlo.
  rewrite (Permutation_length Hperm), length_seq. exact Hlen.
Qed.

(** More substitutions than candidates abort the run. *)
Lemma cli_main_too_many (a : args) (stdin : list string) (draw : list nat)
    (title box : string) (atoms : list atom) (candidates : list nat) :
  read_gro stdin = Ok (title, atoms, box) ->
  select atoms "resname" (VStr (oresname a)) = Ok candidates ->
  (Z.of_nat (List.length candidates) < natoms a)%Z ->
  cli_main a stdin draw = Raise (ValueError "sample larger than population").
Proof.
  intros Hread Hsel Hk. unfold cli_main, replace_atom.
  rewrite Hread. cbn [bind]. rewrite Hsel. cbn [bind].
  now rewrite sample_too_many.
Qed.

(** C9. When [atom[key] == value] holds for no atom, [replace_atom]
    raises: with a count of 0 the sample is empty and the exception is the
    [ValueError] of [min] on the empty list of candidates; with any other
    count it is the [ValueError] of [random.sample]. *)
Theorem replace_atom_no_candidate (atoms : list atom) (key : string) (v : value)
    (resname atom_name : string) (nsub : Z) (draw : list nat) :
  (forall a, In a atoms -> exists w, getitem a key = Ok w /\ py_eq w v = false) ->
  select atoms key v = Ok []
  /\ (exists e, replace_atom atoms key v resname atom_name nsub draw = Raise e)
  /\ (nsub = 0%Z ->
      sample (@nil nat) nsub draw = Ok []
      /\ replace_atom atoms key v resname atom_name nsub draw
         = Raise (ValueError "min() arg is an empty sequence"))
  /\ (nsub <> 0%Z ->
      replace_atom atoms key v resname atom_name nsub draw
      = Raise (ValueError "sample larger than population")).
Proof.
  intros Hnone.
  assert (Hsel : select atoms key v = Ok []) by (now apply select_from_none).
  assert (Hzero : nsub = 0%Z ->
            sample (@nil nat) nsub draw = Ok []
            /\ replace_atom atoms key v resname atom_name nsub draw
               = Raise (ValueError "min() arg is an empty sequence")).
  { intros ->. unfold replace_atom. rewrite Hsel. cbn [bind].
    unfold sample. cbn [Z.leb Z.compare List.length Z.of_nat andb].
    rewrite picks_nil. split; reflexivity. }
  assert (Hother : nsub <> 0%Z ->
            replace_atom atoms key v resname atom_name nsub draw
            = Raise (ValueError "sample larger than population")).
  { intros Hn. unfold replace_atom. rewrite Hsel. cbn [bind].
    unfold sample. cbn [List.length Z.of_nat].
    destruct (Z.leb_spec 0 nsub), (Z.leb_spec nsub 0); try reflexivity. lia. }
  split; [assumption|]. split; [|split; assumption].
  destruct (Z.eq_dec nsub 0) as [E|E].
  - eexists. apply (proj2 (Hzero E)).
  - eexists. apply (Hother E).
Qed.

Lemma replace_atom_no_candidate_witness :
  replace_atom water "resname" (VStr "ION") "CL" "CL" 0 []
  = Raise (ValueError "min() arg is an empty sequence").
Proof.
  refine (proj2 (proj1 (proj2 (proj2
            (@replace_atom_no_candidate water "resname" (VStr "ION") "CL" "CL" 0 [] _)))
            eq_refl)).
  intros a Ha. exists (VStr "SOL").
  simpl in Ha. destruct Ha as [<-|[<-|[<-|[]]]]; split; reflexivity.
Defined.

Lemma valid_draw_one (n : nat) (draw : list nat) :
  valid_draw n 1 draw -> exists j, draw = [j] /\ j < n.
Proof.
  intros (Hlen & _ & Hlt).
  destruct draw as [|j [|j' draw]]; cbn [List.length] in Hlen; try lia.
  exists j. split; [reflexivity|]. now inversion Hlt.
Qed.

(** C3. Three atoms of residue name SOL, all of resid 1, with atomid 1,
    2, 3; one substitution of SOL by ION/NA.  Whatever atom the sampler
    draws, [replace_atom] yields three atoms, exactly one of which is
    ION/NA, every resid is 1, the atomids are 1, 2, 3 in the new order, and
    [cli_main] prints the title first and the box line last, as read. *)
Theorem replace_one_of_three (stdin : list string) (title box : string)
    (a0 a1 a2 : atom) (draw : list nat) :
  read_gro stdin = Ok (title, [a0; a1; a2], box) ->
  Forall (fun a => Atom.resname a = "SOL" /\ Atom.resid a = 1%Z) [a0; a1; a2] ->
  map Atom.atomid [a0; a1; a2] = [1%Z; 2%Z; 3%Z] ->
  valid_draw 3 1 draw ->
  exists out,
    replace_atom [a0; a1; a2] "resname" (VStr "SOL") "ION" "NA" 1 draw = Ok out
    /\ List.length out = 3
    /\ List.length (filter is_ion_na out) = 1
    /\ map Atom.resid out = [1%Z; 1%Z; 1%Z]
    /\ map Atom.atomid out = [1%Z; 2%Z; 3%Z]
    /\ cli_main one_ion stdin draw
       = Ok (title :: (str_of_int 3 ++ nl)%string :: map encode out ++ [box]).
Proof.
  intros Hread Hsol Hids Hdraw.
  destruct (valid_draw_one Hdraw) as (j & -> & Hj).
  destruct a0 as [r0 rn0 an0 i0 x0 y0 z0], a1 as [r1 rn1 an1 i1 x1 y1 z1],
           a2 as [r2 rn2 an2 i2 x2 y2 z2].
  inversion Hsol as [|? ? [E0 F0] Hsol1]; subst.
  inversion Hsol1 as [|? ? [E1 F1] Hsol2]; subst.
  inversion Hsol2 as [|? ? [E2 F2] _]; subst.
  cbn [Atom.resname Atom.resid] in *. subst.
  cbn [map Atom.atomid] in Hids. injection Hids as -> -> ->.
  unfold cli_main. rewrite Hread. cbn [bind one_ion natoms oresname nresname natname].
  assert (Hcases : j = 0 \/ j = 1 \/ j = 2) by lia.
  destruct Hcases as [->|[->| ->]];
    (eexists; split; [reflexivity|];
     repeat split; cbn; reflexivity).
Qed.

Lemma replace_one_of_three_witness :
  exists out,
    replace_atom water "resname" (VStr "SOL") "ION" "NA" 1 [1] = Ok out
    /\ List.length out = 3
    /\ List.length (filter is_ion_na out) = 1
    /\ map Atom.resid out = [1%Z; 1%Z; 1%Z]
    /\ map Atom.atomid out = [1%Z; 2%Z; 3%Z]
    /\ cli_main one_ion water_gro [1]
       = Ok (("water" ++ nl)%string :: (str_of_int 3 ++ nl)%string
             :: map encode out ++ [("   1.86206   1.86206   1.86206" ++ nl)%string]).
Proof.
  apply (@replace_one_of_three water_gro ("water" ++ nl)%string
           ("   1.86206   1.86206   1.86206" ++ nl)%string
           (sol "OW" 1) (sol "HW1" 2) (sol "HW2" 3) [1]).
  - vm_compute. reflexivity.
  - repeat constructor.
  - reflexivity.
  - split; [reflexivity|]. split.
    + repeat constructor. simpl. tauto.
    + repeat constructor.
Defined.

(** ** The reader *)

Section Blank.

Local Open Scope string_scope.

Lemma rstrip_empty (s : string) : rstrip s = "" <-> all_space s = true.
Proof.
  induction s as [|c s IH]; cbn [rstrip all_space]; [tauto|].
  destruct (rstrip s) as [|d r].
  - destruct (isspace c); cbn [andb].
    + tauto.
    + split; discriminate.
  - split; [discriminate|]. intros H. apply andb_true_iff in H.
    destruct H as [_ H]. apply IH in H. discriminate.
Qed.

Lemma lstrip_all_space (s : string) : all_space (lstrip s) = all_space s.
Proof.
  induction s as [|c s IH]; [reflexivity|].
  cbn [lstrip all_space]. destruct (isspace c) eqn:E; cbn [andb].
  - exact IH.
  - cbn [all_space]. now rewrite E.
Qed.

Lemma strip_empty (s : string) : strip s = "" <-> all_space s = true.
Proof. unfold strip. now rewrite rstrip_empty, lstrip_all_space. Qed.

Lemma is_empty_line_all_space (s : string) : is_empty_line s = all_space s.
Proof.
  unfold is_empty_line. destruct (all_space s) eqn:E.
  - apply strip_empty in E. now rewrite E.
  - destruct (strip s) eqn:E'; [|reflexivity].
    apply strip_empty in E'. congruence.
Qed.

Lemma substring_all_space (s : string) :
  forall n m, all_space s = true -> all_space (substring n m s) = true.
Proof.
  induction s as [|c s IH]; intros n m H.
  - now destruct n, m.
  - cbn [all_space] in H. apply andb_true_iff in H. destruct H as [Hc Hs].
    destruct n as [|n]; [destruct m as [|m]|]; cbn [substring all_space].
    + reflexivity.
    + rewrite Hc. cbn [andb]. now apply IH.
    + now apply IH.
Qed.

(** A line that decodes is not an empty line: its first column is a
    number. *)
Lemma decode_not_empty (line : string) (a : atom) :
  decode line = Some a -> is_empty_line line = false.
Proof.
  intros H. rewrite is_empty_line_all_space.
  destruct (all_space line) eqn:E; [|reflexivity]. exfalso.
  assert (Hf : field line "resid" = None).
  { unfold field. cbn [lookup GRO_FIELDS String.eqb Ascii.eqb Bool.eqb convert].
    assert (Hs : strip (slice line 0 5) = "").
    { apply strip_empty. unfold slice. now apply substring_all_space. }
    now rewrite Hs. }
  unfold decode in H. rewrite Hf in H. discriminate.
Qed.

End Blank.

Lemma stop_at_empty_line_prefix (lines rest : list string) :
  Forall (fun l => is_empty_line l = false) lines ->
  rest = [] \/ (exists blank more, rest = blank :: more /\ is_empty_line blank = true) ->
  stop_at_empty_line (lines ++ rest) = lines.
Proof.
  intros Hlines Hrest. induction Hlines as [|l lines Hl _ IH]; cbn [app stop_at_empty_line].
  - destruct Hrest as [->|(blank & more & -> & Hb)]; [reflexivity|].
    cbn [stop_at_empty_line]. now rewrite Hb.
  - now rewrite Hl, IH.
Qed.

Lemma read_atoms_decoded (atom_lines : list string) (atoms : list atom) (footer : string) :
  Forall2 (fun l a => decode l = Some a) atom_lines atoms ->
  forall acc prev_line lines,
    prev_line :: lines = atom_lines ++ [footer] ->
    read_atoms acc prev_line lines = Ok (acc ++ atoms, footer).
Proof.
  induction 1 as [|l a atom_lines atoms Hl _ IH]; intros acc prev_line lines E.
  - injection E as -> ->. cbn [read_atoms]. now rewrite app_nil_r.
  - cbn [app] in E. injection E as -> ->.
    destruct (atom_lines ++ [footer]) as [|next_line more] eqn:E'.
    + now destruct atom_lines.
    + cbn [read_atoms]. rewrite Hl. rewrite (IH _ _ _ eq_refl).
      now rewrite <- app_assoc.
Qed.

(** C4. On a title line, a line for the number of atoms, [N] lines that
    decode, and a footer that is not an empty line, followed by nothing
    or by an empty line and anything, [read_gro] returns the title as
    it is, the [N] decoded atoms whatever the second line says, and the
    footer as it is. *)
Theorem read_gro_spec (title count footer : string) (atom_lines rest : list string)
    (atoms : list atom) :
  Forall2 (fun l a => decode l = Some a) atom_lines atoms ->
  is_empty_line footer = false ->
  rest = [] \/ (exists blank more, rest = blank :: more /\ is_empty_line blank = true) ->
  read_gro (title :: count :: atom_lines ++ footer :: rest) = Ok (title, atoms, footer).
Proof.
  intros Hdec Hfooter Hrest.
  assert (Hnonempty : Forall (fun l => is_empty_line l = false) (atom_lines ++ [footer])).
  { apply Forall_app. split; [|now constructor].
    induction Hdec as [|l a ls als Hl _ IH]; constructor; [|assumption].
    eapply decode_not_empty; eassumption. }
  unfold read_gro. cbn [next bind].
  replace (atom_lines ++ footer :: rest) with ((atom_lines ++ [footer]) ++ rest)
    by (now rewrite <- app_assoc).
  destruct (atom_lines ++ [footer]) as [|prev_line lines] eqn:E.
  - now destruct atom_lines.
  - cbn [app next bind].
    inversion Hnonempty as [|? ? _ Hlines]; subst.
    rewrite (stop_at_empty_line_prefix Hlines Hrest).
    rewrite (read_atoms_decoded footer Hdec [] (eq_sym E)).
    reflexivity.
Qed.

Lemma read_gro_spec_witness :
  read_gro water_gro
  = Ok (("water" ++ nl)%string, water, ("   1.86206   1.86206   1.86206" ++ nl)%string).
Proof.
  apply (@read_gro_spec ("water" ++ nl)%string ("3" ++ nl)%string
           ("   1.86206   1.86206   1.86206" ++ nl)%string
           [ ("    1SOL     OW    1   0.000   0.000   0.000" ++ nl)%string;
             ("    1SOL    HW1    2   0.000   0.000   0.000" ++ nl)%string;
             ("    1SOL    HW2    3   0.000   0.000   0.000" ++ nl)%string ]
           [] water).
  - repeat constructor.
  - reflexivity.
  - now left.
Defined.

(** [read_atoms] raises nothing but [FormatError]. *)
Lemma read_atoms_raises (lines : list string) :
  forall acc prev_line e, read_atoms acc prev_line lines = Raise e -> e = FormatError.
Proof.
  induction lines as [|l lines IH]; intros acc prev_line e H; cbn [read_atoms] in H.
  - discriminate.
  - destruct (decode prev_line); [eauto | congruence].
Qed.

(** The two ways [read_gro] fails: [StopIteration] from [next] on an
    input of fewer than three lines, [FormatError] from the loop. *)
Lemma read_gro_raises (lines : list string) (e : exn) :
  read_gro lines = Raise e ->
  (List.length lines < 3 /\ e = StopIteration)
  \/ (3 <= List.length lines /\ e = FormatError).
Proof.
  unfold read_gro. intros H.
  destruct lines as [|title [|count [|prev_line lines]]]; cbn [next bind] in H.
  - left. split; [cbn; lia | congruence].
  - left. split; [cbn; lia | congruence].
  - left. split; [cbn; lia | congruence].
  - right. split; [cbn [List.length]; lia|].
    destruct (read_atoms [] prev_line (stop_at_empty_line lines)) as [[atoms box]|e'] eqn:E;
      cbn [bind] in H; [discriminate|].
    injection H as <-. eapply read_atoms_raises; eassumption.
Qed.

(** A line whose first column is not a number does not decode, and the
    reader raises [FormatError] when another line follows it. *)
Lemma read_gro_bad_number :
  read_gro [ ("water" ++ nl)%string; ("2" ++ nl)%string;
             ("  one" ++ "SOL     OW    1   0.000   0.000   0.000" ++ nl)%string;
             ("    1SOL    HW1    2   0.000   0.000   0.000" ++ nl)%string;
             ("   1.86206   1.86206   1.86206" ++ nl)%string ]
  = Raise FormatError.
Proof. reflexivity. Qed.

(** C5. On an input of two lines the third [next] finds the iterator
    exhausted: [read_gro] raises [StopIteration], not [FormatError]. *)
Theorem read_gro_two_lines :
  read_gro [ ("water" ++ nl)%string; ("0" ++ nl)%string ] = Raise StopIteration.
Proof. reflexivity. Qed.

(** ** The record codec *)

Section Strings.

Local Open Scope string_scope.

Lemma length_append (s t : string) :
  String.length (s ++ t) = String.length s + String.length t.
Proof. induction s as [|c s IH]; cbn [append String.length]; [reflexivity | now rewrite IH]. Qed.

Lemma append_assoc (s t u : string) : (s ++ t) ++ u = s ++ t ++ u.
Proof. induction s as [|c s IH]; cbn [append]; [reflexivity | now rewrite IH]. Qed.

Lemma append_empty_r (s : string) : s ++ "" = s.
Proof. induction s as [|c s IH]; cbn [append]; [reflexivity | now rewrite IH]. Qed.

Lemma length_spaces (n : nat) : String.length (spaces n) = n.
Proof. induction n as [|n IH]; cbn [spaces String.length]; [reflexivity | now rewrite IH]. Qed.

Lemma length_rjust (w : nat) (s : string) :
  String.length s <= w -> String.length (rjust w s) = w.
Proof. intros H. unfold rjust. rewrite length_append, length_spaces. lia. Qed.

Lemma length_ljust (w : nat) (s : string) :
  String.length s <= w -> String.length (ljust w s) = w.
Proof. intros H. unfold ljust. rewrite length_append, length_spaces. lia. Qed.

(** [(pre ++ s ++ post)[len(pre) : len(pre) + len(s)]] is [s]. *)
Lemma substring_prefix (s post : string) :
  substring 0 (String.length s) (s ++ post) = s.
Proof.
  induction s as [|c s IH]; cbn [append String.length substring].
  - now destruct post.
  - now rewrite IH.
Qed.

Lemma substring_skip (pre s : string) (m : nat) :
  substring (String.length pre) m (pre ++ s) = substring 0 m s.
Proof. induction pre as [|c pre IH]; cbn [append String.length substring]; trivial. Qed.

Lemma slice_column (pre s post : string) (b e : nat) :
  String.length pre = b -> b + String.length s = e ->
  slice (pre ++ s ++ post) b e = s.
Proof.
  intros <- <-. unfold slice.
  replace (String.length pre + String.length s - String.length pre)
    with (String.length s) by lia.
  now rewrite substring_skip, substring_prefix.
Qed.

Lemma all_space_spaces (n : nat) : all_space (spaces n) = true.
Proof. induction n as [|n IH]; cbn [spaces all_space]; trivial. Qed.

Lemma lstrip_spaces (n : nat) (s : string) : lstrip (spaces n ++ s) = lstrip s.
Proof. induction n as [|n IH]; cbn [spaces append lstrip]; trivial. Qed.

Lemma rstrip_padding (s t : string) :
  all_space t = true -> rstrip (s ++ t) = rstrip s.
Proof.
  intros Ht. induction s as [|c s IH]; cbn [append].
  - cbn [rstrip]. now apply rstrip_empty.
  - cbn [rstrip]. now rewrite IH.
Qed.

Lemma length_lstrip (s : string) : String.length (lstrip s) <= String.length s.
Proof.
  induction s as [|c s IH]; cbn [lstrip String.length]; [lia|].
  destruct (isspace c); cbn [String.length]; lia.
Qed.

Lemma length_rstrip (s : string) : String.length (rstrip s) <= String.length s.
Proof.
  induction s as [|c s IH]; cbn [rstrip String.length]; [lia|].
  destruct (rstrip s); [destruct (isspace c)|]; cbn [String.length] in *; lia.
Qed.

(** A stripped text starts with a character that is not white space. *)
Lemma stripped_lstrip (s : string) : stripped s -> lstrip s = s.
Proof.
  unfold stripped, strip. intros H.
  pose proof (length_rstrip (lstrip s)) as Hr. rewrite H in Hr.
  destruct s as [|c s]; [reflexivity|]. cbn [lstrip] in *.
  destruct (isspace c); [|reflexivity].
  pose proof (length_lstrip s). cbn [String.length] in Hr. lia.
Qed.

Lemma stripped_rstrip (s : string) : stripped s -> rstrip s = s.
Proof. intros H. pose proof H as H'. unfold stripped, strip in H'. now rewrite stripped_lstrip in H'. Qed.

Lemma lstrip_append (s t : string) :
  stripped s -> s <> "" -> lstrip (s ++ t) = s ++ t.
Proof.
  intros H Hne. apply stripped_lstrip in H.
  destruct s as [|c s]; [contradiction|]. cbn [append lstrip] in *.
  destruct (isspace c); [|reflexivity].
  pose proof (length_lstrip s) as Hl. rewrite H in Hl. cbn [String.length] in Hl. lia.
Qed.

Lemma strip_rjust (w : nat) (s : string) : stripped s -> strip (rjust w s) = s.
Proof. intros H. unfold rjust, strip. rewrite lstrip_spaces. exact H. Qed.

Lemma strip_ljust (w : nat) (s : string) : stripped s -> strip (ljust w s) = s.
Proof.
  intros H. unfold ljust, strip. destruct s as [|c s].
  - cbn [append]. apply rstrip_empty. rewrite lstrip_all_space. apply all_space_spaces.
  - rewrite lstrip_append by (trivial; discriminate).
    rewrite rstrip_padding by apply all_space_spaces.
    now apply stripped_rstrip.
Qed.

Lemma no_space_stripped (s : string) : no_space s = true -> stripped s.
Proof.
  intros H. unfold stripped, strip.
  assert (Hl : lstrip s = s).
  { destruct s as [|c s]; [reflexivity|]. cbn [no_space lstrip] in *.
    apply andb_true_iff in H. destruct H as [Hc _].
    apply negb_true_iff in Hc. now rewrite Hc. }
  rewrite Hl. clear Hl.
  induction s as [|c s IH]; [reflexivity|].
  cbn [no_space] in H. apply andb_true_iff in H. destruct H as [Hc Hs].
  apply negb_true_iff in Hc. cbn [rstrip]. rewrite (IH Hs), Hc.
  now destruct s.
Qed.

Lemma no_space_append (s t : string) :
  no_space (s ++ t) = no_space s && no_space t.
Proof.
  induction s as [|c s IH]; cbn [append no_space]; [reflexivity|].
  now rewrite IH, andb_assoc.
Qed.

Lemma is_digit_not_space (c : ascii) : is_digit c = true -> isspace c = false.
Proof.
  unfold is_digit, digit_value, isspace.
  destruct (Nat.leb_spec 48 (nat_of_ascii c)); cbn [andb]; [|discriminate].
  intros _.
  destruct (Nat.eqb_spec (nat_of_ascii c) 32); [lia|].
  destruct (Nat.leb_spec (nat_of_ascii c) 13); [lia|].
  now rewrite andb_false_r.
Qed.

Lemma all_digits_no_space (s : string) : all_digits s = true -> no_space s = true.
Proof.
  induction s as [|c s IH]; cbn [all_digits no_space]; [trivial|].
  intros H. apply andb_true_iff in H. destruct H as [Hc Hs].
  now rewrite (is_digit_not_space _ Hc), IH.
Qed.

End Strings.

Section Digits.

Local Open Scope string_scope.
Local Open Scope Z_scope.

Lemma digit_cases (d : Z) :
  0 <= d < 10 ->
  d = 0 \/ d = 1 \/ d = 2 \/ d = 3 \/ d = 4 \/ d = 5 \/ d = 6 \/ d = 7 \/ d = 8 \/ d = 9.
Proof. lia. Qed.

Lemma digit_value_char (d : Z) : 0 <= d < 10 -> digit_value (digit_char d) = Some d.
Proof.
  intros H. destruct (digit_cases H) as [E|[E|[E|[E|[E|[E|[E|[E|[E|E]]]]]]]]];
    subst d; reflexivity.
Qed.

Lemma is_digit_char (d : Z) : 0 <= d < 10 -> is_digit (digit_char d) = true.
Proof. intros H. unfold is_digit. now rewrite digit_value_char. Qed.

Lemma log2_tenth (n : Z) : 10 <= n -> Z.log2 (n / 10) < Z.log2 n.
Proof.
  intros H.
  assert (Hle : n / 10 <= Z.shiftr n 1).
  { rewrite Z.shiftr_div_pow2 by lia. change (2 ^ 1) with 2.
    apply Z.div_le_lower_bound; [lia|].
    pose proof (Z.mul_div_le n 10 ltac:(lia)). lia. }
  apply Z.log2_le_mono in Hle. rewrite Z.log2_shiftr in Hle by lia.
  assert (3 <= Z.log2 n) by (apply Z.log2_le_pow2; cbn; lia).
  lia.
Qed.

(** Reading the digits that [digits_acc] writes gives the number back. *)
Lemma digits_acc_value (fuel : nat) :
  forall n acc,
    0 <= n -> Z.log2 n < Z.of_nat fuel ->
    digits_value 0 (digits_acc fuel n acc) = digits_value n acc.
Proof.
  induction fuel as [|fuel IH]; intros n acc Hn Hfuel.
  - pose proof (Z.log2_nonneg n). lia.
  - cbn [digits_acc]. destruct (Z.ltb_spec n 10) as [Hlt|Hge].
    + rewrite Z.mod_small by lia. cbn [digits_value].
      rewrite digit_value_char by lia. f_equal.
    + rewrite IH.
      * cbn [digits_value]. rewrite digit_value_char by (apply Z.mod_pos_bound; lia).
        f_equal. pose proof (Z.div_mod n 10 ltac:(lia)). lia.
      * apply Z.div_pos; lia.
      * pose proof (log2_tenth Hge). lia.
Qed.

Lemma digits_acc_all_digits (fuel : nat) :
  forall n acc,
    all_digits acc = true -> all_digits (digits_acc fuel n acc) = true.
Proof.
  induction fuel as [|fuel IH]; intros n acc Hacc; cbn [digits_acc]; [assumption|].
  assert (Hacc' : all_digits (String (digit_char (n mod 10)) acc) = true).
  { cbn [all_digits]. rewrite is_digit_char by (apply Z.mod_pos_bound; lia). exact Hacc. }
  destruct (n <? 10); [assumption | now apply IH].
Qed.

Lemma digits_acc_length (fuel : nat) :
  forall n acc, (String.length acc <= String.length (digits_acc fuel n acc))%nat.
Proof.
  induction fuel as [|fuel IH]; intros n acc; cbn [digits_acc]; [lia|].
  destruct (n <? 10); [cbn [String.length]; lia|].
  specialize (IH (n / 10) (String (digit_char (n mod 10)) acc)).
  cbn [String.length] in IH. lia.
Qed.

(** A number of [k + 1] digits or more is written with as many digits,
    fuel permitting. *)
Lemma digits_acc_long (k : nat) :
  forall fuel n acc,
    10 ^ Z.of_nat k <= n -> (k < fuel)%nat ->
    (S k + String.length acc <= String.length (digits_acc fuel n acc))%nat.
Proof.
  induction k as [|k IH]; intros fuel n acc Hn Hfuel;
    (destruct fuel as [|fuel]; [lia|]); cbn [digits_acc].
  - destruct (n <? 10); [cbn [String.length]; lia|].
    pose proof (digits_acc_length fuel (n / 10) (String (digit_char (n mod 10)) acc)) as H.
    cbn [String.length] in H. lia.
  - rewrite Nat2Z.inj_succ, Z.pow_succ_r in Hn by lia.
    assert (0 < 10 ^ Z.of_nat k) by (apply Z.pow_pos_nonneg; lia).
    destruct (Z.ltb_spec n 10) as [Hlt|Hge]; [lia|].
    specialize (IH fuel (n / 10) (String (digit_char (n mod 10)) acc)).
    cbn [String.length] in IH.
    assert (10 ^ Z.of_nat k <= n / 10) by (apply Z.div_le_lower_bound; lia).
    lia.
Qed.

Lemma str_of_nonneg_value (n : Z) : 0 <= n -> digits_value 0 (str_of_nonneg n) = Some n.
Proof.
  intros H. unfold str_of_nonneg. rewrite digits_acc_value; [reflexivity | assumption |].
  pose proof (Z.log2_nonneg n). lia.
Qed.

Lemma str_of_nonneg_digits (n : Z) :
  all_digits (str_of_nonneg n) = true /\ str_of_nonneg n <> "".
Proof.
  split.
  - now apply digits_acc_all_digits.
  - unfold str_of_nonneg. intros E.
    cbn [digits_acc] in E. destruct (n <? 10); [discriminate|].
    pose proof (@digits_acc_length (Z.to_nat (Z.log2 n)) (n / 10)
                  (String (digit_char (n mod 10)) "")) as H'.
    rewrite E in H'. cbn [String.length] in H'. lia.
Qed.

(** Four columns hold the numbers below ten thousand. *)
Lemma str_of_nonneg_short (n : Z) :
  0 <= n -> (String.length (str_of_nonneg n) <= 4)%nat -> n < 10000.
Proof.
  intros Hn Hlen. destruct (Z.lt_ge_cases n 10000) as [|Hge]; [assumption|]. exfalso.
  assert (Hlog : 13 <= Z.log2 n) by (apply Z.log2_le_pow2; cbn; lia).
  pose proof (@digits_acc_long 4 (S (Z.to_nat (Z.log2 n))) n "" Hge ltac:(lia)) as H.
  unfold str_of_nonneg in Hlen. cbn [String.length] in H. lia.
Qed.

Lemma digits_value_append (s t : string) :
  forall acc,
    digits_value acc (s ++ t)
    = match digits_value acc s with
      | Some v => digits_value v t
      | None => None
      end.
Proof.
  induction s as [|c s IH]; intros acc; cbn [append digits_value]; [reflexivity|].
  destruct (digit_value c); [apply IH | reflexivity].
Qed.

Lemma three_digits_value (acc f : Z) :
  0 <= f < 1000 -> digits_value acc (three_digits f) = Some (1000 * acc + f).
Proof.
  intros H. unfold three_digits. cbn [digits_value].
  assert (0 <= f / 100 < 10) by (split; [apply Z.div_pos | apply Z.div_lt_upper_bound]; lia).
  assert (0 <= f / 10 mod 10 < 10) by (apply Z.mod_pos_bound; lia).
  assert (0 <= f mod 10 < 10) by (apply Z.mod_pos_bound; lia).
  rewrite !digit_value_char by assumption. f_equal.
  pose proof (Z.div_mod f 10 ltac:(lia)).
  pose proof (Z.div_mod (f / 10) 10 ltac:(lia)).
  rewrite Z.div_div in * by lia. change (10 * 10) with 100 in *. lia.
Qed.

Lemma three_digits_all (f : Z) :
  0 <= f < 1000 -> all_digits (three_digits f) = true.
Proof.
  intros H. unfold three_digits. cbn [all_digits].
  rewrite (@is_digit_char (f mod 10)) by (apply Z.mod_pos_bound; lia).
  rewrite (@is_digit_char (f / 10 mod 10)) by (apply Z.mod_pos_bound; lia).
  rewrite (@is_digit_char (f / 100))
    by (split; [apply Z.div_pos | apply Z.div_lt_upper_bound]; lia).
  reflexivity.
Qed.

End Digits.

Section Numbers.

Local Open Scope string_scope.

Lemma digit_differs (c x : ascii) :
  is_digit c = true -> is_digit x = false -> Ascii.eqb c x = false.
Proof.
  intros Hc Hx. destruct (Ascii.eqb_spec c x) as [->|]; [congruence | reflexivity].
Qed.

Lemma lower_digit (c : ascii) : is_digit c = true -> lower c = c.
Proof.
  unfold is_digit, digit_value, lower. intros H.
  destruct (Nat.leb_spec 48 (nat_of_ascii c)); cbn [andb] in H; [|discriminate].
  destruct (Nat.leb_spec (nat_of_ascii c) 57); [|discriminate].
  destruct (Nat.leb_spec 65 (nat_of_ascii c)); [lia | reflexivity].
Qed.

Lemma stripped_str_of_int (n : Z) : stripped (str_of_int n).
Proof.
  apply no_space_stripped. unfold str_of_int.
  destruct (str_of_nonneg_digits (- n)) as [Hneg _].
  destruct (str_of_nonneg_digits n) as [Hpos _].
  destruct (n <? 0)%Z; [cbn [no_space]|]; now rewrite all_digits_no_space.
Qed.

(** [int(str(n))] is [n]. *)
Lemma int_of_str_of_int (n : Z) : int_of_str (str_of_int n) = Some n.
Proof.
  unfold int_of_str. rewrite (stripped_str_of_int n). unfold str_of_int.
  destruct (Z.ltb_spec n 0) as [Hneg|Hpos].
  - destruct (str_of_nonneg_digits (- n)) as [Hd Hne].
    cbn [Ascii.eqb Bool.eqb].
    rewrite stripped_lstrip by (now apply no_space_stripped, all_digits_no_space).
    rewrite str_of_nonneg_value by lia.
    destruct (str_of_nonneg (- n)); [contradiction|].
    cbn [option_map]. f_equal. lia.
  - destruct (str_of_nonneg_digits n) as [Hd Hne].
    pose proof (@str_of_nonneg_value n Hpos) as Hv.
    destruct (str_of_nonneg n) as [|c r]; [contradiction|].
    cbn [all_digits] in Hd. apply andb_true_iff in Hd. destruct Hd as [Hc _].
    rewrite (@digit_differs c "-" Hc eq_refl), (@digit_differs c "+" Hc eq_refl).
    now rewrite Hv.
Qed.

Lemma span_digits_stop (ds t : string) (c : ascii) :
  all_digits ds = true -> is_digit c = false ->
  span_digits (ds ++ String c t) = (ds, String c t).
Proof.
  intros Hds Hc. induction ds as [|d ds IH]; cbn [append span_digits].
  - now rewrite Hc.
  - cbn [all_digits] in Hds. apply andb_true_iff in Hds. destruct Hds as [Hd Hds].
    now rewrite Hd, IH.
Qed.

Lemma span_digits_all (ds : string) :
  all_digits ds = true -> span_digits ds = (ds, "").
Proof.
  intros Hds. induction ds as [|d ds IH]; cbn [span_digits]; [reflexivity|].
  cbn [all_digits] in Hds. apply andb_true_iff in Hds. destruct Hds as [Hd Hds].
  now rewrite Hd, IH.
Qed.

(** The digits of a number with three decimals denote its count of
    thousandths over 1000. *)
Lemma ratio_of_decimal3 (t : Z) :
  (0 <= t)%Z ->
  ratio_of_decimal (str_of_nonneg (t / 1000) ++ "." ++ three_digits (t mod 1000))
  = Some (t, 1000%Z).
Proof.
  intros Ht. unfold ratio_of_decimal.
  destruct (str_of_nonneg_digits (t / 1000)) as [Hd Hne].
  assert (Hf : (0 <= t mod 1000 < 1000)%Z) by (apply Z.mod_pos_bound; lia).
  change ("." ++ three_digits (t mod 1000)) with (String "." (three_digits (t mod 1000))).
  rewrite (@span_digits_stop _ _ "." Hd eq_refl).
  rewrite (@span_digits_all _ (@three_digits_all _ Hf)).
  rewrite digits_value_append, str_of_nonneg_value by (apply Z.div_pos; lia).
  rewrite three_digits_value by assumption.
  cbn [exponent_of_str].
  replace (String.length (three_digits (t mod 1000))) with 3 by reflexivity.
  rewrite Nat.add_comm. cbn [Nat.add Z.of_nat Pos.of_succ_nat Pos.succ Z.sub Z.opp Z.add Z.leb Z.compare].
  do 2 f_equal. pose proof (Z.div_mod t 1000 ltac:(lia)). lia.
Qed.

Lemma no_space_decimal3 (neg : bool) (t : Z) :
  (0 <= t)%Z -> no_space (fixed3 neg t) = true.
Proof.
  intros Ht. unfold fixed3.
  destruct (str_of_nonneg_digits (t / 1000)) as [Hd _].
  assert (Hf : (0 <= t mod 1000 < 1000)%Z) by (apply Z.mod_pos_bound; lia).
  rewrite !no_space_append, (@all_digits_no_space _ Hd),
    (@all_digits_no_space _ (@three_digits_all _ Hf)).
  now destruct neg.
Qed.

(** [float] of the text of a number with three decimals is the binary64
    number nearest to it. *)
Lemma float_of_decimal3 (neg : bool) (t : Z) :
  (0 <= t)%Z ->
  float_of_str (fixed3 neg t) = Some (binary64_of_ratio neg t 1000).
Proof.
  intros Ht. unfold float_of_str. cbv zeta.
  rewrite !(@no_space_stripped _ (@no_space_decimal3 neg t Ht)).
  pose proof (@ratio_of_decimal3 t Ht) as Hratio.
  destruct (str_of_nonneg_digits (t / 1000)) as [Hd Hne].
  unfold fixed3.
  set (body := str_of_nonneg (t / 1000) ++ "." ++ three_digits (t mod 1000)) in *.
  assert (Hbody : exists c r, body = String c r /\ is_digit c = true).
  { unfold body. destruct (str_of_nonneg (t / 1000)) as [|c r]; [contradiction|].
    exists c, (r ++ "." ++ three_digits (t mod 1000)). split; [reflexivity|].
    cbn [all_digits] in Hd. now apply andb_true_iff in Hd. }
  destruct Hbody as (c & r & Hbody & Hc).
  clearbody body. subst body.
  assert (Hword : forall w, is_digit w = false ->
            forall u, String.eqb (lowercase (String c r)) (String w u) = false).
  { intros w Hw u. cbn [lowercase String.eqb].
    now rewrite (@lower_digit c Hc), (@digit_differs c w Hc Hw). }
  assert (Hparse :
    (if String.eqb (lowercase (String c r)) "inf"
        || String.eqb (lowercase (String c r)) "infinity"
     then Some (S754_infinity neg)
     else if String.eqb (lowercase (String c r)) "nan" then Some S754_nan
     else option_map (fun '(n, d) => binary64_of_ratio neg n d)
            (ratio_of_decimal (String c r)))
    = Some (binary64_of_ratio neg t 1000)).
  { rewrite !Hword by reflexivity. cbn [orb]. now rewrite Hratio. }
  destruct neg.
  - cbn [append Ascii.eqb Bool.eqb]. exact Hparse.
  - cbn [append].
    rewrite (@digit_differs c "-" Hc eq_refl), (@digit_differs c "+" Hc eq_refl).
    exact Hparse.
Qed.

End Numbers.

Section Rounding.

Local Open Scope Z_scope.

(** [round_half_even n d] is within half a unit of [n / d]. *)
Lemma round_half_even_near (n d : Z) :
  0 < d -> - d <= 2 * (round_half_even n d * d - n) <= d.
Proof.
  intros Hd. unfold round_half_even.
  pose proof (Z.div_mod n d ltac:(lia)) as E.
  pose proof (Z.mod_pos_bound n d Hd) as Hr.
  destruct (Z.compare_spec (2 * (n mod d)) d) as [H|H|H];
    [destruct (Z.even (n / d))| |]; nia.
Qed.

(** The integer strictly within half a unit of [n / d] is what
    [round_half_even] returns. *)
Lemma round_half_even_unique (n d t : Z) :
  0 < d -> 2 * Z.abs (n - t * d) < d -> round_half_even n d = t.
Proof.
  intros Hd Hnear.
  pose proof (round_half_even_near n Hd) as Hq.
  assert (Hdiff : Z.abs (round_half_even n d - t) * d < d) by nia.
  assert (Z.abs (round_half_even n d - t) < 1) by nia.
  lia.
Qed.

Lemma log2_ratio_le (n d : Z) : log2_ratio n d <= Z.log2 n - Z.log2 d.
Proof. unfold log2_ratio. destruct (0 <=? _); destruct (_ <=? _); lia. Qed.

(** A number of at most seven digits of thousandths survives the way
    through binary64 and back. *)
Lemma thousandths_binary64 (neg : bool) (t : Z) :
  0 < t < 10000000 ->
  exists m e, binary64_of_ratio neg t 1000 = S754_finite neg m e
              /\ thousandths (Zpos m) e = t.
Proof.
  intros Ht. unfold binary64_of_ratio.
  destruct (Z.eqb_spec t 0) as [|_]; [lia|].
  set (e0 := Z.max (log2_ratio t 1000 - 52) (- 1074)).
  assert (He0 : - 1074 <= e0 <= - 38).
  { pose proof (log2_ratio_le t 1000) as Hl.
    assert (Z.log2 t < 24) by (apply Z.log2_lt_pow2; [lia | cbn; lia]).
    change (Z.log2 1000) with 9 in Hl. unfold e0. lia. }
  destruct (Z.leb_spec 0 e0) as [|_]; [lia|].
  set (m0 := round_half_even (t * 2 ^ (- e0)) 1000).
  pose proof (@round_half_even_near (t * 2 ^ (- e0)) 1000 ltac:(lia)) as Hm0.
  fold m0 in Hm0.
  assert (Hpow : 2 ^ 38 <= 2 ^ (- e0)) by (apply Z.pow_le_mono_r; lia).
  change (2 ^ 38) with 274877906944 in Hpow.
  assert (Hm0pos : 0 < m0) by nia.
  destruct (Z.eqb_spec m0 (2 ^ 53)) as [E53|N53].
  - assert (Hhalf : 2 ^ (- e0) = 2 * 2 ^ (- (e0 + 1))).
    { rewrite <- Z.pow_succ_r by lia. f_equal. lia. }
    exists (Z.to_pos (2 ^ 52)), (e0 + 1).
    change (2 ^ 52 =? 0) with false. cbv iota.
    destruct (Z.ltb_spec 971 (e0 + 1)) as [|_]; [lia|].
    split; [reflexivity|].
    unfold thousandths. destruct (Z.leb_spec 0 (e0 + 1)) as [|_]; [lia|].
    rewrite Z2Pos.id by (cbn; lia).
    apply round_half_even_unique; [nia|].
    rewrite E53 in Hm0. change (2 ^ 53) with (2 * 2 ^ 52) in Hm0.
    set (p := 2 ^ (- (e0 + 1))) in *. set (q := 2 ^ 52) in *. nia.
  - exists (Z.to_pos m0), e0.
    destruct (Z.eqb_spec m0 0) as [|_]; [lia|].
    destruct (Z.ltb_spec 971 e0) as [|_]; [lia|].
    split; [reflexivity|].
    unfold thousandths. destruct (Z.leb_spec 0 e0) as [|_]; [lia|].
    rewrite Z2Pos.id by lia.
    apply round_half_even_unique; nia.
Qed.

(** [format(float(text), '.3f')] gives the text back. *)
Lemma format_binary64_decimal3 (neg : bool) (t : Z) :
  0 <= t < 10000000 ->
  format_3f (binary64_of_ratio neg t 1000) = fixed3 neg t.
Proof.
  intros Ht. destruct (Z.eq_dec t 0) as [->|Hne]; [reflexivity|].
  destruct (@thousandths_binary64 neg t ltac:(lia)) as (m & e & -> & Hback).
  cbn [format_3f]. now rewrite Hback.
Qed.

End Rounding.

Section Codec.

Local Open Scope string_scope.

(** The seven items of the dictionary, with the spans of [GRO_FIELDS]. *)
Lemma fields_of_line (line : string) :
  field line "resid" = option_map VInt (int_of_str (strip (slice line 0 5)))
  /\ field line "resname" = Some (VStr (strip (slice line 5 10)))
  /\ field line "atom_name" = Some (VStr (strip (slice line 10 15)))
  /\ field line "atomid" = option_map VInt (int_of_str (strip (slice line 15 20)))
  /\ field line "x" = option_map VFloat (float_of_str (strip (slice line 20 28)))
  /\ field line "y" = option_map VFloat (float_of_str (strip (slice line 28 36)))
  /\ field line "z" = option_map VFloat (float_of_str (strip (slice line 36 44))).
Proof. repeat split. Qed.

Lemma slices_of_columns (c1 c2 c3 c4 c5 c6 c7 tail : string) :
  String.length c1 = 5 -> String.length c2 = 5 -> String.length c3 = 5 ->
  String.length c4 = 5 -> String.length c5 = 8 -> String.length c6 = 8 ->
  String.length c7 = 8 ->
  let line := c1 ++ c2 ++ c3 ++ c4 ++ c5 ++ c6 ++ c7 ++ tail in
  slice line 0 5 = c1 /\ slice line 5 10 = c2 /\ slice line 10 15 = c3
  /\ slice line 15 20 = c4 /\ slice line 20 28 = c5 /\ slice line 28 36 = c6
  /\ slice line 36 44 = c7.
Proof.
  intros L1 L2 L3 L4 L5 L6 L7 line. subst line.
  split; [apply (@slice_column "" c1); [reflexivity | now rewrite L1]|].
  split; [apply (@slice_column c1 c2); [assumption | now rewrite L2]|].
  rewrite <- (append_assoc c1 c2).
  split; [apply (@slice_column (c1 ++ c2) c3);
          rewrite ?length_append, ?L1, ?L2, ?L3; reflexivity|].
  rewrite <- (append_assoc (c1 ++ c2) c3).
  split; [apply (@slice_column ((c1 ++ c2) ++ c3) c4);
          rewrite ?length_append, ?L1, ?L2, ?L3, ?L4; reflexivity|].
  rewrite <- (append_assoc ((c1 ++ c2) ++ c3) c4).
  split; [apply (@slice_column (((c1 ++ c2) ++ c3) ++ c4) c5);
          rewrite ?length_append, ?L1, ?L2, ?L3, ?L4, ?L5; reflexivity|].
  rewrite <- (append_assoc (((c1 ++ c2) ++ c3) ++ c4) c5).
  split; [apply (@slice_column ((((c1 ++ c2) ++ c3) ++ c4) ++ c5) c6);
          rewrite ?length_append, ?L1, ?L2, ?L3, ?L4, ?L5, ?L6; reflexivity|].
  rewrite <- (append_assoc ((((c1 ++ c2) ++ c3) ++ c4) ++ c5) c6).
  apply (@slice_column (((((c1 ++ c2) ++ c3) ++ c4) ++ c5) ++ c6) c7);
    rewrite ?length_append, ?L1, ?L2, ?L3, ?L4, ?L5, ?L6, ?L7; reflexivity.
Qed.

(** Eight columns hold the numbers with three decimals up to 9999.999. *)
Lemma fits_decimal3_bound (d : decimal3) :
  fits_decimal3 d -> (0 <= thousandth d < 10000000)%Z.
Proof.
  intros [Hpos Hlen]. split; [assumption|].
  unfold decimal3_text, fixed3 in Hlen. rewrite !length_append in Hlen.
  assert (Hint : (thousandth d / 1000 < 10000)%Z).
  { apply str_of_nonneg_short; [apply Z.div_pos; lia|].
    change (String.length ".") with 1 in Hlen.
    change (String.length (three_digits (thousandth d mod 1000))) with 3 in Hlen.
    lia. }
  pose proof (Z.div_mod (thousandth d) 1000 ltac:(lia)).
  pose proof (Z.mod_pos_bound (thousandth d) 1000 ltac:(lia)).
  lia.
Qed.

(** A coordinate column decodes to the nearest float, which is written
    as the column was. *)
Lemma coordinate_round_trip (d : decimal3) :
  fits_decimal3 d ->
  exists v, float_of_str (strip (rjust 8 (decimal3_text d))) = Some v
            /\ format_8_3f v = rjust 8 (decimal3_text d).
Proof.
  intros Hfit. pose proof (fits_decimal3_bound Hfit) as Hb.
  exists (binary64_of_ratio (negative d) (thousandth d) 1000).
  unfold decimal3_text.
  rewrite strip_rjust by (apply no_space_stripped, no_space_decimal3; lia).
  split; [apply float_of_decimal3; lia|].
  unfold format_8_3f. now rewrite format_binary64_decimal3.
Qed.

End Codec.

(** C6. A line in canonical fixed-width form decodes, and the line that
    [write_gro] writes for the decoded atom is that line, character by
    character. *)
Theorem decode_encode_canonical (c : columns) :
  canonical c ->
  exists a, decode (canonical_line c) = Some a /\ encode a = canonical_line c.
Proof.
  intros (Hr & Hn & Hns & Ha & Has & Hi & Hx & Hy & Hz).
  destruct (coordinate_round_trip Hx) as (vx & Px & Fx).
  destruct (coordinate_round_trip Hy) as (vy & Py & Fy).
  destruct (coordinate_round_trip Hz) as (vz & Pz & Fz).
  exists (Atom.make (col_resid c) (col_resname c) (col_atom_name c) (col_atomid c) vx vy vz).
  assert (L8 : forall d, fits_decimal3 d -> String.length (rjust 8 (decimal3_text d)) = 8)
    by (intros d [_ Hd]; now apply length_rjust).
  destruct (@slices_of_columns
              (rjust 5 (str_of_int (col_resid c))) (ljust 5 (col_resname c))
              (rjust 5 (col_atom_name c)) (rjust 5 (str_of_int (col_atomid c)))
              (rjust 8 (decimal3_text (col_x c))) (rjust 8 (decimal3_text (col_y c)))
              (rjust 8 (decimal3_text (col_z c))) nl
              (length_rjust _ Hr) (length_ljust _ Hn) (length_rjust _ Ha)
              (length_rjust _ Hi) (L8 _ Hx) (L8 _ Hy) (L8 _ Hz))
    as (S1 & S2 & S3 & S4 & S5 & S6 & S7).
  fold (canonical_line c) in S1, S2, S3, S4, S5, S6, S7.
  destruct (fields_of_line (canonical_line c)) as (F1 & F2 & F3 & F4 & F5 & F6 & F7).
  split.
  - unfold decode. rewrite F1, F2, F3, F4, F5, F6, F7.
    rewrite S1, S2, S3, S4, S5, S6, S7.
    rewrite (@strip_rjust 5 _ (stripped_str_of_int (col_resid c))).
    rewrite (@strip_rjust 5 _ (stripped_str_of_int (col_atomid c))).
    rewrite (@strip_rjust 5 _ Has), (@strip_ljust 5 _ Hns).
    rewrite !int_of_str_of_int, Px, Py, Pz. reflexivity.
  - unfold encode, canonical_line. cbn [Atom.resid Atom.resname Atom.atom_name
      Atom.atomid Atom.x Atom.y Atom.z].
    now rewrite Fx, Fy, Fz.
Qed.

Lemma decode_encode_canonical_witness :
  exists a,
    decode ("    1SOL     OW    1   0.126  -1.624   9.005" ++ nl)%string = Some a
    /\ encode a = ("    1SOL     OW    1   0.126  -1.624   9.005" ++ nl)%string.
Proof.
  apply (@decode_encode_canonical
           {| col_resid := 1; col_resname := "SOL"; col_atom_name := "OW"; col_atomid := 1;
              col_x := {| negative := false; thousandth := 126 |};
              col_y := {| negative := true; thousandth := 1624 |};
              col_z := {| negative := false; thousandth := 9005 |} |}).
  unfold canonical, fits_decimal3, stripped.
  cbn [col_resid col_resname col_atom_name col_atomid col_x col_y col_z thousandth].
  repeat split; try reflexivity; try (vm_compute; lia); vm_compute; discriminate.
Defined.

(* ================================================================== *)
(** * Further properties of the program                               *)
(* ================================================================== *)

(** ** The reader, on every input *)

Section Reading.

Lemma stop_at_empty_line_split (lines : list string) :
  exists rest,
    lines = stop_at_empty_line lines ++ rest
    /\ (rest = [] \/ exists blank more, rest = blank :: more /\ is_empty_line blank = true).
Proof.
  induction lines as [|l lines (rest & Hsplit & Hrest)]; cbn [stop_at_empty_line].
  - exists []. split; [reflexivity | now left].
  - destruct (is_empty_line l) eqn:E.
    + exists (l :: lines). split; [reflexivity|]. right. now exists l, lines.
    + exists rest. split; [|assumption]. cbn [app]. now rewrite <- Hsplit.
Qed.

Lemma stop_at_empty_line_none (lines : list string) :
  Forall (fun l => is_empty_line l = false) (stop_at_empty_line lines).
Proof.
  induction lines as [|l lines IH]; cbn [stop_at_empty_line]; [constructor|].
  destruct (is_empty_line l) eqn:E; constructor; assumption.
Qed.

Lemma last_cons_default {A : Type} (l : list A) (a d d' : A) :
  last (a :: l) d = last (a :: l) d'.
Proof.
  revert a. induction l as [|b l IH]; intros a; [reflexivity|].
  change (last (a :: b :: l) d) with (last (b :: l) d).
  change (last (a :: b :: l) d') with (last (b :: l) d'). apply IH.
Qed.

(** What the loop of [read_gro] returns: the last line as it is, and the
    decoding of every line before it. *)
Lemma read_atoms_returns (lines : list string) :
  forall acc prev_line atoms box,
    read_atoms acc prev_line lines = Ok (atoms, box)
    <-> box = last (prev_line :: lines) prev_line
        /\ exists new, atoms = acc ++ new
             /\ Forall2 (fun l a => decode l = Some a)
                        (removelast (prev_line :: lines)) new.
Proof.
  induction lines as [|line lines IH]; intros acc prev_line atoms box.
  - cbn [read_atoms last removelast]. split.
    + intros [= <- <-]. split; [reflexivity|]. exists []. split; [|constructor].
      now rewrite app_nil_r.
    + intros (-> & new & -> & Hnew). inversion Hnew. now rewrite app_nil_r.
  - cbn [read_atoms].
    change (removelast (prev_line :: line :: lines))
      with (prev_line :: removelast (line :: lines)).
    change (last (prev_line :: line :: lines) prev_line)
      with (last (line :: lines) prev_line).
    rewrite (last_cons_default lines line prev_line line).
    destruct (decode prev_line) as [a|] eqn:Ha.
    + rewrite IH. split.
      * intros (Hbox & new & -> & Hnew). split; [assumption|].
        exists (a :: new). split; [now rewrite <- app_assoc|]. now constructor.
      * intros (Hbox & new & -> & Hnew). split; [assumption|].
        inversion Hnew as [|? a' ? new' Ha' Hnew']; subst.
        assert (a' = a) by congruence. subst a'.
        exists new'. split; [now rewrite <- app_assoc | assumption].
    + split; [discriminate|].
      intros (_ & new & _ & Hnew). inversion Hnew; congruence.
Qed.

(** When the loop raises: some line before the last does not decode. *)
Lemma read_atoms_fails (lines : list string) :
  forall acc prev_line e,
    read_atoms acc prev_line lines = Raise e
    <-> e = FormatError
        /\ Exists (fun l => decode l = None) (removelast (prev_line :: lines)).
Proof.
  induction lines as [|line lines IH]; intros acc prev_line e.
  - cbn [read_atoms removelast]. split; [discriminate|].
    intros [_ H]. inversion H.
  - cbn [read_atoms].
    change (removelast (prev_line :: line :: lines))
      with (prev_line :: removelast (line :: lines)).
    destruct (decode prev_line) as [a|] eqn:Ha.
    + rewrite IH. split.
      * intros [-> H]. split; [reflexivity | now right].
      * intros [-> H]. split; [reflexivity|].
        inversion H as [? ? Hd|]; subst; [congruence | assumption].
    + split.
      * intros [= <-]. split; [reflexivity | now left].
      * now intros [-> _].
Qed.

End Reading.

(** X1. [stop_at_empty_line] yields the longest prefix of its input that
    holds no empty line: what it leaves out is nothing, or starts with an
    empty line. *)
Theorem stop_at_empty_line_longest_prefix (lines : list string) :
  Forall (fun l => is_empty_line l = false) (stop_at_empty_line lines)
  /\ exists rest,
       lines = stop_at_empty_line lines ++ rest
       /\ (rest = [] \/ exists blank more, rest = blank :: more /\ is_empty_line blank = true).
Proof.
  split; [apply stop_at_empty_line_none | apply stop_at_empty_line_split].
Qed.

(** X2. On three lines or more [read_gro] returns exactly this: the first
    line as title; as box the last line of the block made of the third
    line and the lines after it up to the first empty one; and as atoms
    the decoding of every line of that block but the last, in order.  The
    second line plays no part, and the third line is in the block even
    when it is empty. *)
Theorem read_gro_returns (title count third : string) (rest : list string)
    (t box : string) (atoms : list atom) :
  read_gro (title :: count :: third :: rest) = Ok (t, atoms, box)
  <-> t = title
      /\ box = last (third :: stop_at_empty_line rest) third
      /\ Forall2 (fun l a => decode l = Some a)
                 (removelast (third :: stop_at_empty_line rest)) atoms.
Proof.
  unfold read_gro. cbn [next bind].
  destruct (read_atoms [] third (stop_at_empty_line rest)) as [[atoms' box']|e] eqn:E;
    cbn [bind].
  - apply read_atoms_returns in E. destruct E as (Hbox & new & Hnew & Hdec).
    cbn [app] in Hnew. subst atoms' box'. split.
    + intros [= <- <- <-]. now repeat split.
    + intros (-> & -> & Hdec'). do 2 f_equal. f_equal.
      clear -Hdec Hdec'. revert atoms Hdec'.
      induction Hdec as [|l a ls new Hl _ IH]; intros atoms Hdec';
        inversion Hdec' as [|? a' ? atoms' Hl' Hrest]; subst; [reflexivity|].
      f_equal; [congruence | now apply IH].
  - split; [discriminate|]. intros (_ & Hbox & Hdec). exfalso.
    assert (H : read_atoms [] third (stop_at_empty_line rest) = Ok (atoms, box)).
    { apply read_atoms_returns. split; [assumption|]. now exists atoms. }
    congruence.
Qed.

(** X3. [read_gro] fails in two ways only: with [StopIteration] exactly
    on fewer than three lines, and with [FormatError] exactly when, on
    three lines or more, a line of the block other than its last line does
    not decode. *)
Theorem read_gro_failures (lines : list string) (e : exn) :
  read_gro lines = Raise e
  <-> (List.length lines < 3 /\ e = StopIteration)
      \/ (exists title count third rest,
            lines = title :: count :: third :: rest
            /\ e = FormatError
            /\ Exists (fun l => decode l = None)
                      (removelast (third :: stop_at_empty_line rest))).
Proof.
  unfold read_gro.
  destruct lines as [|title [|count [|third rest]]]; cbn [next bind List.length].
  1-3: split;
    [ intros [= <-]; left; split; [lia | reflexivity]
    | intros [[_ ->]|(? & ? & ? & ? & [=] & _)]; reflexivity ].
  split.
  - intros H. right. exists title, count, third, rest. split; [reflexivity|].
    destruct (read_atoms [] third (stop_at_empty_line rest)) as [[atoms box]|e'] eqn:E;
      cbn [bind] in H; [discriminate|].
    injection H as <-. now apply read_atoms_fails in E.
  - intros [[Hlen _]|(t & c & th & r & [= <- <- <- <-] & -> & Hex)]; [lia|].
    assert (H : read_atoms [] third (stop_at_empty_line rest) = Raise FormatError)
      by (now apply read_atoms_fails).
    now rewrite H.
Qed.

(** ** The codec, on values and on files *)

Section Files.

Local Open Scope string_scope.

Lemma coordinate_decode (d : decimal3) :
  fits_decimal3 d ->
  float_of_str (strip (rjust 8 (decimal3_text d))) = Some (nearest d)
  /\ format_8_3f (nearest d) = rjust 8 (decimal3_text d).
Proof.
  intros Hfit. pose proof (fits_decimal3_bound Hfit) as Hb.
  unfold decimal3_text, nearest.
  rewrite strip_rjust by (apply no_space_stripped, no_space_decimal3; lia).
  split; [apply float_of_decimal3; lia|].
  unfold format_8_3f. now rewrite format_binary64_decimal3.
Qed.

Lemma decode_columns (c : columns) :
  canonical c -> decode (canonical_line c) = Some (decoded c).
Proof.
  intros (Hr & Hn & Hns & Ha & Has & Hi & Hx & Hy & Hz).
  destruct (coordinate_decode Hx) as [Px _].
  destruct (coordinate_decode Hy) as [Py _].
  destruct (coordinate_decode Hz) as [Pz _].
  assert (L8 : forall d, fits_decimal3 d -> String.length (rjust 8 (decimal3_text d)) = 8)
    by (intros d [_ Hd]; now apply length_rjust).
  destruct (@slices_of_columns
              (rjust 5 (str_of_int (col_resid c))) (ljust 5 (col_resname c))
              (rjust 5 (col_atom_name c)) (rjust 5 (str_of_int (col_atomid c)))
              (rjust 8 (decimal3_text (col_x c))) (rjust 8 (decimal3_text (col_y c)))
              (rjust 8 (decimal3_text (col_z c))) nl
              (length_rjust _ Hr) (length_ljust _ Hn) (length_rjust _ Ha)
              (length_rjust _ Hi) (L8 _ Hx) (L8 _ Hy) (L8 _ Hz))
    as (S1 & S2 & S3 & S4 & S5 & S6 & S7).
  fold (canonical_line c) in S1, S2, S3, S4, S5, S6, S7.
  destruct (fields_of_line (canonical_line c)) as (F1 & F2 & F3 & F4 & F5 & F6 & F7).
  unfold decode. rewrite F1, F2, F3, F4, F5, F6, F7.
  rewrite S1, S2, S3, S4, S5, S6, S7.
  rewrite (@strip_rjust 5 _ (stripped_str_of_int (col_resid c))).
  rewrite (@strip_rjust 5 _ (stripped_str_of_int (col_atomid c))).
  rewrite (@strip_rjust 5 _ Has), (@strip_ljust 5 _ Hns).
  rewrite !int_of_str_of_int, Px, Py, Pz. reflexivity.
Qed.

Lemma encode_decoded (c : columns) :
  canonical c -> encode (decoded c) = canonical_line c.
Proof.
  intros (_ & _ & _ & _ & _ & _ & Hx & Hy & Hz).
  unfold encode, canonical_line, decoded.
  cbn [Atom.resid Atom.resname Atom.atom_name Atom.atomid Atom.x Atom.y Atom.z].
  now rewrite (proj2 (coordinate_decode Hx)), (proj2 (coordinate_decode Hy)),
    (proj2 (coordinate_decode Hz)).
Qed.

Lemma round_half_even_nonneg (n d : Z) :
  (0 <= n)%Z -> (0 < d)%Z -> (0 <= round_half_even n d)%Z.
Proof.
  intros Hn Hd. unfold round_half_even.
  pose proof (Z.div_pos n d Hn Hd).
  destruct (2 * (n mod d) ?= d)%Z; [destruct (Z.even (n / d))| |]; lia.
Qed.

Lemma thousandths_nonneg (m : positive) (e : Z) : (0 <= thousandths (Zpos m) e)%Z.
Proof.
  unfold thousandths. destruct (Z.leb_spec 0 e).
  - assert (0 < 2 ^ e)%Z by (apply Z.pow_pos_nonneg; lia). nia.
  - apply round_half_even_nonneg; [lia | apply Z.pow_pos_nonneg; lia].
Qed.

(** The text of a float in eight columns reads as a float with the same
    text: a number with three decimals, [nan], [inf] or [-inf]. *)
Lemma float_text_stable (v : float) :
  String.length (format_3f v) <= 8 ->
  exists v', float_of_str (strip (format_8_3f v)) = Some v'
             /\ format_8_3f v' = format_8_3f v.
Proof.
  intros Hlen. destruct v as [s|s| |s m e].
  - destruct (@coordinate_decode {| negative := s; thousandth := 0 |}) as [P F].
    { split; [cbn; lia | exact Hlen]. }
    eexists. split; [exact P | exact F].
  - destruct s; eexists; split; reflexivity.
  - eexists; split; reflexivity.
  - destruct (@coordinate_decode
                {| negative := s; thousandth := thousandths (Zpos m) e |}) as [P F].
    { split; [apply thousandths_nonneg | exact Hlen]. }
    eexists. split; [exact P | exact F].
Qed.

(** A line written for an atom that fits the columns reads as an atom
    that is written the same, with the same integers and names. *)
Lemma decode_encode_fitting (a : atom) :
  encodable a ->
  exists a', decode (encode a) = Some a'
             /\ encode a' = encode a
             /\ Atom.resid a' = Atom.resid a /\ Atom.resname a' = Atom.resname a
             /\ Atom.atom_name a' = Atom.atom_name a /\ Atom.atomid a' = Atom.atomid a.
Proof.
  intros (Hr & Hn & Hns & Ha & Has & Hi & Hx & Hy & Hz).
  destruct (float_text_stable _ Hx) as (vx & Px & Fx).
  destruct (float_text_stable _ Hy) as (vy & Py & Fy).
  destruct (float_text_stable _ Hz) as (vz & Pz & Fz).
  exists (Atom.make (Atom.resid a) (Atom.resname a) (Atom.atom_name a) (Atom.atomid a)
                    vx vy vz).
  assert (L8 : forall v, String.length (format_3f v) <= 8 ->
                         String.length (format_8_3f v) = 8)
    by (intros v Hv; now apply length_rjust).
  destruct (@slices_of_columns
              (rjust 5 (str_of_int (Atom.resid a))) (ljust 5 (Atom.resname a))
              (rjust 5 (Atom.atom_name a)) (rjust 5 (str_of_int (Atom.atomid a)))
              (format_8_3f (Atom.x a)) (format_8_3f (Atom.y a))
              (format_8_3f (Atom.z a)) nl
              (length_rjust _ Hr) (length_ljust _ Hn) (length_rjust _ Ha)
              (length_rjust _ Hi) (L8 _ Hx) (L8 _ Hy) (L8 _ Hz))
    as (S1 & S2 & S3 & S4 & S5 & S6 & S7).
  fold (encode a) in S1, S2, S3, S4, S5, S6, S7.
  destruct (fields_of_line (encode a)) as (F1 & F2 & F3 & F4 & F5 & F6 & F7).
  split; [|split; [|now repeat split]].
  - unfold decode. rewrite F1, F2, F3, F4, F5, F6, F7.
    rewrite S1, S2, S3, S4, S5, S6, S7.
    rewrite (@strip_rjust 5 _ (stripped_str_of_int (Atom.resid a))).
    rewrite (@strip_rjust 5 _ (stripped_str_of_int (Atom.atomid a))).
    rewrite (@strip_rjust 5 _ Has), (@strip_ljust 5 _ Hns).
    rewrite !int_of_str_of_int, Px, Py, Pz. reflexivity.
  - unfold encode.
    cbn [Atom.resid Atom.resname Atom.atom_name Atom.atomid Atom.x Atom.y Atom.z].
    now rewrite Fx, Fy, Fz.
Qed.

(** The reader on lines that decode, a footer that is not empty, and
    nothing or an empty line after it. *)
Lemma read_gro_of_decoded (title count footer : string) (atom_lines rest : list string)
    (atoms : list atom) :
  Forall2 (fun l a => decode l = Some a) atom_lines atoms ->
  is_empty_line footer = false ->
  rest = [] \/ (exists blank more, rest = blank :: more /\ is_empty_line blank = true) ->
  read_gro (title :: count :: atom_lines ++ footer :: rest)%list = Ok (title, atoms, footer).
Proof.
  intros Hdec Hfooter Hrest.
  assert (Hnonempty : Forall (fun l => is_empty_line l = false) (atom_lines ++ [footer])%list).
  { apply Forall_app. split; [|now constructor].
    induction Hdec as [|l a ls als Hl _ IH]; constructor; [|assumption].
    eapply decode_not_empty; eassumption. }
  unfold read_gro. cbn [next bind].
  replace (atom_lines ++ footer :: rest)%list with ((atom_lines ++ [footer]) ++ rest)%list
    by (now rewrite <- app_assoc).
  destruct (atom_lines ++ [footer])%list as [|prev_line lines] eqn:E.
  - now destruct atom_lines.
  - cbn [app next bind].
    inversion Hnonempty as [|? ? _ Hlines]; subst.
    rewrite (stop_at_empty_line_prefix Hlines Hrest).
    rewrite (read_atoms_decoded footer Hdec [] (eq_sym E)).
    reflexivity.
Qed.

End Files.

(** ** Nearest binary64 numbers *)

Section Nearest.

Local Open Scope Z_scope.

Lemma log2_ratio_ge (n d : Z) : Z.log2 n - Z.log2 d - 1 <= log2_ratio n d.
Proof. unfold log2_ratio. destruct (0 <=? _); destruct (_ <=? _); lia. Qed.

Lemma pow2_between (n e : Z) :
  0 < n -> 0 <= e -> 2 ^ (Z.log2 n + e) <= n * 2 ^ e < 2 ^ (Z.log2 n + e + 1).
Proof.
  intros Hn He. destruct (Z.log2_spec n Hn) as [Hlo Hhi].
  pose proof (Z.log2_nonneg n).
  replace (Z.log2 n + e + 1) with (Z.succ (Z.log2 n) + e) by lia.
  rewrite !Z.pow_add_r by lia.
  assert (0 < 2 ^ e) by (apply Z.pow_pos_nonneg; lia). nia.
Qed.

(** [log2_ratio n d] is the floor of the binary logarithm of [n / d]. *)
Lemma log2_ratio_spec (n d s : Z) :
  0 < n -> 0 < d -> 0 <= s -> 0 <= log2_ratio n d + s ->
  d * 2 ^ (log2_ratio n d + s) <= n * 2 ^ s < d * 2 ^ (log2_ratio n d + s + 1).
Proof.
  intros Hn Hd Hs. pose proof (pow2_between Hn Hs) as Pn.
  assert (Pd : forall e, 0 <= e ->
            2 ^ (Z.log2 d + e) <= d * 2 ^ e < 2 ^ (Z.log2 d + e + 1))
    by (intros; now apply pow2_between).
  assert (HS : 0 < 2 ^ s) by (apply Z.pow_pos_nonneg; lia).
  unfold log2_ratio. set (c := Z.log2 n - Z.log2 d). cbv zeta.
  destruct (Z.leb_spec 0 c) as [Hc|Hc].
  - destruct (Z.leb_spec (d * 2 ^ c) n) as [Ht|Ht]; intros Hcs; split.
    + rewrite Z.pow_add_r by lia. nia.
    + specialize (Pd (c + s + 1) ltac:(lia)).
      replace (Z.log2 d + (c + s + 1)) with (Z.log2 n + s + 1) in Pd by lia. lia.
    + specialize (Pd (c - 1 + s) ltac:(lia)).
      replace (Z.log2 d + (c - 1 + s) + 1) with (Z.log2 n + s) in Pd by lia. lia.
    + replace (c - 1 + s + 1) with (c + s) by lia. rewrite Z.pow_add_r by lia. nia.
  - assert (E : forall c', c' <= c -> 0 <= c' + s -> 2 ^ s = 2 ^ (- c') * 2 ^ (c' + s)).
    { intros c' H1 H2. rewrite <- Z.pow_add_r by lia. f_equal. lia. }
    destruct (Z.leb_spec d (n * 2 ^ (- c))) as [Ht|Ht]; intros Hcs; split.
    + rewrite (E c) by lia.
      assert (0 < 2 ^ (c + s)) by (apply Z.pow_pos_nonneg; lia). nia.
    + specialize (Pd (c + s + 1) ltac:(lia)).
      replace (Z.log2 d + (c + s + 1)) with (Z.log2 n + s + 1) in Pd by lia. lia.
    + specialize (Pd (c - 1 + s) ltac:(lia)).
      replace (Z.log2 d + (c - 1 + s) + 1) with (Z.log2 n + s) in Pd by lia. lia.
    + replace (c - 1 + s + 1) with (c + s) by lia. rewrite (E c) by lia.
      assert (0 < 2 ^ (c + s)) by (apply Z.pow_pos_nonneg; lia). nia.
Qed.

(** The float of a decimal of at most seven digits of thousandths: its
    mantissa and exponent are those of binary64, and no multiple [M * 2^E]
    of a power of two, with [M] below [2^53] in absolute value, is closer
    to the decimal. *)
Lemma binary64_of_ratio_nearest (neg : bool) (t : Z) :
  0 < t < 10000000 ->
  exists m e,
    binary64_of_ratio neg t 1000 = S754_finite neg m e
    /\ Zpos m < 2 ^ 53 /\ - 1074 <= e <= 971
    /\ forall M E, Z.abs M < 2 ^ 53 -> 0 <= E ->
         Z.abs (1000 * (Zpos m * 2 ^ (e + 1074)) - t * 2 ^ 1074)
         <= Z.abs (1000 * (M * 2 ^ E) - t * 2 ^ 1074).
Proof.
  intros Ht. set (P := 2 ^ 1074).
  unfold binary64_of_ratio.
  destruct (Z.eqb_spec t 0) as [|_]; [lia|].
  set (fl := log2_ratio t 1000).
  assert (Hfl : - 10 <= fl <= 14).
  { pose proof (log2_ratio_le t 1000) as Hle. pose proof (log2_ratio_ge t 1000) as Hge.
    assert (Z.log2 t < 24) by (apply Z.log2_lt_pow2; [lia | cbn; lia]).
    pose proof (Z.log2_nonneg t).
    change (Z.log2 1000) with 9 in Hle, Hge. unfold fl. lia. }
  replace (Z.max (fl - 52) (- 1074)) with (fl - 52) by lia.
  destruct (Z.leb_spec 0 (fl - 52)) as [|_]; [lia|].
  set (k := - (fl - 52)).
  assert (Hnorm : 1000 * 2 ^ 52 <= t * 2 ^ k < 1000 * 2 ^ 53).
  { pose proof (@log2_ratio_spec t 1000 k ltac:(lia) ltac:(lia) ltac:(unfold k; lia)) as H.
    fold fl in H. replace (fl + k + 1) with 53 in H by (unfold k; lia).
    replace (fl + k) with 52 in H by (unfold k; lia). apply H. lia. }
  set (N := t * 2 ^ k) in *.
  set (m0 := round_half_even N 1000).
  pose proof (@round_half_even_near N 1000 ltac:(lia)) as Hm0. fold m0 in Hm0.
  change (2 ^ 52) with 4503599627370496 in *.
  change (2 ^ 53) with 9007199254740992 in *.
  assert (Hrange : 4503599627370496 <= m0 <= 9007199254740992) by lia.
  assert (Hint : forall M, Z.abs (1000 * m0 - N) <= Z.abs (1000 * M - N)) by lia.
  set (g := fl - 52 + 1074).
  set (G := 2 ^ g).
  assert (HG : 0 < G) by (apply Z.pow_pos_nonneg; unfold g; lia).
  assert (HP : t * P = N * G).
  { unfold N, G, P. rewrite <- Z.mul_assoc, <- Z.pow_add_r by (unfold k, g; lia).
    do 2 f_equal. unfold k, g. lia. }
  assert (Hcore : forall M E, Z.abs M < 9007199254740992 -> 0 <= E ->
            Z.abs (1000 * m0 - N) * G <= Z.abs (1000 * (M * 2 ^ E) - t * P)).
  { intros M E HM HE. rewrite HP.
    assert (HW : 0 < 2 ^ E) by (apply Z.pow_pos_nonneg; lia).
    destruct (Z.le_gt_cases g E) as [Hge|Hlt].
    - assert (HE2 : 2 ^ E = 2 ^ (E - g) * G).
      { unfold G. rewrite <- Z.pow_add_r by (unfold g; lia). f_equal. lia. }
      rewrite HE2.
      replace (1000 * (M * (2 ^ (E - g) * G)) - N * G)
        with ((1000 * (M * 2 ^ (E - g)) - N) * G) by ring.
      rewrite Z.abs_mul, (Z.abs_eq G) by lia.
      apply Z.mul_le_mono_nonneg_r; [lia | apply Hint].
    - assert (HG2 : G = 2 ^ (g - E - 1) * (2 * 2 ^ E)).
      { unfold G. rewrite <- Z.pow_succ_r, <- Z.pow_add_r by lia. f_equal. lia. }
      assert (H1 : 0 < 2 ^ (g - E - 1)) by (apply Z.pow_pos_nonneg; lia).
      set (W := 2 ^ E) in *.
      assert (HGW : 2 * W <= G) by nia.
      assert (HMW : M * W <= 9007199254740991 * W) by nia.
      specialize (Hint 4503599627370496).
      assert (Hlhs : Z.abs (1000 * m0 - N) * G <= (N - 1000 * 4503599627370496) * G)
        by (apply Z.mul_le_mono_nonneg_r; lia).
      nia. }
  destruct (Z.eqb_spec m0 9007199254740992) as [E53|N53].
  - exists (Z.to_pos 4503599627370496), (fl - 52 + 1).
    change (4503599627370496 =? 0) with false. cbv iota.
    destruct (Z.ltb_spec 971 (fl - 52 + 1)) as [|_]; [lia|].
    split; [reflexivity|]. split; [reflexivity|]. split; [lia|].
    intros M E HM HE. fold P.
    replace (fl - 52 + 1 + 1074) with (Z.succ g) by (unfold g; lia).
    rewrite Z.pow_succ_r by (unfold g; lia). fold G.
    rewrite HP.
    replace (1000 * (Z.pos (Z.to_pos 4503599627370496) * (2 * G)) - N * G)
      with ((1000 * m0 - N) * G) by (rewrite E53; cbn [Z.to_pos]; ring).
    rewrite Z.abs_mul, (Z.abs_eq G) by lia. rewrite <- HP. now apply Hcore.
  - exists (Z.to_pos m0), (fl - 52).
    destruct (Z.eqb_spec m0 0) as [|_]; [lia|].
    destruct (Z.ltb_spec 971 (fl - 52)) as [|_]; [lia|].
    split; [reflexivity|]. rewrite Z2Pos.id by lia.
    split; [lia|]. split; [lia|].
    intros M E HM HE. fold P. fold g. fold G. rewrite HP.
    replace (1000 * (m0 * G) - N * G) with ((1000 * m0 - N) * G) by ring.
    rewrite Z.abs_mul, (Z.abs_eq G) by lia. rewrite <- HP. now apply Hcore.
Qed.

(** The float that [float] returns for a decimal of a coordinate column
    is the binary64 number nearest to it. *)
Lemma nearest_is_nearest (d : decimal3) :
  fits_decimal3 d -> nearest_binary64 d (nearest d).
Proof.
  intros Hfit. pose proof (fits_decimal3_bound Hfit) as Hb.
  unfold nearest, nearest_binary64. set (P := 2 ^ 1074).
  destruct (Z.eq_dec (thousandth d) 0) as [E0|Hne].
  - rewrite E0. cbn [binary64_of_ratio Z.eqb binary64 sign_bit scaled].
    split; [exact I|]. split; [reflexivity|].
    exists 0. split; [reflexivity|]. intros f' u' _ _.
    replace (1000 * 0 - (if negative d then -1 else 1) * 0 * P) with 0 by ring.
    cbn [Z.abs]. lia.
  - destruct (@binary64_of_ratio_nearest (negative d) (thousandth d) ltac:(lia))
      as (m & e & -> & Hm & He & Hnear).
    fold P in Hnear.
    cbn [binary64 sign_bit scaled].
    split; [now split|]. split; [reflexivity|].
    eexists. split; [reflexivity|].
    intros f' u' Hf' Hu'.
    set (U := Z.pos m * 2 ^ (e + 1074)) in *.
    set (X := thousandth d * P) in *.
    assert (Hany : forall M E, Z.abs M < 2 ^ 53 -> 0 <= E ->
              Z.abs (1000 * U - X)
              <= Z.abs (1000 * ((if negative d then -1 else 1) * (M * 2 ^ E)) - X)).
    { intros M E HM HE.
      replace ((if negative d then -1 else 1) * (M * 2 ^ E))
        with (((if negative d then -1 else 1) * M) * 2 ^ E) by ring.
      apply Hnear; [|assumption]. destruct (negative d); lia. }
    assert (Hflip : forall w,
              Z.abs (1000 * w - (if negative d then -1 else 1) * thousandth d * P)
              = Z.abs (1000 * ((if negative d then -1 else 1) * w) - X)).
    { intros w. unfold X. destruct (negative d); lia. }
    rewrite !Hflip.
    replace ((if negative d then -1 else 1) * ((if negative d then -1 else 1) * U))
      with U by (destruct (negative d); ring).
    destruct f' as [s'| | |s' m' e']; cbn [binary64] in Hf'; try contradiction;
      unfold scaled in Hu'.
    + assert (Eu : u' = 0 * 2 ^ 0) by (cbn; congruence). rewrite Eu.
      apply Hany; cbn; lia.
    + assert (Eu : u' = (if s' then -1 else 1) * Z.pos m' * 2 ^ (e' + 1074))
        by (rewrite <- Z.mul_assoc; congruence).
      rewrite Eu. destruct Hf' as [Hm' He'].
      apply Hany; [destruct s'; lia | lia].
Qed.

End Nearest.

(** The float of [0.100] is [7205759403792794 * 2^-56]; the next float
    above it is not nearest to [0.100], nor is zero. *)
Lemma nearest_binary64_tenth :
  nearest {| negative := false; thousandth := 100 |}
  = S754_finite false 7205759403792794 (-56)
  /\ ~ nearest_binary64 {| negative := false; thousandth := 100 |}
        (S754_finite false 7205759403792795 (-56))
  /\ ~ nearest_binary64 {| negative := false; thousandth := 100 |} (S754_zero false).
Proof.
  split; [reflexivity|].
  split; intros (_ & _ & u & Hu & H); injection Hu as <-;
    specialize (H (S754_finite false 7205759403792794 (-56)) _ ltac:(cbn; lia) eq_refl);
    cbn [negative thousandth] in H; vm_compute in H; apply H; reflexivity.
Qed.

(** X4. Decoding is exact on values: a line in canonical form decodes to
    the integers and names that its columns hold, and each coordinate
    column to a finite binary64 number with the sign of the column, than
    which no finite binary64 number is closer to the decimal of the
    column. *)
Theorem decode_canonical_values (c : columns) :
  canonical c ->
  exists a, decode (canonical_line c) = Some a
    /\ Atom.resid a = col_resid c /\ Atom.resname a = col_resname c
    /\ Atom.atom_name a = col_atom_name c /\ Atom.atomid a = col_atomid c
    /\ nearest_binary64 (col_x c) (Atom.x a)
    /\ nearest_binary64 (col_y c) (Atom.y a)
    /\ nearest_binary64 (col_z c) (Atom.z a).
Proof.
  intros Hc. exists (decoded c). split; [now apply decode_columns|].
  destruct Hc as (_ & _ & _ & _ & _ & _ & Hx & Hy & Hz).
  cbn [decoded Atom.resid Atom.resname Atom.atom_name Atom.atomid Atom.x Atom.y Atom.z].
  repeat (split; [reflexivity|]).
  split; [|split]; now apply nearest_is_nearest.
Qed.

Lemma decode_canonical_values_witness :
  exists a,
    decode ("    7SOL    HW1   42   0.100  -1.624   9.005" ++ nl)%string = Some a
    /\ Atom.resid a = 7%Z /\ Atom.resname a = "SOL"
    /\ Atom.atom_name a = "HW1" /\ Atom.atomid a = 42%Z
    /\ nearest_binary64 {| negative := false; thousandth := 100 |} (Atom.x a)
    /\ nearest_binary64 {| negative := true; thousandth := 1624 |} (Atom.y a)
    /\ nearest_binary64 {| negative := false; thousandth := 9005 |} (Atom.z a).
Proof.
  apply (@decode_canonical_values
           {| col_resid := 7; col_resname := "SOL"; col_atom_name := "HW1"; col_atomid := 42;
              col_x := {| negative := false; thousandth := 100 |};
              col_y := {| negative := true; thousandth := 1624 |};
              col_z := {| negative := false; thousandth := 9005 |} |}).
  unfold canonical, fits_decimal3, stripped.
  cbn [col_resid col_resname col_atom_name col_atomid col_x col_y col_z thousandth].
  repeat split; try reflexivity; try (vm_compute; lia); vm_compute; discriminate.
Defined.

(** X5. Reading a file whose atom lines are in canonical form and whose
    last line is not empty, then writing what was read, gives the file
    back line for line, except that the second line becomes the number of
    atom lines, whatever it was. *)
Theorem read_write_canonical_file (title count box : string) (cs : list columns) :
  Forall canonical cs ->
  is_empty_line box = false ->
  exists atoms,
    read_gro (title :: count :: map canonical_line cs ++ [box]) = Ok (title, atoms, box)
    /\ write_gro title atoms box
       = title :: (str_of_int (Z.of_nat (List.length cs)) ++ nl)%string
               :: map canonical_line cs ++ [box].
Proof.
  intros Hcs Hbox. exists (map decoded cs). split.
  - apply read_gro_of_decoded; [|assumption | now left].
    induction Hcs as [|c cs Hc _ IH]; cbn [map]; constructor; [|assumption].
    now apply decode_columns.
  - unfold write_gro. rewrite length_map, map_map. do 3 f_equal.
    apply map_ext_in. intros c Hc. apply encode_decoded.
    rewrite Forall_forall in Hcs. now apply Hcs.
Qed.

Lemma read_write_canonical_file_witness :
  exists atoms,
    read_gro [ "water"%string; "not a number"%string;
               ("    1SOL     OW    1   0.126  -1.624   9.005" ++ nl)%string;
               "box"%string ]
    = Ok ("water"%string, atoms, "box"%string)
    /\ write_gro "water" atoms "box"
       = [ "water"%string; ("1" ++ nl)%string;
           ("    1SOL     OW    1   0.126  -1.624   9.005" ++ nl)%string;
           "box"%string ].
Proof.
  apply (@read_write_canonical_file "water" "not a number" "box"
           [ {| col_resid := 1; col_resname := "SOL"; col_atom_name := "OW"; col_atomid := 1;
                col_x := {| negative := false; thousandth := 126 |};
                col_y := {| negative := true; thousandth := 1624 |};
                col_z := {| negative := false; thousandth := 9005 |} |} ]).
  - constructor; [|constructor].
    unfold canonical, fits_decimal3, stripped.
    cbn [col_resid col_resname col_atom_name col_atomid col_x col_y col_z thousandth].
    repeat split; try reflexivity; try (vm_compute; lia); vm_compute; discriminate.
  - reflexivity.
Defined.

(** X6. What [write_gro] writes for atoms that fit the columns, with a
    box line that is not empty, [read_gro] reads: it returns the title and
    the box as they were given, and as many atoms, each with the integers
    and names of the atom written and written as the same line. *)
Theorem write_read_round_trip (title box : string) (atoms : list atom) :
  Forall encodable atoms ->
  is_empty_line box = false ->
  exists atoms',
    read_gro (write_gro title atoms box) = Ok (title, atoms', box)
    /\ map encode atoms' = map encode atoms
    /\ Forall2 (fun a a' =>
                  Atom.resid a' = Atom.resid a /\ Atom.resname a' = Atom.resname a
                  /\ Atom.atom_name a' = Atom.atom_name a /\ Atom.atomid a' = Atom.atomid a)
               atoms atoms'.
Proof.
  intros Hfit Hbox.
  assert (Hall : exists atoms',
            Forall2 (fun l a => decode l = Some a) (map encode atoms) atoms'
            /\ map encode atoms' = map encode atoms
            /\ Forall2 (fun a a' =>
                  Atom.resid a' = Atom.resid a /\ Atom.resname a' = Atom.resname a
                  /\ Atom.atom_name a' = Atom.atom_name a /\ Atom.atomid a' = Atom.atomid a)
                 atoms atoms').
  { induction Hfit as [|a atoms Ha _ (atoms' & Hdec & Henc & Hsame)].
    - exists []. repeat split; constructor.
    - destruct (decode_encode_fitting Ha) as (a' & Hd & He & Hs).
      exists (a' :: atoms'). cbn [map]. split; [now constructor|].
      split; [now rewrite He, Henc | now constructor]. }
  destruct Hall as (atoms' & Hdec & Henc & Hsame).
  exists atoms'. split; [|now split].
  unfold write_gro. apply read_gro_of_decoded; [assumption | assumption | now left].
Qed.

Lemma write_read_round_trip_witness :
  exists atoms',
    read_gro (write_gro "water" water "box") = Ok ("water"%string, atoms', "box"%string)
    /\ map encode atoms' = map encode water
    /\ Forall2 (fun a a' =>
                  Atom.resid a' = Atom.resid a /\ Atom.resname a' = Atom.resname a
                  /\ Atom.atom_name a' = Atom.atom_name a /\ Atom.atomid a' = Atom.atomid a)
               water atoms'.
Proof.
  apply (@write_read_round_trip "water" "box" water).
  - repeat constructor; try (vm_compute; lia).
  - reflexivity.
Defined.

(** ** The selector, the mutator, the orders *)

Section Selecting.

Lemma getitem_field (a : atom) (key : string) :
  In key (map fst GRO_FIELDS) -> exists w, getitem a key = Ok w.
Proof.
  cbn [GRO_FIELDS map fst In].
  intros [<-|[<-|[<-|[<-|[<-|[<-|[<-|[]]]]]]]]; eexists; reflexivity.
Qed.

Lemma getitem_missing (a : atom) (key : string) :
  ~ In key (map fst GRO_FIELDS) -> getitem a key = Raise KeyError.
Proof.
  cbn [GRO_FIELDS map fst In]. intros H. unfold getitem.
  repeat match goal with
         | |- context [String.eqb key ?k] =>
             destruct (String.eqb_spec key k) as [->|_]; [exfalso; tauto|]
         end.
  reflexivity.
Qed.

Lemma select_from_field (key : string) (v : value) (atoms : list atom) :
  In key (map fst GRO_FIELDS) ->
  forall i, exists cs, select_from i atoms key v = Ok cs.
Proof.
  intros Hkey. induction atoms as [|a atoms IH]; intros i; [now exists []|].
  cbn [select_from]. destruct (@getitem_field a key Hkey) as [w ->].
  destruct (IH (S i)) as [more ->]. cbn [bind]. eauto.
Qed.

Lemma select_from_missing (key : string) (v : value) (a : atom) (atoms : list atom) :
  ~ In key (map fst GRO_FIELDS) ->
  forall i, select_from i (a :: atoms) key v = Raise KeyError.
Proof.
  intros Hkey i. cbn [select_from]. now rewrite getitem_missing.
Qed.

End Selecting.

(** X7. The indices that [select] yields are in ascending order, and
    they are exactly the indices of the atoms whose value under the key
    equals the value looked for. *)
Theorem select_indices (atoms : list atom) (key : string) (v : value)
    (candidates : list nat) :
  select atoms key v = Ok candidates ->
  StronglySorted lt candidates
  /\ forall c, In c candidates <->
       exists a w, nth_error atoms c = Some a
                   /\ getitem a key = Ok w /\ py_eq w v = true.
Proof.
  intros Hsel. split; [eapply select_from_sorted; exact Hsel|].
  intros c. rewrite (select_from_In _ _ _ _ Hsel c), Nat.sub_0_r.
  split; intros (a & w & H); exists a, w; intuition lia.
Qed.

Lemma select_indices_witness :
  StronglySorted lt [0; 2]
  /\ forall c, In c [0; 2] <->
       exists a w,
         nth_error [sol "OW" 1; Atom.make 2 "ION" "NA" 2 origin origin origin; sol "OW" 3] c
         = Some a
         /\ getitem a "atom_name" = Ok w /\ py_eq w (VStr "OW") = true.
Proof.
  apply (@select_indices
           [sol "OW" 1; Atom.make 2 "ION" "NA" 2 origin origin origin; sol "OW" 3]
           "atom_name" (VStr "OW") [0; 2]).
  reflexivity.
Defined.

(** X8. With a key of [GRO_FIELDS], [select] raises nothing.  With any
    other key it yields nothing on the empty list, where no dictionary is
    looked into, and raises [KeyError] on any other list, and so does
    [replace_atom]. *)
Theorem select_key_error (key : string) (v : value) :
  (In key (map fst GRO_FIELDS) ->
   forall atoms, exists candidates, select atoms key v = Ok candidates)
  /\ (~ In key (map fst GRO_FIELDS) ->
      select [] key v = Ok []
      /\ forall a atoms resname atom_name nsub draw,
           select (a :: atoms) key v = Raise KeyError
           /\ replace_atom (a :: atoms) key v resname atom_name nsub draw
              = Raise KeyError).
Proof.
  split.
  - intros Hkey atoms. now apply select_from_field.
  - intros Hkey. split; [reflexivity|].
    intros a atoms resname atom_name nsub draw.
    assert (H : select (a :: atoms) key v = Raise KeyError)
      by (now apply select_from_missing).
    split; [assumption|]. unfold replace_atom. now rewrite H.
Qed.

Section Altering.

Variables resname atom_name : string.

Lemma alter_atoms_app (first second : list nat) :
  forall atoms,
    alter_atoms atoms (first ++ second) resname atom_name
    = match alter_atoms atoms first resname atom_name with
      | (altered, None) => alter_atoms altered second resname atom_name
      | stopped => stopped
      end.
Proof.
  induction first as [|i first IH]; intros atoms; [reflexivity|].
  cbn [app alter_atoms]. destruct (nth_error atoms i); [apply IH | reflexivity].
Qed.

End Altering.

(** X9. [alter_atoms] stops at the first index past the end of the list:
    it raises [IndexError] there, the atoms at the indices before it are
    relabelled already, and the indices after it are not looked at. *)
Theorem alter_atoms_stops (atoms : list atom) (before after : list nat) (i : nat)
    (resname atom_name : string) :
  Forall (fun j => j < List.length atoms) before ->
  List.length atoms <= i ->
  alter_atoms atoms (before ++ i :: after) resname atom_name
  = (fst (alter_atoms atoms before resname atom_name), Some IndexError).
Proof.
  intros Hbefore Hi. rewrite alter_atoms_app.
  destruct (alter_atoms_inv resname atom_name before atoms) as (Hlen & _ & Herr).
  destruct (alter_atoms atoms before resname atom_name) as [altered e].
  cbn [fst snd] in *. apply Herr in Hbefore. subst e.
  cbn [alter_atoms].
  destruct (nth_error altered i) eqn:E; [|reflexivity].
  assert (i < List.length altered) by (apply nth_error_Some; congruence). lia.
Qed.

Lemma alter_atoms_stops_witness :
  alter_atoms water [2; 7; 0] "ION" "NA"
  = ([sol "OW" 1; sol "HW1" 2; Atom.make 1 "ION" "NA" 3 origin origin origin],
     Some IndexError).
Proof.
  apply (@alter_atoms_stops water [2] [0] 7 "ION" "NA").
  - repeat constructor.
  - cbn. lia.
Defined.

Section Orders.

Lemma filter_twice {A : Type} (p : A -> bool) (l : list A) :
  filter p (filter p l) = filter p l.
Proof.
  induction l as [|a l IH]; [reflexivity|]. cbn [filter].
  destruct (p a) eqn:E; [cbn [filter]; now rewrite E, IH | exact IH].
Qed.

Lemma filter_none {A : Type} (p : A -> bool) (l : list A) :
  (forall a, In a l -> p a = false) -> filter p l = [].
Proof.
  induction l as [|a l IH]; intros H; [reflexivity|]. cbn [filter].
  rewrite (H a (or_introl eq_refl)). apply IH. intros b Hb. apply H. now right.
Qed.

Lemma filter_all {A : Type} (p : A -> bool) (l : list A) :
  (forall a, In a l -> p a = true) -> filter p l = l.
Proof.
  induction l as [|a l IH]; intros H; [reflexivity|]. cbn [filter].
  rewrite (H a (or_introl eq_refl)). f_equal. apply IH. intros b Hb. apply H. now right.
Qed.

Lemma xrange_split (index length : nat) :
  index <= length -> seq 0 length = xrange 0 index ++ xrange index length.
Proof.
  intros H. unfold xrange. rewrite Nat.sub_0_r.
  replace length with (index + (length - index)) at 1 by lia. apply seq_app.
Qed.

Lemma map_nth_seq {A : Type} (l : list A) (d : A) :
  map (fun i => nth i l d) (seq 0 (List.length l)) = l.
Proof.
  induction l as [|a l IH]; [reflexivity|].
  cbn [List.length seq map nth]. f_equal.
  rewrite <- seq_shift, map_map. exact IH.
Qed.

Lemma iter_order_nth (atoms : list atom) (d : atom) (refs : list nat) :
  Forall (fun i => i < List.length atoms) refs ->
  iter_order atoms refs = Ok (map (fun i => nth i atoms d) refs).
Proof.
  induction 1 as [|i refs Hi _ IH]; [reflexivity|].
  cbn [iter_order map]. rewrite (nth_error_nth' atoms d Hi), IH. reflexivity.
Qed.

Lemma iter_order_fails (atoms : list atom) (refs : list nat) (e : exn) :
  iter_order atoms refs = Raise e
  <-> e = IndexError /\ Exists (fun i => List.length atoms <= i) refs.
Proof.
  induction refs as [|i refs IH]; cbn [iter_order].
  - split; [discriminate|]. intros [_ H]. inversion H.
  - destruct (nth_error atoms i) as [a|] eqn:E.
    + assert (Hi : i < List.length atoms) by (apply nth_error_Some; congruence).
      destruct (iter_order atoms refs) as [more|e'] eqn:Hmore; cbn [bind].
      * split; [discriminate|]. intros [-> H].
        inversion H as [? ? Hge|? ? Hrest]; subst; [lia|].
        discriminate (proj2 IH (conj eq_refl Hrest)).
      * split.
        -- intros [= <-]. destruct (proj1 IH eq_refl) as [-> H].
           split; [reflexivity | now right].
        -- intros [-> H]. inversion H as [? ? Hge|? ? Hrest]; subst; [lia|].
           apply IH. now split.
    + apply nth_error_None in E. split.
      * intros [= <-]. split; [reflexivity | now left].
      * now intros [-> _].
Qed.

End Orders.

(** X10. [reorder] keeps the relative order of what is not moved:
    without the moved indices, its output is the ascending sequence of
    the indices below the length, without the moved ones. *)
Theorem reorder_unmoved_order (n : nat) (moved : list nat) (anchor : nat) :
  anchor <= n ->
  filter (fun i => negb (contains moved i)) (reorder n moved anchor)
  = filter (fun i => negb (contains moved i)) (seq 0 n).
Proof.
  intros Hanchor. rewrite reorder_filter, (xrange_split Hanchor), !filter_app.
  rewrite !filter_twice. f_equal.
  rewrite (@filter_none _ _ moved); [reflexivity|].
  intros i Hi. apply negb_false_iff. now apply contains_In.
Qed.

Lemma reorder_unmoved_order_witness :
  filter (fun i => negb (contains [4; 2] i)) (reorder 6 [4; 2] 3)
  = filter (fun i => negb (contains [4; 2] i)) (seq 0 6).
Proof. apply (@reorder_unmoved_order 6 [4; 2] 3). lia. Defined.

Lemma reorder_above_anchor (n : nat) (moved : list nat) (anchor : nat) :
  Forall (fun i => anchor <= i) moved ->
  reorder n moved anchor
  = seq 0 anchor ++ moved
    ++ filter (fun i => negb (contains moved i)) (seq anchor (n - anchor)).
Proof.
  intros Hmoved. rewrite reorder_filter. f_equal.
  unfold xrange. rewrite Nat.sub_0_r. apply filter_all.
  intros i Hi. apply in_seq in Hi. apply negb_true_iff.
  destruct (contains moved i) eqn:E; [|reflexivity].
  apply contains_In in E. rewrite Forall_forall in Hmoved.
  specialize (Hmoved i E). lia.
Qed.

(** X11. When no moved index is below the anchor, as in [replace_atom],
    the indices below the anchor stay where they are and the moved ones
    follow at the anchor, before the other indices from the anchor on. *)
Theorem reorder_at_anchor (n : nat) (moved : list nat) (anchor : nat) :
  Forall (fun i => anchor <= i) moved ->
  reorder n moved anchor
  = seq 0 anchor ++ moved
    ++ filter (fun i => negb (contains moved i)) (seq anchor (n - anchor)).
Proof. apply reorder_above_anchor. Qed.

Lemma reorder_at_anchor_witness :
  reorder 6 [4; 2] 2
  = seq 0 2 ++ [4; 2] ++ filter (fun i => negb (contains [4; 2] i)) (seq 2 (6 - 2)).
Proof. apply (@reorder_at_anchor 6 [4; 2] 2). repeat constructor. Defined.

(** X12. [iter_order] over every index in ascending order yields the
    list itself, and over a permutation of the indices it yields a
    permutation of the list: no atom is lost, none comes twice. *)
Theorem iter_order_permutation (atoms : list atom) :
  iter_order atoms (seq 0 (List.length atoms)) = Ok atoms
  /\ forall refs,
       Permutation refs (seq 0 (List.length atoms)) ->
       exists values, iter_order atoms refs = Ok values /\ Permutation values atoms.
Proof.
  pose (d := Atom.make 0 "" "" 0 origin origin origin).
  assert (Hseq : Forall (fun i => i < List.length atoms) (seq 0 (List.length atoms))).
  { apply Forall_forall. intros i Hi. apply in_seq in Hi. lia. }
  split.
  - rewrite (iter_order_nth atoms d Hseq). now rewrite map_nth_seq.
  - intros refs Hperm. exists (map (fun i => nth i atoms d) refs). split.
    + apply iter_order_nth. apply Forall_forall. intros i Hi.
      rewrite Forall_forall in Hseq. apply Hseq.
      eapply Permutation_in; eassumption.
    + apply (Permutation_map (fun i => nth i atoms d)) in Hperm.
      now rewrite map_nth_seq in Hperm.
Qed.

(** X13. [iter_order] raises nothing but [IndexError], and raises it
    exactly when an index is past the end of the list. *)
Theorem iter_order_index_error (atoms : list atom) (refs : list nat) (e : exn) :
  iter_order atoms refs = Raise e
  <-> e = IndexError /\ Exists (fun i => List.length atoms <= i) refs.
Proof. apply iter_order_fails. Qed.

(** ** Renumbering again, and within the columns *)

Section Renumbering.

Local Open Scope Z_scope.

(** A second pass that starts with the counter of the first, and with
    the last resid the first pass wrote as previous resid, changes nothing. *)
Lemma renumber_loop_again (atoms : list atom) :
  forall resid prev_resid atomid,
    renumber_loop resid (resid mod 100000) atomid
      (renumber_loop resid prev_resid atomid atoms)
    = renumber_loop resid prev_resid atomid atoms.
Proof.
  induction atoms as [|a atoms IH]; intros resid prev_resid atomid; [reflexivity|].
  cbn [renumber_loop].
  destruct (Z.eqb_spec (Atom.resid a) prev_resid) as [E|E]; cbn [negb].
  - cbn [renumber_loop renumbered Atom.resid]. rewrite Z.eqb_refl. cbn [negb].
    unfold renumbered at 1.
    cbn [Atom.resname Atom.atom_name Atom.x Atom.y Atom.z renumbered].
    f_equal. apply IH.
  - cbn [renumber_loop renumbered Atom.resid].
    destruct (Z.eqb_spec ((resid + 1) mod 100000) (resid mod 100000)) as [E'|E'].
    + pose proof (mod_succ resid).
      pose proof (Z.mod_pos_bound resid 100000 eq_refl). lia.
    + cbn [negb]. unfold renumbered at 1.
      cbn [Atom.resname Atom.atom_name Atom.x Atom.y Atom.z renumbered].
      f_equal. apply IH.
Qed.

Lemma digits_acc_short (fuel : nat) :
  forall n acc k,
    0 <= n < 10 ^ Z.of_nat (S k) ->
    (String.length (digits_acc fuel n acc) <= S k + String.length acc)%nat.
Proof.
  induction fuel as [|fuel IH]; intros n acc k Hn; cbn [digits_acc]; [lia|].
  destruct (Z.ltb_spec n 10) as [Hlt|Hge]; [cbn [String.length]; lia|].
  destruct k as [|k]; [cbn in Hn; lia|].
  specialize (IH (n / 10) (String (digit_char (n mod 10)) acc) k).
  cbn [String.length] in IH.
  assert (0 <= n / 10 < 10 ^ Z.of_nat (S k)); [|lia].
  split; [apply Z.div_pos; lia|].
  apply Z.div_lt_upper_bound; [lia|].
  rewrite (Nat2Z.inj_succ (S k)), Z.pow_succ_r in Hn by lia. lia.
Qed.

(** What is below 100000 is written with five characters at most. *)
Lemma str_of_int_five (n : Z) :
  0 <= n < 100000 -> (String.length (str_of_int n) <= 5)%nat.
Proof.
  intros Hn. unfold str_of_int. destruct (Z.ltb_spec n 0) as [|_]; [lia|].
  unfold str_of_nonneg.
  pose proof (@digits_acc_short (S (Z.to_nat (Z.log2 n))) n EmptyString 4
                ltac:(cbn; lia)) as Hshort.
  cbn [String.length] in Hshort. lia.
Qed.

Lemma renumber_loop_Forall (P : atom -> Prop) (atoms : list atom) :
  (forall a resid atomid, In a atoms -> P (renumbered a resid atomid)) ->
  forall resid prev_resid atomid,
    Forall P (renumber_loop resid prev_resid atomid atoms).
Proof.
  induction atoms as [|a atoms IH]; intros HP resid prev_resid atomid; [constructor|].
  cbn [renumber_loop].
  destruct (negb (Atom.resid a =? prev_resid));
    (constructor; [apply HP; now left | apply IH; intros b r i Hb; apply HP; now right]).
Qed.

End Renumbering.

(** X14. Renumbering what is renumbered changes nothing. *)
Theorem renumber_idempotent (atoms : list atom) :
  renumber (renumber atoms) = renumber atoms.
Proof. unfold renumber. exact (renumber_loop_again atoms 0 0 1). Qed.

(** X15. Every atom that [renumber] yields has a resid and an atomid
    between 0 and 99999, so that [write_gro] writes each of them within
    the five columns of its field. *)
Theorem renumber_fits_columns (atoms : list atom) :
  Forall (fun b =>
            (0 <= Atom.resid b < 100000)%Z /\ (0 <= Atom.atomid b < 100000)%Z
            /\ String.length (rjust 5 (str_of_int (Atom.resid b))) = 5
            /\ String.length (rjust 5 (str_of_int (Atom.atomid b))) = 5)
         (renumber atoms).
Proof.
  apply renumber_loop_Forall. intros a resid atomid _.
  cbn [renumbered Atom.resid Atom.atomid].
  pose proof (Z.mod_pos_bound resid 100000 eq_refl) as Hr.
  pose proof (Z.mod_pos_bound atomid 100000 eq_refl) as Hi.
  repeat split; try lia; apply length_rjust; now apply str_of_int_five.
Qed.

(** X16. [renumber] writes into the dictionaries it is given.  When the
    objects handed over are all different, reading them afterwards gives
    what [renumber] yields for their values before, and the objects that
    were not handed over are as they were. *)
Theorem renumber_in_place_objects (store : list atom) (refs : list nat)
    (values : list atom) :
  NoDup refs ->
  iter_order store refs = Ok values ->
  iter_order (renumber_in_place 0 0 1 store refs) refs = Ok (renumber values)
  /\ forall i, ~ In i refs ->
       nth_error (renumber_in_place 0 0 1 store refs) i = nth_error store i.
Proof.
  intros Hnd Hvalues. split.
  - now apply renumber_in_place_distinct.
  - intros i Hi. now apply renumber_in_place_other.
Qed.

Lemma renumber_in_place_objects_witness :
  iter_order (renumber_in_place 0 0 1 water [2; 0]) [2; 0]
  = Ok (renumber [sol "HW2" 3; sol "OW" 1])
  /\ forall i, ~ In i [2; 0] ->
       nth_error (renumber_in_place 0 0 1 water [2; 0]) i = nth_error water i.
Proof.
  apply (@renumber_in_place_objects water [2; 0] [sol "HW2" 3; sol "OW" 1]).
  - repeat constructor; simpl; intuition lia.
  - reflexivity.
Defined.

(** ** The transformation, step by step *)

Section Transformation.

Variables (key : string) (v : value) (resname atom_name : string).

Lemma py_min_sorted (c : nat) (rest : list nat) :
  StronglySorted lt (c :: rest) -> py_min (c :: rest) = Ok c.
Proof.
  intros Hs. apply StronglySorted_inv in Hs. destruct Hs as [_ Hlt].
  cbn [py_min]. f_equal. induction Hlt as [|d rest Hd _ IH]; [reflexivity|].
  cbn [fold_left]. now rewrite Nat.min_l by lia.
Qed.

Lemma setitem_position (atoms : list atom) :
  forall i a,
    nth_error atoms i = Some a ->
    map position (setitem atoms i (relabel a resname atom_name)) = map position atoms.
Proof.
  induction atoms as [|b atoms IH]; intros [|i] a H; cbn in H; try discriminate.
  - injection H as ->. reflexivity.
  - cbn [setitem map]. f_equal. now apply IH.
Qed.

Lemma alter_atoms_position (indices : list nat) :
  forall atoms,
    map position (fst (alter_atoms atoms indices resname atom_name)) = map position atoms.
Proof.
  induction indices as [|i indices IH]; intros atoms; [reflexivity|].
  cbn [alter_atoms]. destruct (nth_error atoms i) as [a|] eqn:E; [|reflexivity].
  rewrite IH. now apply setitem_position.
Qed.



Lemma renumber_loop_position (atoms : list atom) :
  forall resid prev_resid atomid,
    map position (renumber_loop resid prev_resid atomid atoms) = map position atoms.
Proof.
  induction atoms as [|a atoms IH]; intros resid prev_resid atomid; [reflexivity|].
  cbn [renumber_loop]. destruct (negb (Atom.resid a =? prev_resid)%Z);
    cbn [map]; now rewrite IH.
Qed.

(** The selection is made of candidates, whatever is drawn. *)
Lemma selection_in_range (atoms : list atom) (candidates draw : list nat) :
  select atoms key v = Ok candidates ->
  Forall (fun c => In c candidates /\ c < List.length atoms)
         (flat_map (pick candidates) draw).
Proof.
  intros Hsel. destruct (select_from_sorted _ _ _ _ Hsel) as [_ Hrange].
  rewrite Forall_forall in Hrange.
  apply Forall_forall. intros c Hc. apply In_picks in Hc.
  destruct Hc as (j & _ & Hj). apply nth_error_In in Hj.
  split; [assumption|]. specialize (Hrange c Hj). lia.
Qed.

(** [replace_atom] when there is a candidate and the count is within the
    number of candidates: the order is the one computed from the first
    candidate, read in the list as [alter_atoms] leaves it. *)
Lemma replace_atom_steps (atoms : list atom) (c0 : nat) (others draw : list nat)
    (k : Z) (d : atom) :
  select atoms key v = Ok (c0 :: others) ->
  (0 <= k <= Z.of_nat (List.length (c0 :: others)))%Z ->
  let selection := flat_map (pick (c0 :: others)) draw in
  let altered := fst (alter_atoms atoms selection resname atom_name) in
  List.length altered = List.length atoms
  /\ Forall (fun c => c0 <= c < List.length atoms) selection
  /\ replace_atom atoms key v resname atom_name k draw
     = Ok (renumber (map (fun i => nth i altered d)
                         (reorder (List.length atoms) selection c0))).
Proof.
  intros Hsel Hk selection altered.
  destruct (select_from_sorted _ _ _ _ Hsel) as [Hsorted Hrange].
  pose proof (@selection_in_range atoms (c0 :: others) draw Hsel) as Hin. fold selection in Hin.
  assert (Hc0 : c0 < List.length atoms).
  { rewrite Forall_forall in Hrange. specialize (Hrange c0 (or_introl eq_refl)). lia. }
  assert (Hbounds : Forall (fun c => c0 <= c < List.length atoms) selection).
  { eapply Forall_impl; [|exact Hin]. intros c [Hc Hlt]. split; [|assumption].
    destruct Hc as [->|Hc]; [lia|].
    apply StronglySorted_inv in Hsorted. destruct Hsorted as [_ Hall].
    rewrite Forall_forall in Hall. specialize (Hall c Hc). lia. }
  destruct (alter_atoms_inv resname atom_name selection atoms) as (Hlen & _ & Herr).
  fold altered in Hlen.
  split; [assumption|]. split; [assumption|].
  unfold replace_atom. rewrite Hsel. cbn [bind].
  rewrite (sample_ok (c0 :: others) draw Hk). cbn [bind]. fold selection.
  assert (Hnone : snd (alter_atoms atoms selection resname atom_name) = None).
  { apply Herr. eapply Forall_impl; [|exact Hbounds]. intros c Hc. cbv beta in Hc. lia. }
  unfold altered in *.
  destruct (alter_atoms atoms selection resname atom_name) as [after e].
  cbn [fst snd] in *. subst e.
  rewrite (@py_min_sorted c0 others Hsorted). cbn [bind]. rewrite Hlen.
  rewrite (@iter_order_nth after d (reorder (List.length atoms) selection c0)).
  - reflexivity.
  - apply Forall_forall. intros i Hi. rewrite Hlen.
    apply (@reorder_In (List.length atoms) selection c0); [|lia|assumption].
    eapply Forall_impl; [|exact Hbounds]. intros c Hc. cbv beta in Hc. lia.
Qed.

(** The ways [replace_atom] fails. *)
Lemma replace_atom_fails (atoms : list atom) (k : Z) (draw : list nat) (e : exn) :
  replace_atom atoms key v resname atom_name k draw = Raise e
  <-> (e = KeyError /\ atoms <> [] /\ ~ In key (map fst GRO_FIELDS))
      \/ (exists candidates,
            select atoms key v = Ok candidates
            /\ ((e = ValueError "sample larger than population"
                 /\ ~ (0 <= k <= Z.of_nat (List.length candidates))%Z)
                \/ (e = ValueError "min() arg is an empty sequence"
                    /\ candidates = [] /\ k = 0%Z))).
Proof.
  assert (Hcases : forall candidates,
            select atoms key v = Ok candidates ->
            replace_atom atoms key v resname atom_name k draw = Raise e
            <-> (e = ValueError "sample larger than population"
                 /\ ~ (0 <= k <= Z.of_nat (List.length candidates))%Z)
                \/ (e = ValueError "min() arg is an empty sequence"
                    /\ candidates = [] /\ k = 0%Z)).
  { intros candidates Hsel.
    destruct (Z_le_dec 0 k) as [H0|H0];
      [destruct (Z_le_dec k (Z.of_nat (List.length candidates))) as [Hn|Hn]|].
    - destruct candidates as [|c0 others].
      + cbn [List.length Z.of_nat] in Hn. assert (k = 0%Z) by lia. subst k.
        unfold replace_atom. rewrite Hsel. cbn [bind].
        unfold sample. cbn [Z.leb Z.compare List.length Z.of_nat andb bind].
        rewrite picks_nil. cbn [alter_atoms py_min bind]. split.
        * intros [= <-]. right. now repeat split.
        * intros [[_ H]|[-> _]]; [cbn in H; lia | reflexivity].
      + destruct (@replace_atom_steps atoms c0 others draw k
                    (Atom.make 0 "" "" 0 origin origin origin) Hsel (conj H0 Hn))
          as (_ & _ & ->).
        split; [discriminate|]. intros [[_ H]|[_ [H _]]]; [lia | discriminate].
    - unfold replace_atom. rewrite Hsel. cbn [bind].
      rewrite sample_too_many by lia. cbn [bind]. split.
      + intros [= <-]. left. split; [reflexivity | lia].
      + intros [[-> _]|[_ [_ ->]]]; [reflexivity|].
        pose proof (Nat2Z.is_nonneg (List.length candidates)). lia.
    - unfold replace_atom. rewrite Hsel. cbn [bind]. unfold sample.
      destruct (Z.leb_spec 0 k) as [|_]; [lia|]. cbn [andb bind]. split.
      + intros [= <-]. left. split; [reflexivity | lia].
      + intros [[-> _]|[_ [_ ->]]]; [reflexivity | lia]. }
  destruct (in_dec string_dec key (map fst GRO_FIELDS)) as [Hkey|Hkey].
  - destruct (@select_from_field key v atoms Hkey 0) as [candidates Hsel].
    rewrite (Hcases candidates Hsel). split.
    + intros H. right. now exists candidates.
    + intros [(_ & _ & H)|(candidates' & Hsel' & H)]; [contradiction|].
      unfold select in Hsel'. rewrite Hsel in Hsel'. now injection Hsel' as <-.
  - destruct atoms as [|a atoms'].
    + rewrite (Hcases [] eq_refl). split.
      * intros H. right. now exists [].
      * intros [(_ & H & _)|(candidates' & Hsel' & H)]; [contradiction|].
        now injection Hsel' as <-.
    + pose proof (@select_from_missing key v a atoms' Hkey 0) as Hsel.
      unfold replace_atom, select. rewrite Hsel. cbn [bind]. split.
      * intros [= <-]. left. now repeat split.
      * intros [(-> & _)|(candidates' & Hsel' & _)]; [reflexivity|].
        unfold select in Hsel'. congruence.
Qed.


End Transformation.

Section Outcome.

Variables (key : string) (v : value) (resname atom_name : string).

Lemma renumber_nth (values : list atom) (i : nat) (b : atom) :
  nth_error (renumber values) i = Some b ->
  exists a, nth_error values i = Some a
            /\ Atom.resname b = Atom.resname a /\ Atom.atom_name b = Atom.atom_name a
            /\ position b = position a
            /\ Atom.atomid b = (Z.of_nat (S i) mod 100000)%Z.
Proof.
  intros Hb.
  assert (Hi : i < List.length values).
  { unfold renumber in Hb. rewrite <- (renumber_loop_length values 0 0 1).
    apply nth_error_Some. congruence. }
  destruct (nth_error values i) as [a|] eqn:Ha; [|apply nth_error_None in Ha; lia].
  exists a. split; [reflexivity|].
  unfold renumber in Hb. rewrite (@renumber_loop_nth values 0%Z 0%Z 1%Z i a Ha) in Hb.
  assert (Eb : b = renumbered a
                     (fst (walk_from (0%Z, 0%Z) (firstn (S i) (map Atom.resid values))))
                     (1 + Z.of_nat i)%Z) by congruence.
  rewrite Eb. unfold position.
  cbn [renumbered Atom.resname Atom.atom_name Atom.atomid Atom.x Atom.y Atom.z].
  split; [reflexivity|]. split; [reflexivity|]. split; [reflexivity|].
  f_equal. lia.
Qed.

(** With a candidate and a draw, the order is a permutation. *)
Lemma replace_atom_order (atoms : list atom) (candidates draw : list nat) (k : Z)
    (index : nat) :
  select atoms key v = Ok candidates ->
  valid_draw (List.length candidates) k draw ->
  index <= List.length atoms ->
  Permutation (reorder (List.length atoms) (flat_map (pick candidates) draw) index)
              (seq 0 (List.length atoms)).
Proof.
  intros Hsel Hdraw Hindex.
  apply NoDup_Permutation; [|apply seq_NoDup|].
  - eapply replace_atom_distinct_objects; [exact Hsel | exact Hdraw |].
    now apply sample_ok, (valid_draw_bound Hdraw).
  - intros i. rewrite in_seq, reorder_In; [lia | | assumption].
    eapply Forall_impl; [|apply (@selection_in_range key v atoms candidates draw Hsel)].
    now intros c [_ Hc].
Qed.

End Outcome.

(** X17. [replace_atom] fails in three ways only: with [KeyError] on a
    list that is not empty and a key that is not in [GRO_FIELDS]; with the
    [ValueError] of [random.sample] when the count is negative or above
    the number of candidates; with the [ValueError] of [min] when there is
    no candidate and the count is 0.  It never raises [IndexError]. *)
Theorem replace_atom_raises (atoms : list atom) (key : string) (v : value)
    (resname atom_name : string) (k : Z) (draw : list nat) (e : exn) :
  replace_atom atoms key v resname atom_name k draw = Raise e
  <-> (e = KeyError /\ atoms <> [] /\ ~ In key (map fst GRO_FIELDS))
      \/ (exists candidates,
            select atoms key v = Ok candidates
            /\ ((e = ValueError "sample larger than population"
                 /\ ~ (0 <= k <= Z.of_nat (List.length candidates))%Z)
                \/ (e = ValueError "min() arg is an empty sequence"
                    /\ candidates = [] /\ k = 0%Z))).
Proof. apply replace_atom_fails. Qed.

(** X18. With at least one candidate and a count the candidates allow,
    [replace_atom] yields as many atoms as the list has, at the same
    positions in space taken together (a permutation, no atom lost or
    doubled), and with the atomids 1, 2, 3, ... modulo 100000 in the order
    yielded. *)
Theorem replace_atom_conserves (atoms : list atom) (key : string) (v : value)
    (candidates : list nat) (resname atom_name : string) (k : Z) (draw : list nat) :
  select atoms key v = Ok candidates ->
  candidates <> [] ->
  valid_draw (List.length candidates) k draw ->
  exists out,
    replace_atom atoms key v resname atom_name k draw = Ok out
    /\ List.length out = List.length atoms
    /\ Permutation (map position out) (map position atoms)
    /\ forall i b, nth_error out i = Some b ->
         Atom.atomid b = (Z.of_nat (S i) mod 100000)%Z.
Proof.
  intros Hsel Hne Hdraw.
  destruct candidates as [|c0 others]; [contradiction|].
  pose (d := Atom.make 0 "" "" 0 origin origin origin).
  destruct (@replace_atom_steps key v resname atom_name atoms c0 others draw k d Hsel
              (valid_draw_bound Hdraw)) as (Hlen & Hbounds & Hout).
  set (selection := flat_map (pick (c0 :: others)) draw) in *.
  set (altered := fst (alter_atoms atoms selection resname atom_name)) in *.
  assert (Hc0 : c0 <= List.length atoms).
  { destruct (select_from_sorted _ _ _ _ Hsel) as [_ Hrange].
    rewrite Forall_forall in Hrange. specialize (Hrange c0 (or_introl eq_refl)). lia. }
  pose proof (@replace_atom_order key v atoms (c0 :: others) draw k c0 Hsel Hdraw Hc0)
    as Hperm.
  fold selection in Hperm.
  assert (Hvalues : Permutation
            (map (fun i => nth i altered d) (reorder (List.length atoms) selection c0))
            altered).
  { apply (Permutation_map (fun i => nth i altered d)) in Hperm.
    rewrite <- Hlen in Hperm at 2. now rewrite map_nth_seq in Hperm. }
  eexists. split; [exact Hout|]. split; [|split].
  - unfold renumber. rewrite renumber_loop_length.
    now rewrite (Permutation_length Hvalues).
  - unfold renumber. rewrite renumber_loop_position.
    apply (Permutation_map position) in Hvalues.
    unfold altered in Hvalues at 2. now rewrite alter_atoms_position in Hvalues.
  - intros i b Hb. now destruct (renumber_nth _ _ Hb) as (a & _ & _ & _ & _ & Hid).
Qed.

Lemma replace_atom_conserves_witness :
  exists out,
    replace_atom water "resname" (VStr "SOL") "ION" "NA" 2 [2; 0] = Ok out
    /\ List.length out = List.length water
    /\ Permutation (map position out) (map position water)
    /\ forall i b, nth_error out i = Some b ->
         Atom.atomid b = (Z.of_nat (S i) mod 100000)%Z.
Proof.
  apply (@replace_atom_conserves water "resname" (VStr "SOL") [0; 1; 2] "ION" "NA" 2 [2; 0]).
  - reflexivity.
  - discriminate.
  - split; [reflexivity|]. split.
    + repeat constructor; simpl; intuition lia.
    + repeat constructor.
Defined.

(** X19. With at least one candidate, zero substitutions relabel and
    move nothing: [replace_atom] yields the atoms renumbered. *)
Theorem replace_atom_zero (atoms : list atom) (key : string) (v : value)
    (candidates : list nat) (resname atom_name : string) (draw : list nat) :
  select atoms key v = Ok candidates ->
  candidates <> [] ->
  valid_draw (List.length candidates) 0 draw ->
  replace_atom atoms key v resname atom_name 0 draw = Ok (renumber atoms).
Proof.
  intros Hsel Hne Hdraw.
  destruct candidates as [|c0 others]; [contradiction|].
  assert (draw = []) as ->.
  { destruct Hdraw as (Hlen & _). destruct draw; [reflexivity | cbn in Hlen; lia]. }
  pose (d := Atom.make 0 "" "" 0 origin origin origin).
  destruct (@replace_atom_steps key v resname atom_name atoms c0 others [] 0 d Hsel
              (valid_draw_bound Hdraw)) as (_ & _ & ->).
  cbn [flat_map alter_atoms fst]. do 2 f_equal.
  assert (Hc0 : c0 <= List.length atoms).
  { destruct (select_from_sorted _ _ _ _ Hsel) as [_ Hrange].
    rewrite Forall_forall in Hrange. specialize (Hrange c0 (or_introl eq_refl)). lia. }
  rewrite reorder_filter. cbn [app].
  rewrite !filter_all by reflexivity.
  rewrite <- (xrange_split Hc0). apply map_nth_seq.
Qed.

Lemma replace_atom_zero_witness :
  replace_atom water "atom_name" (VStr "HW1") "ION" "NA" 0 [] = Ok (renumber water).
Proof.
  apply (@replace_atom_zero water "atom_name" (VStr "HW1") [1] "ION" "NA" []).
  - reflexivity.
  - discriminate.
  - split; [reflexivity|]. split; constructor.
Defined.

Lemma replace_atom_places (atoms : list atom) (key : string) (v : value)
    (first : nat) (others : list nat) (resname atom_name : string) (k : Z)
    (draw : list nat) :
  select atoms key v = Ok (first :: others) ->
  valid_draw (List.length (first :: others)) k draw ->
  exists out,
    replace_atom atoms key v resname atom_name k draw = Ok out
    /\ (forall i a, i < first -> nth_error atoms i = Some a ->
          exists b, nth_error out i = Some b
            /\ Atom.resname b = Atom.resname a /\ Atom.atom_name b = Atom.atom_name a
            /\ position b = position a)
    /\ (forall j p c a,
          nth_error draw j = Some p -> nth_error (first :: others) p = Some c ->
          nth_error atoms c = Some a ->
          exists b, nth_error out (first + j) = Some b
            /\ Atom.resname b = resname /\ Atom.atom_name b = atom_name
            /\ position b = position a).
Proof.
  intros Hsel Hdraw.
  pose (d := Atom.make 0 "" "" 0 origin origin origin).
  destruct (@replace_atom_steps key v resname atom_name atoms first others draw k d Hsel
              (valid_draw_bound Hdraw)) as (Hlen & Hbounds & Hout).
  set (selection := flat_map (pick (first :: others)) draw) in *.
  destruct (alter_atoms_inv resname atom_name selection atoms) as (_ & Hframe & Herr).
  assert (Hnone : snd (alter_atoms atoms selection resname atom_name) = None).
  { apply Herr. eapply Forall_impl; [|exact Hbounds]. intros c Hc. cbv beta in Hc. lia. }
  set (altered := fst (alter_atoms atoms selection resname atom_name)) in *.
  rewrite (@reorder_above_anchor (List.length atoms) selection first) in Hout
    by (eapply Forall_impl; [|exact Hbounds]; intros c Hc; cbv beta in Hc; lia).
  set (tail := filter (fun i => negb (contains selection i))
                      (seq first (List.length atoms - first))) in *.
  assert (Hpicked : forall j p c,
            nth_error draw j = Some p -> nth_error (first :: others) p = Some c ->
            nth_error selection j = Some c).
  { destruct Hdraw as (_ & _ & Hlt). clear -Hlt. unfold selection.
    induction draw as [|q draw IH]; intros j p c Hj Hp; [now destruct j|].
    inversion Hlt as [|? ? Hq Hlt']; subst. cbn [flat_map]. unfold pick at 1.
    destruct (nth_error (first :: others) q) as [cq|] eqn:Eq;
      [|apply nth_error_None in Eq; lia].
    destruct j as [|j]; cbn [nth_error app] in *.
    - injection Hj as <-. congruence.
    - now apply (IH Hlt' j p c). }
  (* the atom yielded at a place of the order *)
  assert (Hat : forall i r a',
            nth_error (seq 0 first ++ selection ++ tail) i = Some r ->
            nth_error altered r = Some a' ->
            exists b, nth_error
                        (renumber (map (fun i => nth i altered d)
                                       (seq 0 first ++ selection ++ tail))) i = Some b
              /\ Atom.resname b = Atom.resname a'
              /\ Atom.atom_name b = Atom.atom_name a'
              /\ position b = position a').
  { intros i r a' Hr Ha'.
    assert (Hv : nth_error (map (fun i => nth i altered d)
                                (seq 0 first ++ selection ++ tail)) i = Some a').
    { rewrite (map_nth_error (fun i => nth i altered d) _ _ Hr).
      f_equal. now apply nth_error_nth. }
    unfold renumber. rewrite (@renumber_loop_nth _ 0%Z 0%Z 1%Z i a' Hv).
    eexists. split; [reflexivity|]. now repeat split. }
  eexists. split; [exact Hout|]. split.
  - intros i a Hi Ha.
    destruct (Hframe i a Ha) as (a' & Ha' & Hsame & Hkeep & _).
    assert (a' = a) as ->.
    { apply Hkeep. intros Hin. rewrite Forall_forall in Hbounds.
      specialize (Hbounds i Hin). lia. }
    apply (Hat i i a); [|exact Ha'].
    rewrite nth_error_app1 by (rewrite length_seq; lia).
    rewrite nth_error_nth' with (d := 0) by (rewrite length_seq; lia).
    now rewrite seq_nth.
  - intros j p c a Hj Hp Ha.
    pose proof (Hpicked j p c Hj Hp) as Hc.
    destruct (Hframe c a Ha) as (a' & Ha' & Hsame & _ & Hnames).
    destruct (Hnames Hnone (nth_error_In _ _ Hc)) as [Hrn Han].
    destruct (Hat (first + j) c a') as (b & Hb & Hbr & Hba & Hbp); [|exact Ha'|].
    + rewrite nth_error_app2 by (rewrite length_seq; lia).
      rewrite length_seq. replace (first + j - first) with j by lia.
      rewrite nth_error_app1 by (apply nth_error_Some; congruence). exact Hc.
    + exists b. split; [assumption|]. split; [congruence|]. split; [congruence|].
      rewrite Hbp. unfold position. destruct Hsame as (_ & _ & -> & -> & ->). reflexivity.
Qed.

(** X20. With candidates and a draw, [replace_atom] leaves the atoms in
    front of the first candidate where they are, with their names; and the
    atoms drawn come next, from the place of the first candidate on, in
    the order drawn, each with the new names and its own position in
    space. *)
Theorem replace_atom_placement (atoms : list atom) (key : string) (v : value)
    (first : nat) (others : list nat) (resname atom_name : string) (k : Z)
    (draw : list nat) :
  select atoms key v = Ok (first :: others) ->
  valid_draw (List.length (first :: others)) k draw ->
  exists out,
    replace_atom atoms key v resname atom_name k draw = Ok out
    /\ (forall i a, i < first -> nth_error atoms i = Some a ->
          exists b, nth_error out i = Some b
            /\ Atom.resname b = Atom.resname a /\ Atom.atom_name b = Atom.atom_name a
            /\ position b = position a)
    /\ (forall j p c a,
          nth_error draw j = Some p -> nth_error (first :: others) p = Some c ->
          nth_error atoms c = Some a ->
          exists b, nth_error out (first + j) = Some b
            /\ Atom.resname b = resname /\ Atom.atom_name b = atom_name
            /\ position b = position a).
Proof. apply replace_atom_places. Qed.

Lemma replace_atom_placement_witness :
  exists out,
    replace_atom
      [Atom.make 1 "ION" "K" 1 origin origin origin; sol "OW" 2; sol "HW1" 3; sol "HW2" 4]
      "resname" (VStr "SOL") "ION" "NA" 1 [2] = Ok out
    /\ (forall i a, i < 1 ->
          nth_error
            [Atom.make 1 "ION" "K" 1 origin origin origin; sol "OW" 2; sol "HW1" 3; sol "HW2" 4]
            i = Some a ->
          exists b, nth_error out i = Some b
            /\ Atom.resname b = Atom.resname a /\ Atom.atom_name b = Atom.atom_name a
            /\ position b = position a)
    /\ (forall j p c a,
          nth_error [2] j = Some p -> nth_error [1; 2; 3] p = Some c ->
          nth_error
            [Atom.make 1 "ION" "K" 1 origin origin origin; sol "OW" 2; sol "HW1" 3; sol "HW2" 4]
            c = Some a ->
          exists b, nth_error out (1 + j) = Some b
            /\ Atom.resname b = "ION"%string /\ Atom.atom_name b = "NA"%string
            /\ position b = position a).
Proof.
  apply (@replace_atom_placement
           [Atom.make 1 "ION" "K" 1 origin origin origin; sol "OW" 2; sol "HW1" 3; sol "HW2" 4]
           "resname" (VStr "SOL") 1 [2; 3] "ION" "NA" 1 [2]).
  - reflexivity.
  - split; [reflexivity|]. split.
    + repeat constructor. simpl. tauto.
    + repeat constructor.
Defined.

(** ** The whole run *)

Section Run.

Variable a : args.

Lemma select_resname (atoms : list atom) (v : value) :
  exists candidates, select atoms "resname" v = Ok candidates.
Proof.
  apply select_from_field. cbn [GRO_FIELDS map fst In]. tauto.
Qed.

Lemma cli_main_fails (stdin : list string) (draw : list nat) (e : exn) :
  cli_main a stdin draw = Raise e
  <-> read_gro stdin = Raise e
      \/ (exists title atoms box candidates,
            read_gro stdin = Ok (title, atoms, box)
            /\ select atoms "resname" (VStr (oresname a)) = Ok candidates
            /\ ((e = ValueError "sample larger than population"
                 /\ ~ (0 <= natoms a <= Z.of_nat (List.length candidates))%Z)
                \/ (e = ValueError "min() arg is an empty sequence"
                    /\ candidates = [] /\ natoms a = 0%Z))).
Proof.
  unfold cli_main.
  destruct (read_gro stdin) as [[[title atoms] box]|e'] eqn:Hread; cbn [bind].
  - destruct (replace_atom atoms "resname" (VStr (oresname a)) (nresname a) (natname a)
                (natoms a) draw) as [out|e'] eqn:Hrep; cbn [bind].
    + split; [discriminate|]. intros [H|(t & ats & b & cands & [= <- <- <-] & Hsel & H)];
        [discriminate|].
      assert (Hfail : replace_atom atoms "resname" (VStr (oresname a)) (nresname a)
                        (natname a) (natoms a) draw = Raise e).
      { apply replace_atom_fails. right. now exists cands. }
      congruence.
    + split.
      * intros [= <-]. right. apply replace_atom_fails in Hrep.
        destruct Hrep as [(_ & _ & Hkey)|(cands & Hsel & H)].
        -- exfalso. apply Hkey. cbn [GRO_FIELDS map fst In]. tauto.
        -- now exists title, atoms, box, cands.
      * intros [H|(t & ats & b & cands & [= <- <- <-] & Hsel & H)]; [discriminate|].
        assert (Hfail : replace_atom atoms "resname" (VStr (oresname a)) (nresname a)
                          (natname a) (natoms a) draw = Raise e).
        { apply replace_atom_fails. right. now exists cands. }
        congruence.
  - split.
    + intros [= <-]. now left.
    + intros [[= <-]|(t & ats & b & cands & H & _)]; [reflexivity | discriminate].
Qed.

End Run.

Section Canonical.

Local Open Scope string_scope.






End Canonical.

(** X21. A run fails as [read_gro] fails, or else with the [ValueError]
    of [random.sample] when the count is negative or above the number of
    atoms of the residue name looked for, or with the [ValueError] of
    [min] when there is no such atom and the count is 0; never with
    [KeyError] or [IndexError]. *)
Theorem cli_main_raises (a : args) (stdin : list string) (draw : list nat) (e : exn) :
  (cli_main a stdin draw = Raise e
   <-> read_gro stdin = Raise e
       \/ (exists title atoms box candidates,
             read_gro stdin = Ok (title, atoms, box)
             /\ select atoms "resname" (VStr (oresname a)) = Ok candidates
             /\ ((e = ValueError "sample larger than population"
                  /\ ~ (0 <= natoms a <= Z.of_nat (List.length candidates))%Z)
                 \/ (e = ValueError "min() arg is an empty sequence"
                     /\ candidates = [] /\ natoms a = 0%Z))))
  /\ (cli_main a stdin draw = Raise e -> e <> KeyError /\ e <> IndexError).
Proof.
  split; [apply cli_main_fails|].
  intros H. apply cli_main_fails in H.
  destruct H as [H|(_ & _ & _ & _ & _ & _ & [[-> _]|[-> _]])];
    [|split; discriminate | split; discriminate].
  apply read_gro_raises in H. destruct H as [[_ ->]|[_ ->]]; split; discriminate.
Qed.

(** X22. A run on an input that [read_gro] reads, with at least one atom
    of the residue name looked for and a count the candidates allow,
    prints the title, then the number of atoms read, then one line for
    each atom read, then the box line. *)
Theorem cli_main_prints (a : args) (stdin : list string) (draw : list nat)
    (title box : string) (atoms : list atom) (candidates : list nat) :
  read_gro stdin = Ok (title, atoms, box) ->
  select atoms "resname" (VStr (oresname a)) = Ok candidates ->
  candidates <> [] ->
  valid_draw (List.length candidates) (natoms a) draw ->
  exists out,
    replace_atom atoms "resname" (VStr (oresname a)) (nresname a) (natname a)
      (natoms a) draw = Ok out
    /\ List.length out = List.length atoms
    /\ cli_main a stdin draw
       = Ok (title :: (str_of_int (Z.of_nat (List.length atoms)) ++ nl)%string
                   :: map encode out ++ [box]).
Proof.
  intros Hread Hsel Hne Hdraw.
  destruct (@replace_atom_ok atoms "resname" (VStr (oresname a)) candidates
              (nresname a) (natname a) (natoms a) draw Hsel Hne Hdraw)
    as (out & Hout & Hlen).
  exists out. split; [assumption|]. split; [assumption|].
  unfold cli_main. rewrite Hread. cbn [bind]. rewrite Hout. cbn [bind].
  unfold write_gro. now rewrite Hlen.
Qed.

Lemma cli_main_prints_witness :
  exists out,
    replace_atom water "resname" (VStr "SOL") "ION" "NA" 1 [1] = Ok out
    /\ List.length out = List.length water
    /\ cli_main one_ion water_gro [1]
       = Ok (("water" ++ nl)%string :: (str_of_int (Z.of_nat (List.length water)) ++ nl)%string
             :: map encode out ++ [("   1.86206   1.86206   1.86206" ++ nl)%string]).
Proof.
  apply (@cli_main_prints one_ion water_gro [1] ("water" ++ nl)%string
           ("   1.86206   1.86206   1.86206" ++ nl)%string water [0; 1; 2]).
  - vm_compute. reflexivity.
  - reflexivity.
  - discriminate.
  - split; [reflexivity|]. split.
    + repeat constructor. simpl. tauto.
    + repeat constructor.
Defined.



(** ** The sampler

    Both loops of [random.sample] return the elements at pairwise distinct
    positions of the population: what they return is what [sample] returns
    for a draw that is valid. *)

Section Sampler.

Context {A : Type}.

Lemma setitem_map {B : Type} (f : B -> A) (l : list B) :
  forall (i : nat) (b : B), map f (setitem l i b) = setitem (map f l) i (f b).
Proof.
  induction l as [|c l IH]; intros [|i] b; cbn [setitem map]; try reflexivity.
  now rewrite IH.
Qed.

Lemma sample_pool_map {B : Type} (f : B -> A) (k : nat) :
  forall (pool : list B) (m : nat) (js : list nat),
    sample_pool (map f pool) m k js = option_map (map f) (sample_pool pool m k js).
Proof.
  induction k as [|k IH]; intros pool m js; [reflexivity|].
  cbn [sample_pool]. destruct js as [|j js]; [reflexivity|].
  rewrite !nth_error_map.
  destruct (nth_error pool j) as [c|]; [|reflexivity].
  destruct (nth_error pool (m - 1)) as [last|]; [|reflexivity].
  cbn [option_map]. rewrite <- setitem_map, IH.
  now destruct (sample_pool (setitem pool j last) (m - 1) k js).
Qed.

(** The first loop on a pool of positions that are pairwise distinct
    below [m]: it returns [k] of them, pairwise distinct. *)
Lemma sample_pool_positions (k : nat) :
  forall (idx : list nat) (m : nat) (js : list nat),
    m <= List.length idx ->
    (forall i i' p, i < m -> i' < m ->
       nth_error idx i = Some p -> nth_error idx i' = Some p -> i = i') ->
    List.length js = k ->
    (forall i j, nth_error js i = Some j -> j < m - i) ->
    exists draw,
      sample_pool idx m k js = Some draw
      /\ List.length draw = k /\ NoDup draw
      /\ forall p, In p draw -> exists i, i < m /\ nth_error idx i = Some p.
Proof.
  induction k as [|k IH]; intros idx m js Hm Hinj Hlen Hjs.
  - exists []. split; [reflexivity|]. split; [reflexivity|]. split; [constructor|].
    intros p [].
  - destruct js as [|j js]; [discriminate|]. injection Hlen as Hlen.
    assert (Hj : j < m) by (specialize (Hjs 0 j eq_refl); lia).
    cbn [sample_pool].
    destruct (nth_error idx j) as [c|] eqn:Hc; [|apply nth_error_None in Hc; lia].
    destruct (nth_error idx (m - 1)) as [last|] eqn:Hlast;
      [|apply nth_error_None in Hlast; lia].
    assert (Hnew : forall i, nth_error (setitem idx j last) i
                             = if Nat.eqb i j then Some last else nth_error idx i).
    { intros i. destruct (Nat.eqb_spec i j) as [->|Hne].
      - eapply setitem_same; eassumption.
      - apply setitem_other. congruence. }
    destruct (IH (setitem idx j last) (m - 1) js) as (draw & Hdraw & Hdlen & Hnd & Hin).
    + rewrite setitem_length. lia.
    + intros i i' p Hi Hi'. rewrite !Hnew.
      destruct (Nat.eqb_spec i j) as [->|Hne], (Nat.eqb_spec i' j) as [->|Hne'];
        intros H1 H2.
      * reflexivity.
      * injection H1 as <-.
        assert (i' = m - 1) by (apply (Hinj i' (m - 1) last); try lia; assumption). lia.
      * injection H2 as <-.
        assert (i = m - 1) by (apply (Hinj i (m - 1) last); try lia; assumption). lia.
      * apply (Hinj i i' p); try lia; assumption.
    + assumption.
    + intros i j' Hj'. specialize (Hjs (S i) j' Hj'). lia.
    + exists (c :: draw). rewrite Hdraw. split; [reflexivity|].
      split; [cbn [List.length]; lia|]. split.
      * constructor; [|assumption]. intros Hcin.
        destruct (Hin c Hcin) as (i & Hi & Hp). rewrite Hnew in Hp.
        destruct (Nat.eqb_spec i j) as [->|Hne].
        -- injection Hp as ->.
           assert (j = m - 1) by (apply (Hinj j (m - 1) c); try lia; assumption). lia.
        -- assert (i = j) by (apply (Hinj i j c); try lia; assumption). contradiction.
      * intros p [<-|Hp]; [now exists j|].
        destruct (Hin p Hp) as (i & Hi & Hp'). rewrite Hnew in Hp'.
        destruct (Nat.eqb_spec i j) as [->|Hne].
        -- injection Hp' as <-. exists (m - 1). split; [lia | assumption].
        -- exists i. split; [lia | assumption].
Qed.

Variable population : list A.

Lemma picks_map (d : A) (draw : list nat) :
  Forall (fun j => j < List.length population) draw ->
  flat_map (pick population) draw = map (fun i => nth i population d) draw.
Proof.
  induction 1 as [|j draw Hj _ IH]; [reflexivity|].
  cbn [flat_map map]. rewrite IH. unfold pick.
  now rewrite (nth_error_nth' population d Hj).
Qed.

(** The first loop returns, and what it returns is the selection of a
    draw that is valid. *)
Lemma sample_pool_draw (k : nat) (js : list nat) :
  List.length js = k ->
  (forall i j, nth_error js i = Some j -> j < List.length population - i) ->
  exists draw,
    sample_pool population (List.length population) k js
    = Some (flat_map (pick population) draw)
    /\ List.length draw = k /\ NoDup draw
    /\ Forall (fun j => j < List.length population) draw.
Proof.
  intros Hlen Hjs.
  destruct population as [|d rest] eqn:Hpop.
  - destruct js as [|j js].
    + subst k. exists []. split; [reflexivity|]. split; [reflexivity|]. split; constructor.
    + specialize (Hjs 0 j eq_refl). cbn in Hjs. lia.
  - rewrite <- Hpop in *.
    set (n := List.length population) in *.
    destruct (@sample_pool_positions k (seq 0 n) n js) as (draw & Hdraw & Hdlen & Hnd & Hin).
    + rewrite length_seq. lia.
    + intros i i' p Hi Hi' H1 H2.
      apply (nth_error_nth _ _ 0) in H1. apply (nth_error_nth _ _ 0) in H2.
      rewrite seq_nth in H1, H2 by assumption. lia.
    + assumption.
    + assumption.
    + assert (Hlt : Forall (fun j => j < n) draw).
      { apply Forall_forall. intros p Hp. destruct (Hin p Hp) as (i & Hi & Hp').
        apply (nth_error_nth _ _ 0) in Hp'. rewrite seq_nth in Hp' by assumption. lia. }
      exists draw. split; [|now repeat split].
      rewrite (picks_map d Hlt).
      replace (sample_pool population n k js)
        with (sample_pool (map (fun i => nth i population d) (seq 0 n)) n k js)
        by (unfold n; now rewrite map_nth_seq).
      rewrite sample_pool_map, Hdraw. reflexivity.
Qed.

(** What the second loop returns is the selection of a draw that is
    valid and avoids the positions selected before. *)
Lemma sample_set_draw (js : list nat) :
  forall (k : nat) (selected : list nat) (sel : list A),
    sample_set population k selected js = Some sel ->
    exists draw,
      sel = flat_map (pick population) draw
      /\ List.length draw = k /\ NoDup draw
      /\ Forall (fun j => j < List.length population /\ ~ In j selected) draw.
Proof.
  induction js as [|j js IH]; intros k selected sel H; destruct k as [|k];
    cbn [sample_set] in H;
    try (injection H as <-; exists []; split; [reflexivity|]; split; [reflexivity|];
         split; constructor).
  - discriminate.
  - destruct (contains selected j) eqn:Hc; [now apply IH in H|].
    destruct (nth_error population j) as [c|] eqn:Hj; [|discriminate].
    destruct (sample_set population k (j :: selected) js) as [sel'|] eqn:Hrec;
      [|discriminate].
    injection H as <-.
    apply IH in Hrec. destruct Hrec as (draw & -> & Hlen & Hnd & Hall).
    exists (j :: draw). split; [|split; [|split]].
    + cbn [flat_map]. unfold pick at 2. now rewrite Hj.
    + cbn [List.length]. lia.
    + constructor; [|assumption]. intros Hin. rewrite Forall_forall in Hall.
      destruct (Hall j Hin) as [_ Hn]. apply Hn. now left.
    + constructor.
      * split; [apply nth_error_Some; congruence|].
        intros Hin. apply (@contains_In selected j) in Hin. congruence.
      * eapply Forall_impl; [|exact Hall]. intros i [Hi Hn]. split; [assumption|].
        intros Hin. apply Hn. now right.
Qed.

(** The second loop returns when the integers drawn are the first
    positions, in order. *)
Lemma sample_set_returns (k : nat) :
  forall (lo : nat) (selected : list nat),
    (forall j, In j selected -> j < lo) ->
    lo + k <= List.length population ->
    exists sel, sample_set population k selected (seq lo k) = Some sel.
Proof.
  induction k as [|k IH]; intros lo selected Hsel Hk; [now exists []|].
  cbn [seq sample_set].
  destruct (contains selected lo) eqn:Hc.
  - apply (@contains_In selected lo) in Hc. apply Hsel in Hc. lia.
  - destruct (nth_error population lo) as [c|] eqn:Hlo;
      [|apply nth_error_None in Hlo; lia].
    destruct (IH (S lo) (lo :: selected)) as [sel Hs].
    + intros j [<-|Hj]; [lia|]. apply Hsel in Hj. lia.
    + lia.
    + rewrite Hs. now eexists.
Qed.

(** And every valid draw is what the second loop returns when these are
    the integers drawn. *)
Lemma sample_set_of_draw (draw : list nat) :
  forall selected : list nat,
    NoDup draw ->
    Forall (fun j => j < List.length population /\ ~ In j selected) draw ->
    sample_set population (List.length draw) selected draw
    = Some (flat_map (pick population) draw).
Proof.
  induction draw as [|j draw IH]; intros selected Hnd Hall; [reflexivity|].
  inversion Hnd as [|? ? Hj Hnd']; subst. inversion Hall as [|? ? [Hlt Hout] Hall']; subst.
  cbn [List.length sample_set flat_map]. unfold pick at 1.
  destruct (contains selected j) eqn:Hc;
    [apply (@contains_In selected j) in Hc; contradiction|].
  destruct (nth_error population j) as [c|] eqn:Ej; [|apply nth_error_None in Ej; lia].
  rewrite IH; [reflexivity | assumption|].
  rewrite Forall_forall in *. intros i Hi. destruct (Hall' i Hi) as [H1 H2].
  split; [assumption|]. intros [<-|H]; [contradiction | now apply H2].
Qed.

(** [random.sample] and its contract. *)
Lemma random_sample_draw (k : Z) (pool_loop : bool) (js : list nat) (sel : list A) :
  valid_choices (List.length population) (Z.to_nat k) pool_loop js ->
  random_sample population k pool_loop js = Some (Ok sel) ->
  exists draw,
    valid_draw (List.length population) k draw
    /\ sel = flat_map (pick population) draw.
Proof.
  unfold random_sample, valid_choices. cbv zeta.
  destruct (Z.leb_spec 0 k) as [H0|]; [|discriminate].
  destruct (Z.leb_spec k (Z.of_nat (List.length population))) as [Hn|]; [|discriminate].
  cbn [andb]. destruct pool_loop.
  - intros [Hlen Hjs] H.
    destruct (@sample_pool_draw _ _ Hlen Hjs) as (draw & Hdraw & Hdlen & Hnd & Hlt).
    rewrite Hdraw in H. injection H as <-.
    exists draw. split; [|reflexivity]. split; [lia|]. now split.
  - intros _ H.
    destruct (sample_set population (Z.to_nat k) [] js) as [sel'|] eqn:Hs; [|discriminate].
    injection H as <-.
    destruct (@sample_set_draw _ _ _ _ Hs) as (draw & -> & Hdlen & Hnd & Hall).
    exists draw. split; [|reflexivity]. split; [lia|]. split; [assumption|].
    eapply Forall_impl; [|exact Hall]. now intros j [Hj _].
Qed.

Lemma random_sample_returns (k : Z) (pool_loop : bool) :
  (0 <= k <= Z.of_nat (List.length population))%Z ->
  exists js sel,
    valid_choices (List.length population) (Z.to_nat k) pool_loop js
    /\ random_sample population k pool_loop js = Some (Ok sel).
Proof.
  intros Hk. unfold random_sample, valid_choices. cbv zeta.
  destruct (Z.leb_spec 0 k) as [H0|]; [|lia].
  destruct (Z.leb_spec k (Z.of_nat (List.length population))) as [Hn|]; [|lia].
  cbn [andb]. destruct pool_loop.
  - assert (Hjs : forall i j, nth_error (repeat 0 (Z.to_nat k)) i = Some j ->
                    j < List.length population - i).
    { intros i j Hj.
      assert (Hi : i < List.length (repeat 0 (Z.to_nat k)))
        by (apply nth_error_Some; congruence).
      rewrite repeat_length in Hi.
      apply nth_error_In, repeat_spec in Hj. lia. }
    destruct (@sample_pool_draw _ _ (repeat_length 0 (Z.to_nat k)) Hjs) as (draw & Hdraw & _).
    exists (repeat 0 (Z.to_nat k)). eexists. split.
    + split; [apply repeat_length | exact Hjs].
    + rewrite Hdraw. reflexivity.
  - destruct (@sample_set_returns (Z.to_nat k) 0 []) as [sel Hs].
    + intros j [].
    + lia.
    + exists (seq 0 (Z.to_nat k)), sel. split.
      * apply Forall_forall. intros j Hj. apply in_seq in Hj. lia.
      * now rewrite Hs.
Qed.

Lemma random_sample_too_many (k : Z) (pool_loop : bool) (js : list nat) :
  (Z.of_nat (List.length population) < k)%Z ->
  random_sample population k pool_loop js
  = Some (Raise (ValueError "sample larger than population")).
Proof.
  intros Hk. unfold random_sample. cbv zeta.
  destruct (Z.leb_spec k (Z.of_nat (List.length population))); [lia|].
  now rewrite andb_false_r.
Qed.

End Sampler.

(** The two loops on a population of four, three elements asked for: the
    first with the integers 0, 0, 1; the second with 2, 2, 0, 2, 0, 3, of
    which it draws again the second, the fourth and the fifth. *)
Lemma random_sample_traces :
  random_sample [10; 20; 30; 40] 3 true [0; 0; 1] = Some (Ok [10; 40; 20])
  /\ random_sample [10; 20; 30; 40] 3 false [2; 2; 0; 2; 0; 3] = Some (Ok [30; 10; 40]).
Proof. split; reflexivity. Qed.

(** C7, amended.  With the candidates that [select] finds and a count
    [k]: what [random.sample] returns, whichever of its loops runs and
    whatever integers it draws, is [k] pairwise distinct candidates, the
    selection of a valid draw; and it does return for every count from 0
    to the number of candidates.  When the count is the number of
    candidates and there is at least one, [replace_atom] succeeds, with as
    many atoms as it was given, and every candidate atom is in its result
    with the new names and its own position in space: the candidate at
    place [p], drawn at turn [j], is the atom [j] places after the place
    of the first candidate.  When the count exceeds the number of
    candidates, [random.sample] raises its [ValueError], and so do
    [replace_atom] and the run. *)
Theorem replace_atom_sampling (atoms : list atom) (key : string) (v : value)
    (candidates : list nat) (resname atom_name : string) (k : Z) (draw : list nat) :
  select atoms key v = Ok candidates ->
  let n := List.length candidates in
  (forall pool_loop js sel,
      valid_choices n (Z.to_nat k) pool_loop js ->
      random_sample candidates k pool_loop js = Some (Ok sel) ->
      Z.of_nat (List.length sel) = k /\ NoDup sel /\ incl sel candidates
      /\ exists d, valid_draw n k d /\ sample candidates k d = Ok sel)
  /\ ((0 <= k <= Z.of_nat n)%Z ->
      forall pool_loop, exists js sel,
        valid_choices n (Z.to_nat k) pool_loop js
        /\ random_sample candidates k pool_loop js = Some (Ok sel))
  /\ (k = Z.of_nat n -> candidates <> [] -> valid_draw n k draw ->
      exists first out,
        py_min candidates = Ok first
        /\ replace_atom atoms key v resname atom_name k draw = Ok out
        /\ List.length out = List.length atoms
        /\ forall c a, In c candidates -> nth_error atoms c = Some a ->
             exists j p b,
               nth_error draw j = Some p /\ nth_error candidates p = Some c
               /\ nth_error out (first + j) = Some b
               /\ Atom.resname b = resname /\ Atom.atom_name b = atom_name
               /\ position b = position a)
  /\ ((Z.of_nat n < k)%Z ->
      (forall pool_loop js,
          random_sample candidates k pool_loop js
          = Some (Raise (ValueError "sample larger than population")))
      /\ replace_atom atoms key v resname atom_name k draw
         = Raise (ValueError "sample larger than population")
      /\ forall (a : args) (stdin : list string) (title box : string),
           read_gro stdin = Ok (title, atoms, box) ->
           key = "resname"%string -> v = VStr (oresname a) -> k = natoms a ->
           cli_main a stdin draw = Raise (ValueError "sample larger than population")).
Proof.
  intros Hsel n. subst n.
  destruct (select_from_sorted _ _ _ _ Hsel) as [Hsorted Hrange].
  pose proof (sorted_NoDup Hsorted) as Hnd.
  split; [|split; [|split]].
  - intros pool_loop js sel Hjs Hs.
    destruct (@random_sample_draw _ candidates k pool_loop js sel Hjs Hs) as (d & Hd & ->).
    pose proof (valid_draw_bound Hd) as Hk.
    pose proof Hd as (Hlen & Hdnd & Hlt).
    split; [now rewrite picks_length|]. split; [now apply picks_NoDup|]. split.
    + intros c Hc. apply In_picks in Hc. destruct Hc as (j & _ & Hj).
      eapply nth_error_In; eassumption.
    + exists d. split; [assumption | now apply sample_ok].
  - intros Hk pool_loop. now apply random_sample_returns.
  - intros Hkn Hne Hdraw.
    destruct candidates as [|c0 others]; [congruence|].
    destruct (@replace_atom_places atoms key v c0 others resname atom_name k draw Hsel Hdraw)
      as (out & Hout & _ & Hplaced).
    destruct (@replace_atom_ok atoms key v (c0 :: others) resname atom_name k draw
                Hsel Hne Hdraw) as (out' & Hout' & Hlen).
    assert (out' = out) as -> by congruence.
    exists c0, out. split; [now apply py_min_sorted|]. split; [assumption|].
    split; [assumption|].
    intros c a Hc Ha.
    apply In_nth_error in Hc. destruct Hc as [p Hp].
    assert (Hin : In p draw).
    { rewrite Hkn in Hdraw. apply (@full_draw_covers _ (c0 :: others) draw Hdraw).
      apply nth_error_Some. congruence. }
    apply In_nth_error in Hin. destruct Hin as [j Hj].
    destruct (Hplaced j p c a Hj Hp Ha) as (b & Hb).
    exists j, p, b. now repeat split.
  - intros Hk. split; [|split].
    + intros pool_loop js. now apply random_sample_too_many.
    + unfold replace_atom. rewrite Hsel. cbn [bind]. now rewrite sample_too_many.
    + intros a stdin title box Hread -> -> ->.
      now apply (@cli_main_too_many a stdin draw title box atoms candidates).
Qed.

(** The three atoms of water are the candidates and all three are asked
    for, drawn as the last, the first, the second. *)
Lemma replace_atom_sampling_witness :
  select water "resname" (VStr "SOL") = Ok [0; 1; 2]
  /\ exists first out,
       py_min [0; 1; 2] = Ok first
       /\ replace_atom water "resname" (VStr "SOL") "ION" "NA" 3 [2; 0; 1] = Ok out
       /\ List.length out = List.length water
       /\ forall c a, In c [0; 1; 2] -> nth_error water c = Some a ->
            exists j p b,
              nth_error [2; 0; 1] j = Some p /\ nth_error [0; 1; 2] p = Some c
              /\ nth_error out (first + j) = Some b
              /\ Atom.resname b = "ION"%string /\ Atom.atom_name b = "NA"%string
              /\ position b = position a.
Proof.
  split; [reflexivity|].
  destruct (@replace_atom_sampling water "resname" (VStr "SOL") [0; 1; 2] "ION" "NA" 3
              [2; 0; 1] eq_refl) as (_ & _ & H & _).
  apply H.
  - reflexivity.
  - discriminate.
  - split; [reflexivity|]. split.
    + repeat constructor; simpl; intuition lia.
    + repeat constructor.
Defined.

(** C7, as stated, fails where there is no candidate: the count 0 is the
    number of candidates, [random.sample] returns the empty list, and
    [replace_atom] raises the [ValueError] of [min]. *)
Lemma replace_atom_all_of_none :
  select water "resname" (VStr "ION") = Ok []
  /\ 0%Z = Z.of_nat (List.length (@nil nat))
  /\ valid_draw (List.length (@nil nat)) 0 []
  /\ (forall pool_loop, random_sample (@nil nat) 0 pool_loop [] = Some (Ok []))
  /\ replace_atom water "resname" (VStr "ION") "CL" "CL" 0 []
     = Raise (ValueError "min() arg is an empty sequence").
Proof.
  split; [reflexivity|]. split; [reflexivity|]. split.
  - split; [reflexivity|]. split; constructor.
  - split; [now intros [] | reflexivity].
Qed.
